(** * Fusefy slides: info-box tooltips, progress rings, Storylane demos

    A shallow embedding of the client-side scripts of the slide deck:

    - [Double]: doubles, as far as the other parts need them.
    - [Tooltip]: [setupGlobalHoverHandlers] and [positionInfoBoxGlobal] of
      js/slide-consistency.js: the hover handlers of funnel levels and info
      boxes, their delayed hides, and the placement of an info box.
    - [Ring]: [calculateOffset] of js/slides-interactive.js.
    - [Storylane]: the preloader script ([preloadStorylaneDemos],
      [swapPreloadedIframe]) and the modal code of js/slides-interactive.js
      ([showStoryLaneModal], [closeStoryLaneModals]).
    - [Zoom]: [showZoom], [closeZoom] and the Escape listener of
      js/slides-interactive.js.
    - [Preloader]: [initStorylaneDemoPreloader] of the preloader script, with
      its timers.
    - [Popups]: the listeners of [setupExplanationPopups] of
      js/slides-interactive.js.
    - [Scaling]: [adjustContentScaling] of js/slide-consistency.js.

    Handlers are functions on the state of the page.  In [Tooltip] the page
    is the list of its elements with the timers that are pending and a clock
    in milliseconds; in [Storylane] it is the tree of the document with the
    status object of the preloader.

    Numbers.  JavaScript numbers are IEEE-754 doubles, and so are the
    numbers of the embedding: the primitive binary64 floats, with the
    arithmetic and the comparisons of the code.  [Double] has [Math.min] and
    [Math.max] and the facts about the order and the rounding of doubles
    that the statements need. *)

From Stdlib Require Import ZArith Floats Lia Ascii.
From Stdlib Require String.
From stdpp Require Import base strings list gmap pretty.

Set Warnings "-clear-no-such-hyp,-register-all".

(** ** Class lists

    A [DOMTokenList] is an ordered set of class names: [add] appends a name
    that is absent, [remove] drops it, [contains] tests it. *)

Module ClassList.

Definition contains (c : string) (l : list string) : bool :=
  bool_decide (c ∈ l).

Definition add (c : string) (l : list string) : list string :=
  if contains c l then l else l ++ [c].

Definition remove (c : string) (l : list string) : list string :=
  filter (λ x, x ≠ c) l.

Lemma contains_add c l : contains c (add c l) = true.
Proof.
  unfold add. destruct (contains c l) eqn:E; [exact E|].
  apply bool_decide_eq_true. set_solver.
Qed.

Lemma contains_add_ne c d l : c ≠ d → contains c (add d l) = contains c l.
Proof.
  intros Hne. unfold add. destruct (contains d l); [reflexivity|].
  unfold contains. apply bool_decide_ext. set_solver.
Qed.

Lemma contains_remove c l : contains c (remove c l) = false.
Proof.
  apply bool_decide_eq_false. unfold remove.
  rewrite list_elem_of_filter. tauto.
Qed.

Lemma contains_remove_ne c d l :
  c ≠ d → contains c (remove d l) = contains c l.
Proof.
  intros Hne. unfold contains, remove. apply bool_decide_ext.
  rewrite list_elem_of_filter. naive_solver.
Qed.

End ClassList.

(** ** Doubles

    [Math.min] and [Math.max], and what the statements below need of the
    order and the arithmetic of binary64 numbers, proved from the
    specification of the primitive floats. *)

Module Double.

Definition Math_min (a b : float) : float :=
  if is_nan a || is_nan b then nan
  else if (a <? b)%float then a
  else if (b <? a)%float then b
  else if get_sign a then a else b.

Definition Math_max (a b : float) : float :=
  if is_nan a || is_nan b then nan
  else if (a <? b)%float then b
  else if (b <? a)%float then a
  else if get_sign a then b else a.

(** The order of [SFcompare] *)

Lemma cont_spec m1 m2 : Pos.compare_cont Eq m1 m2 = (m1 ?= m2)%positive.
Proof. reflexivity. Qed.

Ltac order_cases :=
  repeat match goal with
  | |- context [Z.compare ?a ?b] => destruct (Z.compare_spec a b)
  | |- context [Pos.compare_cont Eq ?a ?b] =>
      rewrite (cont_spec a b); destruct (Pos.compare_spec a b)
  | H : context [Z.compare ?a ?b] |- _ => destruct (Z.compare_spec a b)
  | H : context [Pos.compare_cont Eq ?a ?b] |- _ =>
      rewrite (cont_spec a b) in H; destruct (Pos.compare_spec a b)
  end.

Lemma SFcompare_antisym x y :
  SFcompare y x = CompOpp <$> SFcompare x y.
Proof.
  destruct x as [[]|[]| |[] m1 e1], y as [[]|[]| |[] m2 e2]; cbn; try reflexivity;
    order_cases; cbn; try reflexivity; try lia.
Qed.

Lemma SFcompare_refl x : x ≠ S754_nan → SFcompare x x = Some Eq.
Proof.
  destruct x as [[]|[]| |[] m e]; cbn; try done;
    intros _; rewrite Z.compare_refl, Pos.compare_cont_refl; done.
Qed.

Lemma SFcompare_trans x y z c :
  SFcompare x y = Some c → SFcompare y z = Some c → SFcompare x z = Some c.
Proof.
  destruct x as [[]|[]| |[] m1 e1], y as [[]|[]| |[] m2 e2],
    z as [[]|[]| |[] m3 e3]; cbn; try congruence;
    intros H1 H2; order_cases; cbn in *; try congruence; try lia.
Qed.

Lemma SFcompare_Eq_l x y z :
  SFcompare x y = Some Eq → SFcompare x z = SFcompare y z.
Proof.
  destruct x as [[]|[]| |[] m1 e1], y as [[]|[]| |[] m2 e2],
    z as [[]|[]| |[] m3 e3]; cbn; try congruence;
    intros H1; order_cases; cbn in *; try congruence; try lia.
Qed.


Lemma SFcompare_total x y :
  x ≠ S754_nan → y ≠ S754_nan → is_Some (SFcompare x y).
Proof.
  destruct x as [[]|[]| |[] m1 e1], y as [[]|[]| |[] m2 e2]; cbn; try done;
    intros _ _; by eexists.
Qed.

(** Floats through their specification *)

Lemma is_nan_spec x : is_nan x = false ↔ Prim2SF x ≠ S754_nan.
Proof.
  unfold is_nan. rewrite FloatAxioms.eqb_spec. unfold SFeqb.
  destruct (Prim2SF x) as [[]|[]| |[] m e]; cbn;
    rewrite ?Z.compare_refl, ?Pos.compare_cont_refl; cbn; split; congruence.
Qed.

Lemma is_finite_spec x :
  is_finite x = true ↔
  (∃ s, Prim2SF x = S754_zero s) ∨ (∃ s m e, Prim2SF x = S754_finite s m e).
Proof.
  unfold is_finite, is_nan, is_infinity. rewrite !FloatAxioms.eqb_spec, abs_spec.
  unfold SFeqb.
  destruct (Prim2SF x) as [[]|[]| |[] m e]; cbn;
    rewrite ?Z.compare_refl, ?Pos.compare_cont_refl; cbn;
    split; try congruence; eauto; intros [[? ?]|(? & ? & ? & ?)]; congruence.
Qed.

Lemma finite_not_nan x : is_finite x = true → is_nan x = false.
Proof. unfold is_finite. by destruct (is_nan x). Qed.

Section order.
Local Open Scope float_scope.

Lemma ltb_leb x y : (x <? y) = true → (x <=? y) = true.
Proof.
  rewrite ltb_spec, leb_spec. unfold SFltb, SFleb.
  by destruct (SFcompare _ _) as [[]|].
Qed.

Lemma leb_refl x : is_nan x = false → (x <=? x) = true.
Proof.
  intros H%is_nan_spec. rewrite leb_spec. unfold SFleb.
  by rewrite SFcompare_refl.
Qed.

Lemma leb_total x y :
  is_nan x = false → is_nan y = false → (x <? y) = false → (y <=? x) = true.
Proof.
  intros Hx%is_nan_spec Hy%is_nan_spec. rewrite ltb_spec, leb_spec.
  unfold SFltb, SFleb. rewrite (SFcompare_antisym (Prim2SF x)).
  destruct (SFcompare_total _ _ Hx Hy) as [c ->]. by destruct c.
Qed.

Lemma leb_false_ltb x y :
  is_nan x = false → is_nan y = false → (x <=? y) = false → (y <? x) = true.
Proof.
  intros Hx%is_nan_spec Hy%is_nan_spec. rewrite ltb_spec, leb_spec.
  unfold SFltb, SFleb. rewrite (SFcompare_antisym (Prim2SF x)).
  destruct (SFcompare_total _ _ Hx Hy) as [c ->]. by destruct c.
Qed.

Lemma ltb_asym x y : (x <? y) = true → (y <? x) = false.
Proof.
  rewrite !ltb_spec. unfold SFltb. rewrite (SFcompare_antisym (Prim2SF x)).
  by destruct (SFcompare _ _) as [[]|].
Qed.

Lemma ltb_not_leb x y : (x <? y) = true → (y <=? x) = false.
Proof.
  rewrite ltb_spec, leb_spec. unfold SFltb, SFleb.
  rewrite (SFcompare_antisym (Prim2SF x)).
  by destruct (SFcompare _ _) as [[]|].
Qed.

Lemma leb_not_ltb x y : (x <=? y) = true → (y <? x) = false.
Proof.
  rewrite ltb_spec, leb_spec. unfold SFltb, SFleb.
  rewrite (SFcompare_antisym (Prim2SF x)).
  by destruct (SFcompare _ _) as [[]|].
Qed.

Lemma leb_trans x y z :
  (x <=? y) = true → (y <=? z) = true → (x <=? z) = true.
Proof.
  rewrite !leb_spec. unfold SFleb.
  destruct (SFcompare (Prim2SF x) (Prim2SF y)) as [[]|] eqn:H1; try done;
  destruct (SFcompare (Prim2SF y) (Prim2SF z)) as [[]|] eqn:H2; try done; intros _ _.
  - by rewrite (SFcompare_Eq_l _ _ _ H1), H2.
  - by rewrite (SFcompare_Eq_l _ _ _ H1), H2.
  - rewrite SFcompare_antisym in H2.
    destruct (SFcompare (Prim2SF z) (Prim2SF y)) as [[]|] eqn:H3; try done.
    rewrite (SFcompare_antisym (Prim2SF z)), (SFcompare_Eq_l _ _ _ H3).
    rewrite SFcompare_antisym, H1. done.
  - by rewrite (SFcompare_trans _ _ _ _ H1 H2).
Qed.

Lemma ltb_leb_trans x y z :
  (x <? y) = true → (y <=? z) = true → (x <? z) = true.
Proof.
  rewrite !ltb_spec, leb_spec. unfold SFltb, SFleb.
  destruct (SFcompare (Prim2SF x) (Prim2SF y)) as [[]|] eqn:H1; try done;
  destruct (SFcompare (Prim2SF y) (Prim2SF z)) as [[]|] eqn:H2; try done; intros _ _.
  - rewrite SFcompare_antisym in H2.
    destruct (SFcompare (Prim2SF z) (Prim2SF y)) as [[]|] eqn:H3; try done.
    rewrite (SFcompare_antisym (Prim2SF z)), (SFcompare_Eq_l _ _ _ H3).
    rewrite SFcompare_antisym, H1. done.
  - by rewrite (SFcompare_trans _ _ _ _ H1 H2).
Qed.

Lemma leb_ltb_trans x y z :
  (x <=? y) = true → (y <? z) = true → (x <? z) = true.
Proof.
  rewrite !ltb_spec, leb_spec. unfold SFltb, SFleb.
  destruct (SFcompare (Prim2SF x) (Prim2SF y)) as [[]|] eqn:H1; try done;
  destruct (SFcompare (Prim2SF y) (Prim2SF z)) as [[]|] eqn:H2; try done; intros _ _.
  - by rewrite (SFcompare_Eq_l _ _ _ H1), H2.
  - by rewrite (SFcompare_trans _ _ _ _ H1 H2).
Qed.

(** [Math.min] and [Math.max] of two numbers *)

Lemma Math_min_spec a b :
  is_nan a = false → is_nan b = false →
  (Math_min a b = a ∨ Math_min a b = b) ∧
  (Math_min a b <=? a) = true ∧ (Math_min a b <=? b) = true.
Proof.
  intros Ha Hb. unfold Math_min. rewrite Ha, Hb. cbn [orb].
  destruct (a <? b) eqn:Hab.
  { split; [by left|]. split; [by apply leb_refl | by apply ltb_leb]. }
  destruct (b <? a) eqn:Hba.
  { split; [by right|]. split; [by apply ltb_leb | by apply leb_refl]. }
  destruct (get_sign a).
  - split; [by left|]. split; [by apply leb_refl | by apply leb_total].
  - split; [by right|]. split; [by apply leb_total | by apply leb_refl].
Qed.

Lemma Math_max_spec a b :
  is_nan a = false → is_nan b = false →
  (Math_max a b = a ∨ Math_max a b = b) ∧
  (a <=? Math_max a b) = true ∧ (b <=? Math_max a b) = true.
Proof.
  intros Ha Hb. unfold Math_max. rewrite Ha, Hb. cbn [orb].
  destruct (a <? b) eqn:Hab.
  { split; [by right|]. split; [by apply ltb_leb | by apply leb_refl]. }
  destruct (b <? a) eqn:Hba.
  { split; [by left|]. split; [by apply leb_refl | by apply ltb_leb]. }
  destruct (get_sign a).
  - split; [by right|]. split; [by apply leb_total | by apply leb_refl].
  - split; [by left|]. split; [by apply leb_refl | by apply leb_total].
Qed.

End order.


(** Rounding gives a number *)

Lemma iter_pos_inv {A} (P : A → Prop) (f : A → A) :
  (∀ x, P x → P (f x)) → ∀ n x, P x → P (SpecFloat.iter_pos f n x).
Proof.
  intros Hf. induction n as [n IH|n IH|]; intros x Hx; cbn; auto.
Qed.

Lemma shr_1_nonneg mrs : (0 ≤ shr_m mrs)%Z → (0 ≤ shr_m (shr_1 mrs))%Z.
Proof. destruct mrs as [[|[p|p|]|p] r s]; cbn; lia. Qed.

Lemma shr_nonneg mrs e n : (0 ≤ shr_m mrs)%Z → (0 ≤ shr_m (shr mrs e n).1)%Z.
Proof.
  intros H. destruct n as [|p|p]; cbn; try done.
  by apply (iter_pos_inv (λ x, (0 ≤ shr_m x)%Z)); [apply shr_1_nonneg|].
Qed.

Lemma shr_fexp_nonneg prec emax m e l :
  (0 ≤ m)%Z → (0 ≤ shr_m (shr_fexp prec emax m e l).1)%Z.
Proof.
  intros H. unfold shr_fexp. apply shr_nonneg. by destruct l as [|[]].
Qed.

Lemma round_nearest_even_nonneg m l : (0 ≤ m)%Z → (0 ≤ round_nearest_even m l)%Z.
Proof. destruct l as [|[]]; cbn; try done; [destruct (Z.even m)|]; lia. Qed.

Lemma binary_round_aux_number prec emax s m e l :
  (0 ≤ m)%Z → binary_round_aux prec emax s m e l ≠ S754_nan.
Proof.
  intros Hm. unfold binary_round_aux.
  pose proof (shr_fexp_nonneg prec emax m e l Hm) as H1.
  destruct (shr_fexp prec emax m e l) as [mrs' e'].
  pose proof (shr_fexp_nonneg prec emax _ e' loc_Exact
                (round_nearest_even_nonneg _ (loc_of_shr_record mrs') H1)) as H2.
  destruct (shr_fexp prec emax _ e' loc_Exact) as [mrs'' e''].
  cbn in H2. destruct (shr_m mrs'') as [|p|p]; [done| |lia].
  by destruct (e'' <=? emax - prec)%Z.
Qed.

Lemma binary_normalize_number prec emax m e szero :
  binary_normalize prec emax m e szero ≠ S754_nan.
Proof.
  destruct m as [|p|p]; cbn; [done| |];
    unfold binary_round; destruct (shl_align _ _ _);
    by apply binary_round_aux_number.
Qed.

Section numbers.
Local Open Scope float_scope.

(** A sum or difference is [NaN] only for a [NaN] or for two infinities. *)
Lemma add_number x y :
  is_nan x = false → is_finite y = true → is_nan (x + y) = false.
Proof.
  intros Hx%is_nan_spec Hy%is_finite_spec. apply is_nan_spec.
  rewrite add_spec. unfold SF64add.
  destruct Hy as [[sy ->]|(sy & my & ey & ->)];
    destruct (Prim2SF x) as [sx|sx| |sx mx ex]; cbn [SFadd]; try done.
  - by destruct sx, sy.
  - apply binary_normalize_number.
Qed.

Lemma sub_number x y :
  is_nan x = false → is_finite y = true → is_nan (x - y) = false.
Proof.
  intros Hx%is_nan_spec Hy%is_finite_spec. apply is_nan_spec.
  rewrite sub_spec. unfold SF64sub.
  destruct Hy as [[sy ->]|(sy & my & ey & ->)];
    destruct (Prim2SF x) as [sx|sx| |sx mx ex]; cbn [SFsub]; try done.
  - by destruct sx, sy.
  - apply binary_normalize_number.
Qed.

End numbers.


(** Digits and shifts *)

Section digits.
Local Open Scope Z_scope.

Lemma digits2_size p : digits2_pos p = Pos.size p.
Proof. induction p as [p IH|p IH|]; cbn; by rewrite ?IH. Qed.

Lemma Zdigits2_log2 m : (0 < m)%Z → Zdigits2 m = (Z.log2 m + 1)%Z.
Proof.
  destruct m as [|p|p]; try lia. intros _. cbn [Zdigits2].
  rewrite digits2_size. destruct p; cbn; lia.
Qed.

Lemma Zdigits2_nonneg m : (0 ≤ Zdigits2 m)%Z.
Proof. destruct m; cbn; lia. Qed.

Lemma Zdigits2_bound m k :
  (0 ≤ m)%Z → (0 ≤ k)%Z → (m < 2 ^ k)%Z ↔ (Zdigits2 m ≤ k)%Z.
Proof.
  intros Hm Hk. destruct (decide (m = 0)) as [->|Hne].
  { cbn. split; [lia|]. intros _. by apply Z.pow_pos_nonneg. }
  rewrite Zdigits2_log2 by lia.
  rewrite (Z.log2_lt_pow2 m k) by lia. lia.
Qed.

Lemma iter_pos_Pos_iter {A} (f : A → A) p x :
  SpecFloat.iter_pos f p x = Pos.iter f x p.
Proof.
  revert x. induction p as [p IH|p IH|]; intros x; cbn; [|by rewrite !IH|done].
  rewrite !IH. by rewrite <-!Pos.iter_swap.
Qed.

Lemma shr_1_m mrs : (0 ≤ shr_m mrs)%Z → shr_m (shr_1 mrs) = Z.div2 (shr_m mrs).
Proof. destruct mrs as [[|[p|p|]|p] r s]; cbn; try done; lia. Qed.

Lemma shr_iter_m p mrs :
  (0 ≤ shr_m mrs)%Z →
  shr_m (SpecFloat.iter_pos shr_1 p mrs) = Z.shiftr (shr_m mrs) (Zpos p).
Proof.
  intros Hm. rewrite iter_pos_Pos_iter.
  induction p as [|p IH] using Pos.peano_ind.
  - cbn [Pos.iter]. rewrite shr_1_m by done. by rewrite Z.div2_spec.
  - rewrite Pos.iter_succ, shr_1_m.
    + rewrite IH, Z.div2_spec, Z.shiftr_shiftr by lia. f_equal. lia.
    + rewrite IH. by apply Z.shiftr_nonneg.
Qed.

Lemma shiftr_digits m k d :
  (0 ≤ m)%Z → (0 < k)%Z → (Zdigits2 m ≤ d)%Z →
  (Zdigits2 (Z.shiftr m k) ≤ Z.max (d - k) 0)%Z.
Proof.
  intros Hm Hk Hd.
  assert (0 ≤ d)%Z by (pose proof (Zdigits2_nonneg m); lia).
  apply Zdigits2_bound; [by apply Z.shiftr_nonneg | lia |].
  apply Zdigits2_bound in Hd; [|lia..].
  rewrite Z.shiftr_div_pow2 by lia.
  apply Z.div_lt_upper_bound; [by apply Z.pow_pos_nonneg; lia|].
  destruct (Z.max_spec (d - k) 0) as [[? ->]|[? ->]].
  - rewrite Z.mul_1_r. eapply Z.lt_le_trans; [exact Hd|].
    apply Z.pow_le_mono_r; lia.
  - rewrite <-Z.pow_add_r by lia. by replace (k + (d - k))%Z with d by lia.
Qed.

Lemma succ_digits m : (0 ≤ m)%Z → (Zdigits2 (m + 1) ≤ Zdigits2 m + 1)%Z.
Proof.
  intros Hm. pose proof (Zdigits2_nonneg m).
  apply Zdigits2_bound; [lia..|].
  assert (m < 2 ^ Zdigits2 m)%Z by (apply Zdigits2_bound; lia).
  rewrite Z.pow_add_r, Z.pow_1_r by lia. lia.
Qed.


(** A value below 2^1023 does not round to an infinity. *)

Definition is_finite_SF (x : spec_float) : Prop :=
  match x with
  | S754_zero _ | S754_finite _ _ _ => True
  | _ => False
  end.

Lemma shr_fexp_bounds m e l :
  0 ≤ m →
  let r := shr_fexp prec emax m e l in
  0 ≤ shr_m r.1 ∧
  r.2 = Z.max e (fexp prec emax (Zdigits2 m + e)) ∧
  Zdigits2 (shr_m r.1) + r.2 ≤ Z.max (Zdigits2 m + e) r.2.
Proof.
  intros Hm r. split; [by apply shr_fexp_nonneg|].
  unfold r, shr_fexp, shr.
  assert (Hrec : shr_m (shr_record_of_loc m l) = m) by by destruct l as [|[]].
  destruct (fexp prec emax (Zdigits2 m + e) - e) as [|k|k] eqn:Hk;
    cbn [fst snd]; rewrite ?Hrec.
  - split; lia.
  - split; [lia|]. rewrite shr_iter_m, Hrec by by rewrite Hrec.
    pose proof (shiftr_digits m (Z.pos k) (Zdigits2 m) Hm) as Hd. lia.
  - split; lia.
Qed.

Lemma binary_round_aux_finite s m e l :
  0 ≤ m → e ≤ 971 → Zdigits2 m + e ≤ 1023 →
  is_finite_SF (binary_round_aux prec emax s m e l).
Proof.
  intros Hm He Hd. unfold binary_round_aux.
  pose proof (shr_fexp_bounds m e l Hm) as (H1 & H2 & H3).
  destruct (shr_fexp prec emax m e l) as [mrs' e']. cbn [fst snd] in *.
  set (m1 := round_nearest_even (shr_m mrs') (loc_of_shr_record mrs')).
  assert (Hm1 : 0 ≤ m1) by by apply round_nearest_even_nonneg.
  assert (Hd1 : Zdigits2 m1 ≤ Zdigits2 (shr_m mrs') + 1).
  { unfold m1. destruct (loc_of_shr_record mrs') as [|[]]; cbn; try lia;
      [destruct (Z.even _); [lia|]|]; by apply succ_digits. }
  pose proof (shr_fexp_bounds m1 e' loc_Exact Hm1) as (H4 & H5 & H6).
  destruct (shr_fexp prec emax m1 e' loc_Exact) as [mrs'' e'']. cbn [fst snd] in *.
  unfold fexp, SpecFloat.emin, prec, emax in *.
  destruct (shr_m mrs'') as [|p|p]; [done| |lia].
  destruct (Z.leb_spec e'' (1024 - 53)); [done|lia].
Qed.

End digits.

Section division.
Local Open Scope float_scope.

Lemma valid_finite x s m e :
  Prim2SF x = S754_finite s m e →
  (Z.max (Z.pos (digits2_pos m) + e - 53) (-1074) = e ∧ e ≤ 971)%Z.
Proof.
  intros Hx. pose proof (Prim2SF_valid x) as Hv. rewrite Hx in Hv.
  cbn in Hv. apply andb_prop in Hv as [Hc Hb].
  unfold canonical_mantissa, fexp, SpecFloat.emin, prec, emax in Hc.
  apply Z.eqb_eq in Hc. apply Z.leb_le in Hb. unfold emax, prec in Hb. lia.
Qed.

(** Half of a finite number is finite. *)
Lemma half_finite x : is_finite x = true → is_finite (x / 2) = true.
Proof.
  intros Hx%is_finite_spec. rewrite is_finite_spec, div_spec.
  change (Prim2SF 2) with (S754_finite false 4503599627370496 (-51)).
  destruct Hx as [[s ->]|(s & m & e & Hx)]; [left; by eexists|].
  destruct (valid_finite _ _ _ _ Hx) as [Hcan He]. rewrite Hx.
  unfold SF64div, SFdiv, SFdiv_core_binary.
  set (d := Z.pos (digits2_pos m)) in *.
  cbn [Zdigits2]. fold d.
  change (Z.pos (digits2_pos 4503599627370496)) with 53%Z.
  set (e' := Z.min _ _). set (sh := (e - -51 - e')%Z).
  set (m' := match sh with Z0 => _ | Z.pos _ => _ | Z.neg _ => _ end).
  assert (He' : (-1074 ≤ e' ∧ e' ≤ e - 2 ∨ e' = -1074 ∧ e ≤ -1073)%Z).
  { unfold e', fexp, SpecFloat.emin, prec, emax. lia. }
  assert (Hsh : (0 < sh)%Z) by (unfold sh; lia).
  assert (Hm' : m' = (Z.pos m * 2 ^ sh)%Z).
  { unfold m'. destruct sh; try lia. by rewrite Z.shiftl_mul_pow2. }
  pose proof (Z_div_mod m' 4503599627370496 eq_refl) as Hdiv.
  destruct (Z.div_eucl m' 4503599627370496) as [q r]. destruct Hdiv as [Hq Hr].
  assert (Hq0 : (0 ≤ q)%Z) by nia.
  assert (Hfin : is_finite_SF
            (binary_round_aux prec emax (xorb s false) q e'
               (new_location 4503599627370496 r))).
  { apply binary_round_aux_finite; [done|lia|].
    assert (Hdq : (Zdigits2 q ≤ Z.max (d + sh - 52) 0)%Z).
    { apply Zdigits2_bound; [done|lia|].
      assert (Hmd : (Z.pos m < 2 ^ d)%Z).
      { apply (Zdigits2_bound (Z.pos m)); [lia..|]. cbn. lia. }
      assert (Hpow : (0 < 2 ^ sh)%Z) by (apply Z.pow_pos_nonneg; lia).
      assert (Hlt : (m' < 2 ^ (d + sh))%Z).
      { rewrite Hm', Z.pow_add_r by lia. by apply Z.mul_lt_mono_pos_r. }
      destruct (Z.max_spec (d + sh - 52) 0) as [[? ->]|[? ->]].
      - assert (2 ^ (d + sh) ≤ 2 ^ 52)%Z by (apply Z.pow_le_mono_r; lia).
        change (2 ^ 52)%Z with 4503599627370496%Z in *.
        change (2 ^ 0)%Z with 1%Z. lia.
      - assert (2 ^ (d + sh) = 4503599627370496 * 2 ^ (d + sh - 52))%Z.
        { change 4503599627370496%Z with (2 ^ 52)%Z.
          rewrite <-Z.pow_add_r by lia. f_equal. lia. }
        assert (0 < 2 ^ (d + sh - 52))%Z by (apply Z.pow_pos_nonneg; lia).
        nia. }
    unfold sh in *. lia. }
  destruct (binary_round_aux _ _ _ _ _ _); try done; [left|right]; eauto.
Qed.

End division.


(** Rounding is monotone

    The product with a positive double, the quotient by 100 and the
    difference from a positive double keep or reverse the order of doubles.
    The operations round an exact value to the nearest double; a value that
    is truncated at some exponent is a mantissa with a round and a sticky
    bit, and rounding is monotone on these. *)

Section rounding.
Local Open Scope Z_scope.

(** A truncated mantissa with its round and sticky bits, as one number:
    four times the mantissa, plus two for the round bit, plus one for the
    sticky bit.  The order of these numbers is the order of the values that
    the records stand for. *)
Definition key (mrs : shr_record) : Z :=
  4 * shr_m mrs + (if shr_r mrs then 2 else 0) + (if shr_s mrs then 1 else 0).

(** [k] shifts to the right; none for [k <= 0]. *)
Definition shift_right (mrs : shr_record) (k : Z) : shr_record :=
  match k with
  | Z.pos p => SpecFloat.iter_pos shr_1 p mrs
  | _ => mrs
  end.

Lemma shr_1_key mrs :
  0 ≤ shr_m mrs →
  key (shr_1 mrs) = 2 * shr_m mrs + (if shr_r mrs || shr_s mrs then 1 else 0).
Proof.
  destruct mrs as [[|[p|p|]|p] [] []]; unfold key; cbn; lia.
Qed.

Lemma shr_1_mono a b :
  0 ≤ shr_m a → 0 ≤ shr_m b → key a ≤ key b → key (shr_1 a) ≤ key (shr_1 b).
Proof.
  intros Ha Hb. rewrite !shr_1_key by done. unfold key.
  destruct (shr_r a), (shr_s a), (shr_r b), (shr_s b); cbn; lia.
Qed.

Lemma shift_right_nonneg mrs k : 0 ≤ shr_m mrs → 0 ≤ shr_m (shift_right mrs k).
Proof.
  intros H. destruct k as [|p|p]; cbn; try done.
  by apply (iter_pos_inv (λ x, 0 ≤ shr_m x)); [apply shr_1_nonneg|].
Qed.

Lemma shift_right_mono a b k :
  0 ≤ shr_m a → 0 ≤ shr_m b → key a ≤ key b →
  key (shift_right a k) ≤ key (shift_right b k).
Proof.
  intros Ha Hb Hab. destruct k as [|p|p]; cbn; try done.
  rewrite !iter_pos_Pos_iter.
  revert a b Ha Hb Hab. induction p as [|p IH] using Pos.peano_ind; intros a b Ha Hb Hab.
  - cbn. by apply shr_1_mono.
  - rewrite !Pos.iter_succ. apply shr_1_mono.
    + rewrite <-iter_pos_Pos_iter. by apply (shift_right_nonneg a (Z.pos p)).
    + rewrite <-iter_pos_Pos_iter. by apply (shift_right_nonneg b (Z.pos p)).
    + by apply IH.
Qed.

Lemma shift_right_add mrs j k :
  0 ≤ j → 0 ≤ k → shift_right (shift_right mrs j) k = shift_right mrs (j + k).
Proof.
  intros Hj Hk. destruct j as [|p|p], k as [|q|q]; try done; try lia.
  change (Z.pos p + Z.pos q) with (Z.pos (p + q)). cbn [shift_right].
  rewrite !iter_pos_Pos_iter. rewrite Pos.add_comm. by rewrite Pos.iter_add.
Qed.

Lemma shift_right_m mrs k :
  0 ≤ shr_m mrs → 0 ≤ k → shr_m (shift_right mrs k) = Z.shiftr (shr_m mrs) k.
Proof.
  intros Hm Hk. destruct k as [|p|p]; cbn [shift_right]; try lia.
  - by rewrite Z.shiftr_0_r.
  - by apply shr_iter_m.
Qed.


(** Rounding to nearest, ties to even, of a record. *)
Definition rnd (mrs : shr_record) : Z :=
  round_nearest_even (shr_m mrs) (loc_of_shr_record mrs).

Lemma rnd_bounds a : shr_m a ≤ rnd a ≤ shr_m a + 1.
Proof.
  unfold rnd. destruct a as [m [] []]; cbn; try lia. destruct (Z.even m); lia.
Qed.

Lemma rnd_mono a b : key a ≤ key b → rnd a ≤ rnd b.
Proof.
  unfold rnd, key. destruct a as [m1 r1 s1], b as [m2 r2 s2]. cbn.
  intros H.
  destruct (decide (m1 = m2)) as [->|Hne].
  - destruct r1, s1, r2, s2; cbn; try lia; destruct (Z.even m2); lia.
  - assert (m1 + 1 ≤ m2) by (destruct r1, s1, r2, s2; lia).
    destruct r1, s1, r2, s2; cbn; try lia;
      repeat match goal with |- context [Z.even ?m] => destruct (Z.even m) end; lia.
Qed.

Lemma record_of_loc mrs :
  shr_record_of_loc (shr_m mrs) (loc_of_shr_record mrs) = mrs.
Proof. by destruct mrs as [m [] []]. Qed.

Lemma loc_of_record m l : loc_of_shr_record (shr_record_of_loc m l) = l.
Proof. by destruct l as [|[]]. Qed.

Lemma record_m m l : shr_m (shr_record_of_loc m l) = m.
Proof. by destruct l as [|[]]. Qed.


Lemma fexp64_eq z : (fexp prec emax) z = Z.max (z - 53) (-1074).
Proof. reflexivity. Qed.

(** The float for a rounded mantissa [m] of at most 54 digits at the
    exponent [E]. *)
Definition finish (s : bool) (m E : Z) : spec_float :=
  if m =? 2 ^ 53 then
    if E + 1 <=? 971 then S754_finite s (2 ^ 52) (E + 1) else S754_infinity s
  else
    match m with
    | Z0 => S754_zero s
    | Z.pos p => if E <=? 971 then S754_finite s p E else S754_infinity s
    | Z.neg _ => S754_nan
    end.

Lemma shr_fexp_spec m e l :
  shr_fexp prec emax m e l
  = (shift_right (shr_record_of_loc m l) ((fexp prec emax) (Zdigits2 m + e) - e),
     Z.max e ((fexp prec emax) (Zdigits2 m + e))).
Proof.
  unfold shr_fexp, shr. destruct ((fexp prec emax) (Zdigits2 m + e) - e) as [|p|p] eqn:Hk;
    cbn [shift_right]; f_equal; lia.
Qed.

(** After the first shift the mantissa has at most 53 digits. *)
Lemma stage1_digits m e l :
  0 ≤ m →
  Zdigits2 (shr_m (shift_right (shr_record_of_loc m l) ((fexp prec emax) (Zdigits2 m + e) - e)))
    ≤ 53 ∧
  -1074 ≤ Z.max e ((fexp prec emax) (Zdigits2 m + e)).
Proof.
  intros Hm. rewrite fexp64_eq. split; [|lia].
  pose proof (Zdigits2_nonneg m).
  destruct (Z.max (Zdigits2 m + e - 53) (-1074) - e) as [|p|p] eqn:Hk;
    cbn [shift_right]; rewrite ?record_m; try lia.
  rewrite shr_iter_m, record_m by by rewrite record_m.
  pose proof (shiftr_digits m (Z.pos p) (Zdigits2 m) Hm). lia.
Qed.

Lemma binary_round_aux_spec s m e l :
  0 ≤ m →
  binary_round_aux prec emax s m e l
  = finish s
      (rnd (shift_right (shr_record_of_loc m l) ((fexp prec emax) (Zdigits2 m + e) - e)))
      (Z.max e ((fexp prec emax) (Zdigits2 m + e))).
Proof.
  intros Hm. unfold binary_round_aux. rewrite shr_fexp_spec.
  destruct (stage1_digits m e l Hm) as [Hd HE].
  set (a := shift_right _ _) in *. set (E := Z.max e _) in *.
  assert (Ha : 0 ≤ shr_m a) by (apply shift_right_nonneg; by rewrite record_m).
  fold (rnd a). pose proof (rnd_bounds a) as Hr.
  assert (Hlt : shr_m a < 2 ^ 53) by (apply Zdigits2_bound; lia).
  rewrite shr_fexp_spec. unfold finish.
  destruct (Z.eqb_spec (rnd a) (2 ^ 53)) as [->|Hne].
  - change (Zdigits2 (2 ^ 53)) with 54. rewrite fexp64_eq.
    replace (Z.max (54 + E - 53) (-1074) - E) with 1 by lia.
    cbn [shift_right SpecFloat.iter_pos shr_record_of_loc shr_1 shr_m fst snd].
    replace (Z.max E (Z.max (54 + E - 53) (-1074))) with (E + 1) by lia.
    reflexivity.
  - assert (Hd' : Zdigits2 (rnd a) ≤ 53) by (apply Zdigits2_bound; lia).
    rewrite fexp64_eq.
    assert (Hk : Z.max (Zdigits2 (rnd a) + E - 53) (-1074) - E ≤ 0) by lia.
    replace (Z.max E (Z.max (Zdigits2 (rnd a) + E - 53) (-1074))) with E by lia.
    destruct (Z.max (Zdigits2 (rnd a) + E - 53) (-1074) - E) as [|p|p];
      try lia; cbn [shift_right fst snd]; by rewrite record_m.
Qed.


Lemma Zdigits2_lower m : 0 < m → 2 ^ (Zdigits2 m - 1) ≤ m.
Proof.
  intros Hm. rewrite Zdigits2_log2 by done.
  replace (Z.log2 m + 1 - 1) with (Z.log2 m) by lia.
  by apply Z.log2_spec.
Qed.

Lemma Zdigits2_mono m n : 0 ≤ m → m ≤ n → Zdigits2 m ≤ Zdigits2 n.
Proof.
  intros Hm Hmn. pose proof (Zdigits2_nonneg n).
  apply Zdigits2_bound; [done..|].
  assert (n < 2 ^ Zdigits2 n) by (apply Zdigits2_bound; lia). lia.
Qed.

Lemma Zdigits2_shiftr m j :
  0 ≤ j → 0 < Z.shiftr m j → Zdigits2 (Z.shiftr m j) = Zdigits2 m - j.
Proof.
  intros Hj Hpos.
  assert (Hm : 0 < m).
  { destruct (Z.lt_trichotomy m 0) as [Hneg|[->|?]]; [|by rewrite Z.shiftr_0_l in Hpos|done].
    assert (Z.shiftr m j < 0) by (apply Z.shiftr_neg; lia). lia. }
  rewrite !Zdigits2_log2 by done.
  rewrite Z.log2_shiftr by done.
  destruct (Z.max_spec 0 (Z.log2 m - j)) as [[? ->]|[Hle ->]]; [lia|].
  destruct (decide (Z.log2 m = j)) as [|Hne]; [lia|].
  assert (m < 2 ^ j).
  { apply Z.log2_lt_pow2; [done|lia]. }
  rewrite Z.shiftr_div_pow2 in Hpos by done.
  rewrite Z.div_small in Hpos by lia. lia.
Qed.

(** The order of the floats that [finish] gives. *)
Lemma finish_mono m1 E1 m2 E2 :
  0 ≤ m1 ≤ 2 ^ 53 → 0 ≤ m2 ≤ 2 ^ 53 →
  (E1 = E2 ∧ m1 ≤ m2) ∨ (E1 < E2 ∧ 2 ^ 52 ≤ m2) →
  SFleb (finish false m1 E1) (finish false m2 E2) = true.
Proof.
  intros H1 H2 Hord. unfold finish.
  change (2 ^ 53) with 9007199254740992 in *.
  change (2 ^ 52) with 4503599627370496 in *.
  destruct (Z.eqb_spec m1 9007199254740992) as [->|Hn1],
           (Z.eqb_spec m2 9007199254740992) as [->|Hn2];
    repeat match goal with
           | |- context [Z.leb ?a ?b] => destruct (Z.leb_spec a b)
           end;
    try (destruct m1 as [|p1|p1]); try (destruct m2 as [|p2|p2]);
    try lia; try reflexivity;
    repeat match goal with
           | |- context [Z.leb ?a ?b] => destruct (Z.leb_spec a b)
           end;
    try lia; try reflexivity;
    unfold SFleb, SFcompare; order_cases; try reflexivity; lia.
Qed.

(** Rounding is monotone: for two values at one exponent, at most that of
    the subnormal numbers. *)
Lemma round_mono a b e0 :
  0 ≤ shr_m a → 0 ≤ shr_m b → key a ≤ key b → e0 ≤ -1074 →
  SFleb (binary_round_aux prec emax false (shr_m a) e0 (loc_of_shr_record a))
        (binary_round_aux prec emax false (shr_m b) e0 (loc_of_shr_record b))
  = true.
Proof.
  intros Ha Hb Hab He0. rewrite !binary_round_aux_spec, !record_of_loc by done.
  assert (Hm : shr_m a ≤ shr_m b).
  { unfold key in Hab. destruct (shr_r a), (shr_s a), (shr_r b), (shr_s b); lia. }
  pose proof (Zdigits2_mono _ _ Ha Hm) as Hd.
  pose proof (Zdigits2_nonneg (shr_m a)) as Hda.
  destruct (stage1_digits (shr_m a) e0 (loc_of_shr_record a) Ha) as [Hda' _].
  destruct (stage1_digits (shr_m b) e0 (loc_of_shr_record b) Hb) as [Hdb' _].
  rewrite !record_of_loc in Hda', Hdb'.
  rewrite !fexp64_eq in *.
  set (ka := Z.max (Zdigits2 (shr_m a) + e0 - 53) (-1074) - e0) in *.
  set (kb := Z.max (Zdigits2 (shr_m b) + e0 - 53) (-1074) - e0) in *.
  set (sa := shift_right a ka) in *. set (sb := shift_right b kb) in *.
  assert (Hsa : 0 ≤ shr_m sa) by by apply shift_right_nonneg.
  assert (Hsb : 0 ≤ shr_m sb) by by apply shift_right_nonneg.
  assert (shr_m sa < 2 ^ 53) by (apply Zdigits2_bound; lia).
  assert (shr_m sb < 2 ^ 53) by (apply Zdigits2_bound; lia).
  pose proof (rnd_bounds sa). pose proof (rnd_bounds sb).
  apply finish_mono; [lia..|].
  destruct (decide (ka = kb)) as [Hk|Hk].
  - left. split; [lia|]. apply rnd_mono. unfold sa, sb. rewrite Hk.
    by apply shift_right_mono.
  - right. split; [lia|].
    assert (Hkb : kb = Zdigits2 (shr_m b) - 53 ∧ 0 < kb) by lia.
    destruct Hkb as [Hkb Hpos].
    assert (Hbpos : 0 < shr_m b).
    { destruct (decide (shr_m b = 0)) as [Hz|]; [|lia].
      rewrite Hz in Hkb. cbn in Hkb. lia. }
    pose proof (Zdigits2_lower _ Hbpos) as Hlow.
    assert (2 ^ 52 ≤ shr_m sb); [|lia].
    unfold sb. rewrite shift_right_m by lia.
    rewrite Z.shiftr_div_pow2 by lia.
    apply Z.div_le_lower_bound; [apply Z.pow_pos_nonneg; lia|].
    rewrite <-Z.pow_add_r by lia.
    replace (kb + 52) with (Zdigits2 (shr_m b) - 1) by lia. done.
Qed.


(** A value may be given with more bits: the result of the rounding is the
    same. *)
Lemma round_refine s a e j :
  0 ≤ shr_m a → 0 ≤ j →
  e + j ≤ (fexp prec emax) (Zdigits2 (shr_m (shift_right a j)) + (e + j)) →
  binary_round_aux prec emax s (shr_m a) e (loc_of_shr_record a)
  = binary_round_aux prec emax s (shr_m (shift_right a j)) (e + j)
      (loc_of_shr_record (shift_right a j)).
Proof.
  intros Ha Hj Hfine.
  assert (Hc : 0 ≤ shr_m (shift_right a j)) by by apply shift_right_nonneg.
  rewrite !binary_round_aux_spec, !record_of_loc by done.
  assert (HF : (fexp prec emax) (Zdigits2 (shr_m a) + e)
               = (fexp prec emax) (Zdigits2 (shr_m (shift_right a j)) + (e + j))).
  { rewrite shift_right_m in * by done.
    destruct (decide (Z.shiftr (shr_m a) j = 0)) as [Hz|Hnz].
    - rewrite Hz in *. cbn [Zdigits2] in *. rewrite !fexp64_eq in *.
      assert (shr_m a < 2 ^ j).
      { rewrite Z.shiftr_div_pow2 in Hz by done.
        apply Z.div_small_iff in Hz as [?|?]; [lia| |];
          pose proof (Z.pow_pos_nonneg 2 j); lia. }
      assert (Zdigits2 (shr_m a) ≤ j) by (apply Zdigits2_bound; lia).
      lia.
    - rewrite Zdigits2_shiftr by lia. f_equal. lia. }
  rewrite HF. set (F := (fexp prec emax) _) in *.
  replace (F - e) with (j + (F - (e + j))) by lia.
  rewrite <-shift_right_add by lia. f_equal. lia.
Qed.

Lemma shr_1_spec m r s :
  0 ≤ m →
  shr_1 {| shr_m := m; shr_r := r; shr_s := s |}
  = {| shr_m := Z.div2 m; shr_r := Z.odd m; shr_s := r || s |}.
Proof. destruct m as [|[p|p|]|p]; cbn; try done; lia. Qed.

Lemma shift_right_succ a j :
  0 ≤ j → shift_right a (j + 1) = shift_right (shr_1 a) j.
Proof.
  intros Hj. replace (j + 1) with (1 + j) by lia.
  by rewrite <-shift_right_add by lia.
Qed.

(** Zeros at the end of an exact value shift out. *)
Lemma shift_right_exact M j :
  0 ≤ M → 0 ≤ j →
  shift_right (shr_record_of_loc (M * 2 ^ j) loc_Exact) j
  = shr_record_of_loc M loc_Exact.
Proof.
  intros HM Hj. revert M HM. pattern j. apply natlike_ind; [|clear j Hj|done].
  - intros M HM. by rewrite Z.mul_1_r.
  - intros j Hj IH M HM. change (Z.succ j) with (j + 1).
    rewrite shift_right_succ by done. cbn [shr_record_of_loc].
    replace (M * 2 ^ (j + 1)) with (2 * (M * 2 ^ j))
      by (rewrite Z.pow_add_r, Z.pow_1_r by lia; lia).
    pose proof (Z.pow_pos_nonneg 2 j).
    rewrite shr_1_spec by nia.
    rewrite Z.odd_mul. change (Z.odd 2) with false. cbn [andb orb].
    rewrite Z.div2_div, (Z.mul_comm 2), Z.div_mul by lia.
    by apply IH.
Qed.

Lemma round_exact_value s M e e0 :
  0 ≤ M → e0 ≤ e → e ≤ (fexp prec emax) (Zdigits2 M + e) →
  binary_round_aux prec emax s M e loc_Exact
  = binary_round_aux prec emax s (M * 2 ^ (e - e0)) e0 loc_Exact.
Proof.
  intros HM He Hfine.
  pose proof (round_refine s (shr_record_of_loc (M * 2 ^ (e - e0)) loc_Exact)
                e0 (e - e0)) as H.
  rewrite shift_right_exact in H by lia. cbn in H.
  replace (e0 + (e - e0)) with e in H by lia.
  symmetry. apply H; [|lia|done].
  pose proof (Z.pow_pos_nonneg 2 (e - e0)). nia.
Qed.

(** Two exact values, compared at a common exponent. *)
Lemma round_exact_mono M1 e1 M2 e2 e0 :
  0 ≤ M1 → 0 ≤ M2 → e0 ≤ e1 → e0 ≤ e2 → e0 ≤ -1074 →
  e1 ≤ (fexp prec emax) (Zdigits2 M1 + e1) → e2 ≤ (fexp prec emax) (Zdigits2 M2 + e2) →
  M1 * 2 ^ (e1 - e0) ≤ M2 * 2 ^ (e2 - e0) →
  SFleb (binary_round_aux prec emax false M1 e1 loc_Exact)
        (binary_round_aux prec emax false M2 e2 loc_Exact) = true.
Proof.
  intros H1 H2 He1 He2 He0 Hf1 Hf2 Hle.
  rewrite (round_exact_value _ M1 e1 e0), (round_exact_value _ M2 e2 e0) by done.
  assert (0 < 2 ^ (e1 - e0)) by (apply Z.pow_pos_nonneg; lia).
  assert (0 < 2 ^ (e2 - e0)) by (apply Z.pow_pos_nonneg; lia).
  assert (HA1 : 0 ≤ M1 * 2 ^ (e1 - e0)) by nia.
  assert (HA2 : 0 ≤ M2 * 2 ^ (e2 - e0)) by nia.
  revert HA1 HA2 Hle.
  generalize (M1 * 2 ^ (e1 - e0)) (M2 * 2 ^ (e2 - e0)). intros A1 A2 HA1 HA2 Hle.
  apply (round_mono (shr_record_of_loc A1 loc_Exact)
           (shr_record_of_loc A2 loc_Exact));
    unfold key; cbn [shr_record_of_loc shr_m shr_r shr_s]; lia.
Qed.


(** *** Canonical floats and their values *)

(** What [valid_binary] says of a finite float. *)
Definition canonical (m : positive) (e : Z) : Prop :=
  Z.max (Z.pos (digits2_pos m) + e - 53) (-1074) = e ∧ e ≤ 971.

Lemma valid_canonical s m e :
  valid_binary (S754_finite s m e) = true → canonical m e.
Proof.
  cbn. intros [Hc Hb]%andb_prop.
  unfold canonical_mantissa, fexp, SpecFloat.emin, prec, emax in Hc.
  apply Z.eqb_eq in Hc. apply Z.leb_le in Hb. unfold emax, prec in Hb.
  split; lia.
Qed.

Lemma canonical_bounds m e :
  canonical m e →
  -1074 ≤ e ∧ Z.pos m < 2 ^ 53 ∧ (-1074 < e → 2 ^ 52 ≤ Z.pos m).
Proof.
  intros [Hc He]. split; [lia|].
  assert (Hd : Zdigits2 (Z.pos m) ≤ 53) by (cbn; lia).
  split; [apply Zdigits2_bound; lia|].
  intros Hn. assert (Z.pos (digits2_pos m) = 53) as Hd53 by lia.
  pose proof (Zdigits2_lower (Z.pos m) eq_refl) as Hl. cbn [Zdigits2] in Hl.
  by rewrite Hd53 in Hl.
Qed.

(** A finite positive float, in units of 2^e0. *)
Definition units (e0 : Z) (m : positive) (e : Z) : Z := Z.pos m * 2 ^ (e - e0).

Lemma units_pos e0 m e : e0 ≤ e → 0 < units e0 m e.
Proof.
  intros He. unfold units.
  assert (0 < 2 ^ (e - e0)) by (apply Z.pow_pos_nonneg; lia). lia.
Qed.

Lemma units_mono e0 m1 e1 m2 e2 :
  canonical m1 e1 → canonical m2 e2 → e0 ≤ -1074 →
  SFleb (S754_finite false m1 e1) (S754_finite false m2 e2) = true →
  units e0 m1 e1 ≤ units e0 m2 e2.
Proof.
  intros H1 H2 He0.
  destruct (canonical_bounds _ _ H1) as (He1 & Hm1 & _).
  destruct (canonical_bounds _ _ H2) as (He2 & Hm2 & Hn2).
  unfold SFleb, SFcompare, units. order_cases; try done; intros _.
  - subst e2. assert (0 < 2 ^ (e1 - e0)) by (apply Z.pow_pos_nonneg; lia). nia.
  - subst e2. assert (0 < 2 ^ (e1 - e0)) by (apply Z.pow_pos_nonneg; lia). nia.
  - replace (e2 - e0) with ((e2 - e1) + (e1 - e0)) by lia.
    rewrite Z.pow_add_r by lia.
    assert (0 < 2 ^ (e1 - e0)) by (apply Z.pow_pos_nonneg; lia).
    assert (2 ^ 1 ≤ 2 ^ (e2 - e1)) by (apply Z.pow_le_mono_r; lia).
    change (2 ^ 1) with 2 in *. change (2 ^ 52) with 4503599627370496 in *.
    change (2 ^ 53) with 9007199254740992 in *.
    assert (Z.pos m1 ≤ Z.pos m2 * 2 ^ (e2 - e1)) by nia.
    nia.
Qed.

Lemma mul_digits a b :
  0 < a → 0 < b → Zdigits2 a + Zdigits2 b - 1 ≤ Zdigits2 (a * b).
Proof.
  intros Ha Hb. rewrite !Zdigits2_log2 by nia.
  pose proof (Z.log2_mul_below a b Ha Hb). lia.
Qed.


(** *** Signs *)

Definition nonneg (x : spec_float) : Prop :=
  match x with
  | S754_zero _ | S754_finite false _ _ | S754_infinity false => True
  | _ => False
  end.

Lemma SFcompare_opp a b : SFcompare (SFopp a) (SFopp b) = SFcompare b a.
Proof.
  destruct a as [[]|[]| |[] m1 e1], b as [[]|[]| |[] m2 e2]; cbn; try reflexivity;
    order_cases; cbn; try reflexivity; lia.
Qed.

Lemma SFleb_opp a b : SFleb (SFopp a) (SFopp b) = SFleb b a.
Proof. unfold SFleb. by rewrite SFcompare_opp. Qed.

Lemma nonpos_le_nonneg a b : nonneg a → nonneg b → SFleb (SFopp a) b = true.
Proof. by destruct a as [[]|[]| |[] m1 e1], b as [[]|[]| |[] m2 e2]. Qed.

Lemma zero_le_nonneg s b : nonneg b → SFleb (S754_zero s) b = true.
Proof. by destruct b as [[]|[]| |[] m2 e2]. Qed.

Lemma finish_opp m E : finish true m E = SFopp (finish false m E).
Proof.
  unfold finish. destruct (m =? 2 ^ 53); [by destruct (E + 1 <=? 971)|].
  destruct m; [done| |done]. by destruct (E <=? 971).
Qed.

Lemma finish_nonneg m E : 0 ≤ m → nonneg (finish false m E).
Proof.
  intros Hm. unfold finish. destruct (m =? 2 ^ 53); [by destruct (E + 1 <=? 971)|].
  destruct m; [done| |lia]. by destruct (E <=? 971).
Qed.

Lemma binary_round_aux_opp m e l :
  0 ≤ m →
  binary_round_aux prec emax true m e l
  = SFopp (binary_round_aux prec emax false m e l).
Proof. intros Hm. rewrite !binary_round_aux_spec by done. apply finish_opp. Qed.

Lemma binary_round_aux_nonneg m e l :
  0 ≤ m → nonneg (binary_round_aux prec emax false m e l).
Proof.
  intros Hm. rewrite binary_round_aux_spec by done. apply finish_nonneg.
  pose proof (rnd_bounds (shift_right (shr_record_of_loc m l)
                            ((fexp prec emax) (Zdigits2 m + e) - e))) as [H _].
  etrans; [|exact H]. apply shift_right_nonneg. by rewrite record_m.
Qed.

(** A function on floats that keeps zeros and infinities, commutes with the
    sign and is monotone on the positive finite floats is monotone. *)
Lemma symmetric_mono (F : spec_float → spec_float) (G : positive → Z → spec_float) :
  (∀ s, F (S754_zero s) = S754_zero s) →
  (∀ s, F (S754_infinity s) = S754_infinity s) →
  (∀ s m e, F (S754_finite s m e) = if s then SFopp (G m e) else G m e) →
  (∀ m e, canonical m e → nonneg (G m e)) →
  (∀ m1 e1 m2 e2, canonical m1 e1 → canonical m2 e2 →
     SFleb (S754_finite false m1 e1) (S754_finite false m2 e2) = true →
     SFleb (G m1 e1) (G m2 e2) = true) →
  ∀ x y, valid_binary x = true → valid_binary y = true →
    SFleb x y = true → SFleb (F x) (F y) = true.
Proof.
  intros Hz Hi Hf Hnn Hmono x y Hx Hy Hxy.
  assert (Hneg : ∀ g s, nonneg g → SFleb (SFopp g) (S754_zero s) = true).
  { intros g s Hg. by destruct g as [[]|[]| |[]], s. }
  assert (Hlow : ∀ g, nonneg g → SFleb (S754_infinity true) (SFopp g) = true).
  { intros g Hg. by destruct g as [[]|[]| |[]]. }
  assert (Hlow' : ∀ g, nonneg g → SFleb (S754_infinity true) g = true).
  { intros g Hg. by destruct g as [[]|[]| |[]]. }
  assert (Hhigh : ∀ g, nonneg g → SFleb g (S754_infinity false) = true).
  { intros g Hg. by destruct g as [[]|[]| |[]]. }
  assert (Hhigh' : ∀ g, nonneg g → SFleb (SFopp g) (S754_infinity false) = true).
  { intros g Hg. by destruct g as [[]|[]| |[]]. }
  destruct x as [sx|sx| |sx m1 e1], y as [sy|sy| |sy m2 e2];
    try done; rewrite ?Hz, ?Hi, ?Hf;
    try (apply valid_canonical in Hx); try (apply valid_canonical in Hy);
    destruct sx, sy; try done;
    first [ apply zero_le_nonneg; by apply Hnn
          | apply Hneg; by apply Hnn
          | apply Hlow; by apply Hnn
          | apply Hlow'; by apply Hnn
          | apply Hhigh; by apply Hnn
          | apply Hhigh'; by apply Hnn
          | apply nonpos_le_nonneg; by apply Hnn
          | by apply Hmono
          | idtac ].
  rewrite SFleb_opp. apply Hmono; [done..|]. by rewrite <-SFleb_opp.
Qed.


(** *** Products *)

Lemma product_fine mc ec m e :
  canonical mc ec → canonical m e →
  ec + e ≤ (fexp prec emax) (Zdigits2 (Z.pos (mc * m)) + (ec + e)).
Proof.
  intros [Hc _] [Hm _]. rewrite fexp64_eq.
  pose proof (mul_digits (Z.pos mc) (Z.pos m) eq_refl eq_refl) as Hd.
  change (Z.pos mc * Z.pos m) with (Z.pos (mc * m)) in Hd.
  cbn [Zdigits2] in *. lia.
Qed.

Lemma SFmul_mono mc ec x y :
  canonical mc ec →
  valid_binary x = true → valid_binary y = true → SFleb x y = true →
  SFleb (SF64mul (S754_finite false mc ec) x) (SF64mul (S754_finite false mc ec) y)
  = true.
Proof.
  intros Hc.
  apply (symmetric_mono (SF64mul (S754_finite false mc ec))
           (λ m e, binary_round_aux prec emax false (Z.pos (mc * m)) (ec + e)
                     loc_Exact)).
  - by intros [].
  - by intros [].
  - intros [] m e; cbn [SF64mul SFmul xorb]; [|done].
    by apply binary_round_aux_opp.
  - intros m e _. by apply binary_round_aux_nonneg.
  - intros m1 e1 m2 e2 H1 H2 Hle.
    destruct (canonical_bounds _ _ H1) as (He1 & _).
    destruct (canonical_bounds _ _ H2) as (He2 & _).
    destruct Hc as [Hc Hec].
    apply (round_exact_mono _ _ _ _ (ec + -2200)); try lia.
    + by apply product_fine.
    + by apply product_fine.
    + pose proof (units_mono (-2200) _ _ _ _ H1 H2 ltac:(lia) Hle) as Hu.
      unfold units in Hu.
      replace (ec + e1 - (ec + -2200)) with (e1 - -2200) by lia.
      replace (ec + e2 - (ec + -2200)) with (e2 - -2200) by lia.
      change (Z.pos (mc * m1)) with (Z.pos mc * Z.pos m1).
      change (Z.pos (mc * m2)) with (Z.pos mc * Z.pos m2).
      nia.
Qed.


(** *** Quotients *)

Lemma div_eucl_div_mod a b : Z.div_eucl a b = (a / b, a mod b).
Proof. unfold Z.div, Z.modulo. by destruct (Z.div_eucl a b). Qed.

Lemma new_location_even_spec D r :
  Z.even D = true →
  new_location D r
  = if r =? 0 then loc_Exact else loc_Inexact (2 * r ?= D).
Proof. intros HD. unfold new_location, new_location_even. by rewrite HD. Qed.

Lemma shr_1_of_loc m l :
  0 ≤ m →
  shr_1 (shr_record_of_loc m l)
  = {| shr_m := Z.div2 m; shr_r := Z.odd m;
       shr_s := match l with loc_Exact => false | _ => true end |}.
Proof.
  intros Hm. destruct l as [|[]]; cbn [shr_record_of_loc];
    by rewrite shr_1_spec.
Qed.

(** One more bit of the quotient. *)
Lemma div_refine_step D n :
  0 < D → Z.even D = true → 0 ≤ n →
  shr_1 (shr_record_of_loc (2 * n / D) (new_location D ((2 * n) mod D)))
  = shr_record_of_loc (n / D) (new_location D (n mod D)).
Proof.
  intros HD Heven Hn. rewrite !new_location_even_spec by done.
  pose proof (Z.div_mod n D ltac:(lia)) as Hdiv.
  pose proof (Z.mod_pos_bound n D HD) as Hr.
  pose proof (Z.div_pos n D Hn HD) as Hq.
  set (q := n / D) in *. set (r := n mod D) in *.
  destruct (Z.lt_ge_cases (2 * r) D) as [Hlt|Hge].
  - assert (Hq2 : 2 * n / D = 2 * q).
    { symmetry. apply (Z.div_unique_pos _ _ _ (2 * r)); lia. }
    assert (Hr2 : (2 * n) mod D = 2 * r).
    { symmetry. apply (Z.mod_unique_pos _ _ (2 * q)); lia. }
    rewrite Hq2, Hr2, shr_1_of_loc by lia.
    rewrite Z.odd_mul. change (Z.odd 2) with false. cbn [andb].
    rewrite Z.div2_div, (Z.mul_comm 2), Z.div_mul by lia.
    destruct (Z.eqb_spec r 0) as [Hz|Hnz];
      destruct (Z.eqb_spec (2 * r) 0); try lia; [done|].
    destruct (Z.compare_spec (2 * r) D); try lia. done.
  - assert (Hq2 : 2 * n / D = 2 * q + 1).
    { symmetry. apply (Z.div_unique_pos _ _ _ (2 * r - D)); lia. }
    assert (Hr2 : (2 * n) mod D = 2 * r - D).
    { symmetry. apply (Z.mod_unique_pos _ _ (2 * q + 1)); lia. }
    rewrite Hq2, Hr2, shr_1_of_loc by lia.
    rewrite Z.odd_add, Z.odd_mul. change (Z.odd 2) with false.
    change (Z.odd 1) with true. cbn [andb xorb].
    assert (Z.div2 (2 * q + 1) = q) as ->.
    { rewrite Z.div2_div. symmetry. apply (Z.div_unique_pos _ _ _ 1); lia. }
    destruct (Z.eqb_spec r 0) as [Hz|Hnz]; [lia|].
    destruct (Z.compare_spec (2 * r) D); try lia;
      destruct (Z.eqb_spec (2 * r - D) 0); try lia; done.
Qed.

Lemma div_refine D N j :
  0 < D → Z.even D = true → 0 ≤ N → 0 ≤ j →
  shift_right
    (shr_record_of_loc (N * 2 ^ j / D) (new_location D ((N * 2 ^ j) mod D))) j
  = shr_record_of_loc (N / D) (new_location D (N mod D)).
Proof.
  intros HD Heven HN Hj. pattern j. apply natlike_ind; [| |done]; clear j Hj.
  - by rewrite Z.mul_1_r.
  - intros j Hj IH. change (Z.succ j) with (j + 1).
    rewrite shift_right_succ by done.
    replace (N * 2 ^ (j + 1)) with (2 * (N * 2 ^ j))
      by (rewrite Z.pow_add_r, Z.pow_1_r by lia; lia).
    rewrite div_refine_step; [done..|].
    assert (0 < 2 ^ j) by (apply Z.pow_pos_nonneg; lia). nia.
Qed.

Lemma key_div_mono D N1 N2 :
  0 < D → Z.even D = true → 0 ≤ N1 → N1 ≤ N2 →
  key (shr_record_of_loc (N1 / D) (new_location D (N1 mod D)))
  ≤ key (shr_record_of_loc (N2 / D) (new_location D (N2 mod D))).
Proof.
  intros HD Heven H1 H12. rewrite !new_location_even_spec by done.
  pose proof (Z.div_mod N1 D ltac:(lia)).
  pose proof (Z.div_mod N2 D ltac:(lia)).
  pose proof (Z.mod_pos_bound N1 D HD). pose proof (Z.mod_pos_bound N2 D HD).
  pose proof (Z.div_le_mono N1 N2 D HD H12) as Hq.
  set (q1 := N1 / D) in *. set (q2 := N2 / D) in *.
  set (r1 := N1 mod D) in *. set (r2 := N2 mod D) in *.
  assert (Hcases : q1 + 1 ≤ q2 ∨ (q1 = q2 ∧ r1 ≤ r2)) by nia.
  unfold key.
  destruct (Z.eqb_spec r1 0), (Z.eqb_spec r2 0);
    try destruct (Z.compare_spec (2 * r1) D);
    try destruct (Z.compare_spec (2 * r2) D);
    cbn [shr_record_of_loc shr_m shr_r shr_s]; lia.
Qed.


(** The double 100: mantissa and exponent. *)
Definition m100 : positive := 7036874417766400.
Definition e100 : Z := -46.

Lemma Prim2SF_100 : Prim2SF 100 = S754_finite false m100 e100.
Proof. reflexivity. Qed.

(** The quotient of a positive float by 100, before the sign is put on. *)
Definition div100 (m : positive) (e : Z) : spec_float :=
  let '(q, e', l) := SFdiv_core_binary prec emax (Z.pos m) e (Z.pos m100) e100 in
  binary_round_aux prec emax false q e' l.

Lemma div100_spec m e :
  canonical m e →
  let N := Z.pos m * 2 ^ (e + 46 - -2200) in
  div100 m e
  = binary_round_aux prec emax false (N / Z.pos m100) (-2200)
      (new_location (Z.pos m100) (N mod Z.pos m100)).
Proof.
  intros Hc N. unfold div100, SFdiv_core_binary.
  destruct (canonical_bounds _ _ Hc) as (He & Hm & Hnorm).
  destruct Hc as [Hcan He971].
  change (Zdigits2 (Z.pos m100)) with 53. cbn [Zdigits2]. unfold e100.
  set (d := Z.pos (digits2_pos m)) in *.
  set (e' := Z.min ((fexp prec emax) (d + e - (53 + -46))) (e - -46)).
  assert (He' : -1074 ≤ e' ∧ e' ≤ e + 46 ∧ e' ≤ (fexp prec emax) (d + e - 7)).
  { unfold e'. rewrite fexp64_eq.
    replace (d + e - (53 + -46)) with (d + e - 7) by lia. rewrite fexp64_eq. lia. }
  set (sh := e - -46 - e').
  assert (Hsh : 0 ≤ sh) by (unfold sh; lia).
  set (m' := match sh with 0 => Z.pos m | Z.pos _ => Z.shiftl (Z.pos m) sh
             | Z.neg _ => 0 end).
  assert (Hm' : m' = Z.pos m * 2 ^ sh).
  { unfold m'. destruct sh; [lia| |lia]. by rewrite Z.shiftl_mul_pow2. }
  rewrite div_eucl_div_mod.
  assert (Hpow : 0 < 2 ^ sh) by (apply Z.pow_pos_nonneg; lia).
  assert (Hm'0 : 0 ≤ m') by nia.
  (* the quotient is fine enough *)
  assert (Hfine : e' ≤ (fexp prec emax) (Zdigits2 (m' / Z.pos m100) + e')).
  { rewrite fexp64_eq. destruct (decide (e' ≤ -1074)); [lia|].
    rewrite fexp64_eq in He'.
    assert (Hs : 106 - d ≤ sh) by (unfold sh; lia).
    assert (Hd : 1 ≤ d ≤ 53) by (unfold d; lia).
    assert (Hlow : 2 ^ (d - 1) ≤ Z.pos m).
    { apply (Zdigits2_lower (Z.pos m)). done. }
    assert (Hbig : 2 ^ 105 ≤ m').
    { rewrite Hm'. replace 105 with ((d - 1) + (106 - d)) by lia.
      rewrite Z.pow_add_r by lia.
      assert (2 ^ (106 - d) ≤ 2 ^ sh) by (apply Z.pow_le_mono_r; lia).
      assert (0 < 2 ^ (d - 1)) by (apply Z.pow_pos_nonneg; lia).
      assert (0 < 2 ^ (106 - d)) by (apply Z.pow_pos_nonneg; lia).
      nia. }
    pose proof (Z.div_mod m' (Z.pos m100) ltac:(done)) as Hdm.
    pose proof (Z.mod_pos_bound m' (Z.pos m100) eq_refl) as Hr.
    change (2 ^ 105) with 40564819207303340847894502572032 in Hbig.
    unfold m100 in *.
    assert (Hq : 2 ^ 52 ≤ m' / 7036874417766400).
    { change (2 ^ 52) with 4503599627370496. lia. }
    assert (¬ Zdigits2 (m' / 7036874417766400) ≤ 52); [|lia].
    intros Hle. apply Zdigits2_bound in Hle; lia. }
  pose proof (round_refine false
    (shr_record_of_loc (N / Z.pos m100) (new_location (Z.pos m100) (N mod Z.pos m100)))
    (-2200) (e' - -2200)) as Href.
  assert (HN : N = m' * 2 ^ (e' - -2200)).
  { unfold N. rewrite Hm'. unfold sh. rewrite <-Z.mul_assoc, <-Z.pow_add_r by lia.
    f_equal. f_equal. lia. }
  rewrite HN in Href.
  rewrite div_refine in Href by (done || lia).
  rewrite !record_m, !loc_of_record in Href.
  replace (-2200 + (e' - -2200)) with e' in Href by lia.
  rewrite HN. symmetry. apply Href; [|lia|done].
  apply Z.div_pos; [|done].
  assert (0 < 2 ^ (e' - -2200)) by (apply Z.pow_pos_nonneg; lia). nia.
Qed.

Lemma SFdiv_mono x y :
  valid_binary x = true → valid_binary y = true → SFleb x y = true →
  SFleb (SF64div x (Prim2SF 100)) (SF64div y (Prim2SF 100)) = true.
Proof.
  rewrite Prim2SF_100.
  apply (symmetric_mono (λ x, SF64div x (S754_finite false m100 e100)) div100).
  - by intros [].
  - by intros [].
  - intros s m e. unfold div100. cbn [SF64div SFdiv].
    rewrite xorb_false_r.
    unfold SFdiv_core_binary. rewrite div_eucl_div_mod.
    destruct s; [|done]. apply binary_round_aux_opp.
    apply Z.div_pos; [|done].
    destruct (e - e100 - _); [done| |done].
    rewrite Z.shiftl_mul_pow2 by done.
    assert (0 < 2 ^ Z.pos p) by (by apply Z.pow_pos_nonneg). nia.
  - intros m e _. unfold div100, SFdiv_core_binary. rewrite div_eucl_div_mod.
    apply binary_round_aux_nonneg. apply Z.div_pos; [|done].
    destruct (e - e100 - _); [done| |done].
    rewrite Z.shiftl_mul_pow2 by done.
    assert (0 < 2 ^ Z.pos p) by (by apply Z.pow_pos_nonneg). nia.
  - intros m1 e1 m2 e2 H1 H2 Hle.
    rewrite !div100_spec by done. cbn zeta.
    destruct (canonical_bounds _ _ H1) as (He1 & _).
    destruct (canonical_bounds _ _ H2) as (He2 & _).
    pose proof (units_mono (-2246) _ _ _ _ H1 H2 ltac:(lia) Hle) as Hu.
    unfold units in Hu.
    replace (e1 + 46 - -2200) with (e1 - -2246) by lia.
    replace (e2 + 46 - -2200) with (e2 - -2246) by lia.
    assert (0 < 2 ^ (e1 - -2246)) by (apply Z.pow_pos_nonneg; lia).
    set (N1 := Z.pos m1 * 2 ^ (e1 - -2246)) in *.
    set (N2 := Z.pos m2 * 2 ^ (e2 - -2246)) in *.
    pose proof (round_mono
      (shr_record_of_loc (N1 / Z.pos m100) (new_location (Z.pos m100) (N1 mod Z.pos m100)))
      (shr_record_of_loc (N2 / Z.pos m100) (new_location (Z.pos m100) (N2 mod Z.pos m100)))
      (-2200)) as Hmono.
    rewrite !record_m, !loc_of_record in Hmono. apply Hmono.
    + apply Z.div_pos; [|done]. unfold N1. nia.
    + apply Z.div_pos; [|done]. unfold N1 in *. lia.
    + apply key_div_mono; [done|done| |done]. unfold N1. nia.
    + lia.
Qed.


(** *** Differences *)

Lemma mul_pow2_digits m j : 0 < m → 0 ≤ j → Zdigits2 (m * 2 ^ j) = Zdigits2 m + j.
Proof.
  intros Hm Hj. assert (0 < 2 ^ j) by (apply Z.pow_pos_nonneg; lia).
  rewrite !Zdigits2_log2 by nia. rewrite Z.log2_mul_pow2 by lia. lia.
Qed.

Lemma iter_xO m d : Z.pos (Pos.iter xO m d) = Z.pos m * 2 ^ Z.pos d.
Proof.
  induction d as [|d IH] using Pos.peano_ind.
  - cbn [Pos.iter]. lia.
  - rewrite Pos.iter_succ, Pos2Z.inj_succ, Z.pow_succ_r by lia.
    rewrite Pos2Z.inj_xO, IH. lia.
Qed.

Lemma shl_align_units m e ez :
  ez ≤ e →
  Z.pos (shl_align m e ez).1 = Z.pos m * 2 ^ (e - ez) ∧
  (shl_align m e ez).2 = ez.
Proof.
  intros He. unfold shl_align.
  destruct (ez - e) as [|d|d] eqn:Hd; cbn [fst snd].
  - replace (e - ez) with 0 by lia. lia.
  - lia.
  - rewrite iter_xO. replace (e - ez) with (Z.pos d) by lia. done.
Qed.

(** [binary_round] of an exact value, in units of 2^e0. *)
Lemma binary_round_value s p e e0 :
  e0 ≤ e → e0 ≤ -1074 →
  binary_round prec emax s p e
  = binary_round_aux prec emax s (Z.pos p * 2 ^ (e - e0)) e0 loc_Exact.
Proof.
  intros He He0. unfold binary_round.
  set (F := fexp prec emax (Z.pos (digits2_pos p) + e)).
  assert (HF : -1074 ≤ F) by (unfold F; rewrite fexp64_eq; lia).
  destruct (Z.le_gt_cases e F) as [Hle|Hgt].
  - assert (shl_align p e F = (p, e)) as ->.
    { unfold shl_align. by destruct (F - e) eqn:?; try lia. }
    apply round_exact_value; [done|done|]. cbn [Zdigits2]. by fold F.
  - destruct (shl_align_units p e F ltac:(lia)) as [Hm He'].
    destruct (shl_align p e F) as [mz ez]. cbn [fst snd] in *. subst ez.
    rewrite (round_exact_value s (Z.pos mz) F e0); [|done|lia|].
    + f_equal. rewrite Hm, <-Z.mul_assoc, <-Z.pow_add_r by lia. f_equal. f_equal. lia.
    + rewrite Hm, mul_pow2_digits by lia. cbn [Zdigits2].
      replace (Z.pos (digits2_pos p) + (e - F) + F)
        with (Z.pos (digits2_pos p) + e) by lia.
      fold F. lia.
Qed.

Lemma binary_round_canonical s m e :
  canonical m e → binary_round prec emax s m e = S754_finite s m e.
Proof.
  intros Hc. destruct (canonical_bounds _ _ Hc) as (He & Hm & _).
  destruct Hc as [Hcan He971]. unfold binary_round.
  assert (fexp prec emax (Z.pos (digits2_pos m) + e) = e) as ->
    by (rewrite fexp64_eq; lia).
  unfold shl_align. rewrite Z.sub_diag.
  rewrite binary_round_aux_spec by done. cbn [Zdigits2].
  assert ((fexp prec emax) (Z.pos (digits2_pos m) + e) = e) as ->
    by (rewrite fexp64_eq; lia).
  rewrite Z.sub_diag, Z.max_id. cbn [shift_right shr_record_of_loc].
  unfold rnd. cbn [shr_m loc_of_shr_record round_nearest_even]. unfold finish.
  destruct (Z.eqb_spec (Z.pos m) (2 ^ 53)) as [Heq|_]; [lia|].
  by destruct (Z.leb_spec e 971); [|lia].
Qed.

(** [binary_normalize] of a difference, in units of 2^-2200. *)
Lemma binary_normalize_units D ez :
  -1074 ≤ ez →
  binary_normalize prec emax D ez false
  = binary_normalize prec emax (D * 2 ^ (ez - -2200)) (-2200) false.
Proof.
  intros Hez. assert (Hpow : 0 < 2 ^ (ez - -2200)) by (apply Z.pow_pos_nonneg; lia).
  destruct D as [|p|p].
  - done.
  - destruct (Z.pos p * 2 ^ (ez - -2200)) as [|p'|p'] eqn:Hp; try lia.
    cbn [binary_normalize].
    rewrite (binary_round_value _ p ez (-2200)),
            (binary_round_value _ p' (-2200) (-2200)) by lia.
    rewrite Hp, Z.sub_diag, Z.mul_1_r. done.
  - destruct (Z.neg p * 2 ^ (ez - -2200)) as [|p'|p'] eqn:Hp; try lia.
    cbn [binary_normalize].
    rewrite (binary_round_value _ p ez (-2200)),
            (binary_round_value _ p' (-2200) (-2200)) by lia.
    rewrite Z.sub_diag, Z.mul_1_r. f_equal. lia.
Qed.

Lemma binary_normalize_mono D1 D2 :
  D1 ≤ D2 →
  SFleb (binary_normalize prec emax D1 (-2200) false)
        (binary_normalize prec emax D2 (-2200) false) = true.
Proof.
  intros Hle.
  assert (Hval : ∀ s p, binary_round prec emax s p (-2200)
                        = binary_round_aux prec emax s (Z.pos p) (-2200) loc_Exact).
  { intros s p. rewrite (binary_round_value s p (-2200) (-2200)) by lia.
    by rewrite Z.sub_diag, Z.mul_1_r. }
  assert (Hpos : ∀ p q, Z.pos p ≤ Z.pos q →
            SFleb (binary_round_aux prec emax false (Z.pos p) (-2200) loc_Exact)
                  (binary_round_aux prec emax false (Z.pos q) (-2200) loc_Exact)
            = true).
  { intros p q Hpq.
    apply (round_mono (shr_record_of_loc (Z.pos p) loc_Exact)
             (shr_record_of_loc (Z.pos q) loc_Exact)); unfold key; cbn; lia. }
  destruct D1 as [|p1|p1], D2 as [|p2|p2]; try lia; cbn [binary_normalize];
    rewrite ?Hval.
  - done.
  - apply zero_le_nonneg. by apply binary_round_aux_nonneg.
  - by apply Hpos.
  - rewrite binary_round_aux_opp by done.
    apply nonpos_le_nonneg; [by apply binary_round_aux_nonneg|done].
  - rewrite binary_round_aux_opp by done.
    apply nonpos_le_nonneg; by apply binary_round_aux_nonneg.
  - rewrite !binary_round_aux_opp by done. rewrite SFleb_opp.
    apply Hpos. lia.
Qed.


(** The value of a zero or finite float, in units of 2^-2200. *)
Definition signed_units (y : spec_float) : Z :=
  match y with
  | S754_finite s m e => cond_Zopp s (units (-2200) m e)
  | _ => 0
  end.

Definition zero_or_finite (y : spec_float) : Prop :=
  match y with S754_zero _ | S754_finite _ _ _ => True | _ => False end.

Lemma signed_units_mono y1 y2 :
  valid_binary y1 = true → valid_binary y2 = true →
  zero_or_finite y1 → zero_or_finite y2 →
  SFleb y1 y2 = true → signed_units y1 ≤ signed_units y2.
Proof.
  intros H1 H2 Hz1 Hz2 Hle.
  destruct y1 as [s1| | |s1 m1 e1], y2 as [s2| | |s2 m2 e2]; try done;
    cbn [signed_units].
  - apply valid_canonical in H2.
    pose proof (units_pos (-2200) m2 e2) as Hp.
    destruct (canonical_bounds _ _ H2) as (He & _).
    destruct s2; [done|]. cbn [cond_Zopp]. lia.
  - apply valid_canonical in H1.
    pose proof (units_pos (-2200) m1 e1) as Hp.
    destruct (canonical_bounds _ _ H1) as (He & _).
    destruct s1; [|done]. cbn [cond_Zopp]. lia.
  - apply valid_canonical in H1, H2.
    pose proof (units_pos (-2200) m1 e1) as Hp1.
    pose proof (units_pos (-2200) m2 e2) as Hp2.
    destruct (canonical_bounds _ _ H1) as (He1 & _).
    destruct (canonical_bounds _ _ H2) as (He2 & _).
    destruct s1, s2; cbn [cond_Zopp].
    + change (SFleb (SFopp (S754_finite false m1 e1))
                (SFopp (S754_finite false m2 e2)) = true) in Hle.
      rewrite SFleb_opp in Hle.
      pose proof (units_mono (-2200) _ _ _ _ H2 H1 ltac:(lia) Hle). lia.
    + lia.
    + done.
    + by apply units_mono.
Qed.

Lemma SFsub_units mc ec y :
  canonical mc ec → valid_binary y = true → zero_or_finite y →
  SF64sub (S754_finite false mc ec) y
  = binary_normalize prec emax (units (-2200) mc ec - signed_units y) (-2200) false.
Proof.
  intros Hc Hy Hz. destruct (canonical_bounds _ _ Hc) as (Hec & _).
  destruct y as [sy| | |sy my ey]; try done.
  - cbn [SF64sub SFsub signed_units]. rewrite Z.sub_0_r. unfold units.
    rewrite <-(binary_normalize_units (Z.pos mc) ec) by done.
    cbn [binary_normalize]. by rewrite binary_round_canonical.
  - apply valid_canonical in Hy.
    destruct (canonical_bounds _ _ Hy) as (Hey & _).
    unfold SF64sub. cbn [SFsub signed_units].
    set (ez := Z.min ec ey).
    destruct (shl_align_units mc ec ez ltac:(lia)) as [-> _].
    destruct (shl_align_units my ey ez ltac:(lia)) as [-> _].
    rewrite binary_normalize_units by lia. f_equal.
    unfold units. cbn [cond_Zopp].
    replace (ec - -2200) with ((ec - ez) + (ez - -2200)) by lia.
    replace (ey - -2200) with ((ey - ez) + (ez - -2200)) by lia.
    rewrite !Z.pow_add_r by lia. destruct sy; cbn [cond_Zopp]; lia.
Qed.

(** Subtraction from a positive finite float is antitone. *)
Lemma SFsub_anti mc ec y1 y2 :
  canonical mc ec →
  valid_binary y1 = true → valid_binary y2 = true → SFleb y1 y2 = true →
  SFleb (SF64sub (S754_finite false mc ec) y2)
        (SF64sub (S754_finite false mc ec) y1) = true.
Proof.
  intros Hc H1 H2 Hle.
  assert (Hlow : ∀ z, z ≠ S754_nan → SFleb (S754_infinity true) z = true).
  { by intros [[]|[]| |[]]. }
  assert (Hhigh : ∀ z, z ≠ S754_nan → SFleb z (S754_infinity false) = true).
  { by intros [[]|[]| |[]]. }
  assert (Hnum : ∀ y, zero_or_finite y →
            SF64sub (S754_finite false mc ec) y ≠ S754_nan).
  { intros [s| | |s m e] Hz; try done. unfold SF64sub. cbn [SFsub].
    apply binary_normalize_number. }
  assert (Hdec : ∀ y, zero_or_finite y ∨ ¬ zero_or_finite y).
  { intros []; cbn; tauto. }
  destruct (Hdec y1) as [Hz1|Hz1], (Hdec y2) as [Hz2|Hz2].
  - rewrite !SFsub_units by done. apply binary_normalize_mono.
    pose proof (signed_units_mono _ _ H1 H2 Hz1 Hz2 Hle). lia.
  - destruct y2 as [s2|[]| |s2 m2 e2]; try (exfalso; apply Hz2; exact I).
    + by destruct y1 as [[]|[]| |[]].
    + apply Hlow. by apply Hnum.
    + by destruct y1 as [[]|[]| |[]].
  - destruct y1 as [s1|[]| |s1 m1 e1]; try (exfalso; apply Hz1; exact I).
    + apply Hhigh. by apply Hnum.
    + by destruct y2 as [[]|[]| |[]].
    + by destruct y2 as [[]|[]| |[]].
  - destruct y1 as [s1|[]| |s1 m1 e1]; try (exfalso; apply Hz1; exact I);
      destruct y2 as [s2|[]| |s2 m2 e2]; try (exfalso; apply Hz2; exact I);
      done.
Qed.


(** Equal numbers have the difference zero. *)
Lemma SFsub_eq a b :
  zero_or_finite b → SFeqb a b = true →
  SFeqb (SF64sub b a) (S754_zero false) = true.
Proof.
  intros Hb Heq.
  destruct b as [sb| | |sb mb eb]; try done;
    destruct a as [sa|sa| |sa ma ea]; try done;
    try (by destruct sa); try (by destruct sb); try (by destruct sa, sb).
  unfold SFeqb in Heq. cbn [SFcompare] in Heq.
  assert (sa = sb ∧ ea = eb ∧ ma = mb) as (-> & -> & ->).
  { destruct sa, sb; try done;
      destruct (Z.compare_spec ea eb) as [->| |]; try done;
      change (Pos.compare_cont Eq ma mb) with (Pos.compare ma mb) in Heq;
      destruct (Pos.compare_spec ma mb) as [->| |]; done. }
  unfold SF64sub. cbn [SFsub]. by rewrite Z.sub_diag.
Qed.


Lemma units_inj m1 e1 m2 e2 :
  canonical m1 e1 → canonical m2 e2 →
  units (-2200) m1 e1 = units (-2200) m2 e2 → m1 = m2 ∧ e1 = e2.
Proof.
  intros H1 H2 Hu.
  destruct (canonical_bounds _ _ H1) as (He1 & _).
  destruct (canonical_bounds _ _ H2) as (He2 & _).
  destruct H1 as [H1 _], H2 as [H2 _]. unfold units in Hu.
  assert (Hlog : Z.log2 (Z.pos m1) + e1 = Z.log2 (Z.pos m2) + e2).
  { apply (f_equal Z.log2) in Hu. rewrite !Z.log2_mul_pow2 in Hu by lia. lia. }
  pose proof (Zdigits2_log2 (Z.pos m1) ltac:(lia)) as Hd1.
  pose proof (Zdigits2_log2 (Z.pos m2) ltac:(lia)) as Hd2.
  cbn [Zdigits2] in Hd1, Hd2.
  assert (e1 = e2) as -> by lia. split; [|done].
  assert (0 < 2 ^ (e2 - -2200)) by (apply Z.pow_pos_nonneg; lia).
  apply Z.mul_reg_r in Hu; lia.
Qed.

(** A difference that compares equal to zero is a difference of equal
    numbers: no difference of two doubles is rounded to zero. *)
Lemma SFsub_zero_inv mc ec a :
  canonical mc ec → valid_binary a = true →
  SFeqb (SF64sub (S754_finite false mc ec) a) (S754_zero false) = true →
  SFeqb a (S754_finite false mc ec) = true.
Proof.
  intros Hc Ha Heq. destruct (canonical_bounds _ _ Hc) as (Hec & _).
  destruct a as [sa|sa| |sa ma ea]; try done; [by destruct sa|].
  rewrite SFsub_units in Heq by done. cbn [signed_units] in Heq.
  pose proof (valid_canonical _ _ _ Ha) as Hca.
  destruct (canonical_bounds _ _ Hca) as (Hea & _).
  set (D := units (-2200) mc ec - cond_Zopp sa (units (-2200) ma ea)) in *.
  assert (Hmult : ∃ k, D = k * 2 ^ 1126).
  { exists (Z.pos mc * 2 ^ (ec - -1074) - cond_Zopp sa (Z.pos ma * 2 ^ (ea - -1074))).
    unfold D, units.
    replace (ec - -2200) with ((ec - -1074) + 1126) by lia.
    replace (ea - -2200) with ((ea - -1074) + 1126) by lia.
    rewrite !Z.pow_add_r by lia. destruct sa; cbn [cond_Zopp]; lia. }
  destruct Hmult as [k Hk].
  assert (Hone : binary_normalize prec emax (2 ^ 1126) (-2200) false
                 = S754_finite false 1 (-1074)) by (vm_compute; reflexivity).
  assert (Hmone : binary_normalize prec emax (- 2 ^ 1126) (-2200) false
                 = S754_finite true 1 (-1074)) by (vm_compute; reflexivity).
  assert (Hpow : 0 < 2 ^ 1126) by (by apply Z.pow_pos_nonneg).
  destruct (Z.lt_trichotomy k 0) as [Hlt|[->|Hgt]].
  - pose proof (binary_normalize_mono D (- 2 ^ 1126) ltac:(nia)) as Hle.
    rewrite Hmone in Hle.
    clearbody D.
    destruct (binary_normalize prec emax D (-2200) false) as [[]|[]| |[]];
      first [discriminate Heq | discriminate Hle].
  - assert (HD : D = 0) by lia. unfold D in HD.
    pose proof (units_pos (-2200) mc ec ltac:(lia)).
    pose proof (units_pos (-2200) ma ea ltac:(lia)).
    destruct sa; cbn [cond_Zopp] in HD; [lia|].
    destruct (units_inj mc ec ma ea Hc Hca ltac:(lia)) as [-> ->].
    unfold SFeqb. by rewrite SFcompare_refl.
  - pose proof (binary_normalize_mono (2 ^ 1126) D ltac:(nia)) as Hle.
    rewrite Hone in Hle.
    clearbody D.
    destruct (binary_normalize prec emax D (-2200) false) as [[]|[]| |[]];
      first [discriminate Heq | discriminate Hle].
Qed.

End rounding.

End Double.

(** ** Tooltip lifecycle: js/slide-consistency.js *)

Module Tooltip.

Import Double.

(** The result of [getBoundingClientRect()], with the fields the code reads.
    They are JavaScript numbers: doubles. *)
Record rect := {
  r_left : float;
  r_right : float;
  r_top : float;
  r_width : float;
  r_height : float }.

(** What the browser answers while [positionInfoBoxGlobal] runs: the size of
    the window, the measured size of the info box, the rectangle of the
    funnel level. *)
Record layout := {
  innerWidth : float;
  innerHeight : float;
  offsetWidth : float;
  offsetHeight : float;
  targetRect : rect }.

(** The browser answers with finite numbers. *)
Definition finite_layout (env : layout) : bool :=
  is_finite (innerWidth env) && is_finite (innerHeight env) &&
  is_finite (offsetWidth env) && is_finite (offsetHeight env) &&
  is_finite (r_left (targetRect env)) && is_finite (r_right (targetRect env)) &&
  is_finite (r_top (targetRect env)) && is_finite (r_width (targetRect env)) &&
  is_finite (r_height (targetRect env)).

(** An element that the tooltip code touches: its id, its class list, and the
    inline style properties that the code writes.  [left] and [top] hold the
    number [n] of the last assignment of [n + 'px'] to [style.left] and to
    [style.top]. *)
Record box := {
  box_id : option string;
  classList : list string;
  display : string;
  visibility : string;
  opacity : string;
  position : string;
  left : option float;
  top : option float;
  has_close : bool }.

Definition set_classList (l : list string) (b : box) : box :=
  {| box_id := box_id b; classList := l; display := display b;
     visibility := visibility b; opacity := opacity b;
     position := position b; left := left b; top := top b;
     has_close := has_close b |}.

Definition set_display (d : string) (b : box) : box :=
  {| box_id := box_id b; classList := classList b; display := d;
     visibility := visibility b; opacity := opacity b;
     position := position b; left := left b; top := top b;
     has_close := has_close b |}.

Definition set_visibility (v : string) (b : box) : box :=
  {| box_id := box_id b; classList := classList b; display := display b;
     visibility := v; opacity := opacity b;
     position := position b; left := left b; top := top b;
     has_close := has_close b |}.

Definition set_opacity (o : string) (b : box) : box :=
  {| box_id := box_id b; classList := classList b; display := display b;
     visibility := visibility b; opacity := o;
     position := position b; left := left b; top := top b;
     has_close := has_close b |}.

Definition set_position (p : string) (x y : float) (b : box) : box :=
  {| box_id := box_id b; classList := classList b; display := display b;
     visibility := visibility b; opacity := opacity b;
     position := p; left := Some x; top := Some y;
     has_close := has_close b |}.

(** [n || d] on numbers: [d] replaces a measurement that is falsy, that is
    0, -0 or [NaN]. *)
Definition or_default (n d : float) : float :=
  if is_zero n || is_nan n then d else n.

Definition infoBoxWidth (env : layout) : float :=
  or_default (offsetWidth env) 240.
Definition infoBoxHeight (env : layout) : float :=
  or_default (offsetHeight env) 180.

(** [windowWidth >= 1280] *)
Definition shouldPositionOnRight (env : layout) : bool :=
  (1280 <=? innerWidth env)%float.

(** The horizontal midpoint of the target, as the code computes it. *)
Definition midpoint (env : layout) : float :=
  (r_left (targetRect env) + r_width (targetRect env) / 2)%float.

(** [(targetRect.left + targetRect.width/2) > windowWidth/2] *)
Definition isInRightHalf (env : layout) : bool :=
  (innerWidth env / 2 <? midpoint env)%float.

(** [leftPos], with the positioning class that goes with it. *)
Definition leftPos (env : layout) : string * float :=
  let windowWidth := innerWidth env in
  if shouldPositionOnRight env then
    ("right-side"%string,
     Math_min (windowWidth - infoBoxWidth env - 10)
       (r_right (targetRect env) + 10))%float
  else if isInRightHalf env then
    ("left-side"%string,
     Math_max 10 (r_left (targetRect env) - infoBoxWidth env - 10))%float
  else
    ("right-side"%string,
     Math_min (windowWidth - infoBoxWidth env - 10)
       (r_right (targetRect env) + 10))%float.

(** [topPos]: the top that centres the box on the target. *)
Definition topPos (env : layout) : float :=
  let centerY := (r_top (targetRect env) + r_height (targetRect env) / 2)%float in
  (centerY - infoBoxHeight env / 2)%float.

Definition finalTop (env : layout) : float :=
  Math_max 10 (Math_min (innerHeight env - infoBoxHeight env - 10) (topPos env))%float.

(** [positionInfoBoxGlobal(infoBox, targetElement)].  Both arguments are
    elements at the only call site, so the guard on null does not fire. *)
Definition positionInfoBoxGlobal (infoBox : box) (env : layout) : box :=
  let originalVisibility := visibility infoBox in
  let originalOpacity := opacity infoBox in
  let b := set_opacity "0" (set_visibility "hidden" infoBox) in
  (* offsetWidth and offsetHeight are read here: [env] *)
  let b := set_opacity originalOpacity (set_visibility originalVisibility b) in
  let b := set_classList
             (ClassList.remove "right-side"
                (ClassList.remove "left-side" (classList b))) b in
  let '(side, x) := leftPos env in
  let b := set_classList (ClassList.add side (classList b)) b in
  set_position "fixed" x (finalTop env) b.

(** *** From a funnel level to its info box *)

(** A JavaScript number as far as the handlers need it: an integer or [NaN].
    The integer is exact up to 2^53 in absolute value, where doubles start to
    round. *)
Inductive number := NaN | Int (z : Z).

(** White space as [parseInt] trims it.  Strings are byte strings in UTF-8:
    the ASCII characters tab to carriage return and space take one byte,
    U+00A0 two bytes, and U+1680, U+2000 to U+200A, U+2028, U+2029, U+202F,
    U+205F, U+3000 and U+FEFF three bytes. *)
Definition is_space (c : ascii) : bool :=
  let n := nat_of_ascii c in
  ((9 <=? n)%nat && (n <=? 13)%nat) || (n =? 32)%nat.

Definition is_space2 (c1 c2 : ascii) : bool :=
  (nat_of_ascii c1 =? 194)%nat && (nat_of_ascii c2 =? 160)%nat.

Definition is_space3 (c1 c2 c3 : ascii) : bool :=
  let n1 := nat_of_ascii c1 in
  let n2 := nat_of_ascii c2 in
  let n3 := nat_of_ascii c3 in
  ((n1 =? 225) && (n2 =? 154) && (n3 =? 128))%nat ||
  ((n1 =? 226) && (n2 =? 128) &&
     (((128 <=? n3) && (n3 <=? 138)) || (n3 =? 168) || (n3 =? 169) || (n3 =? 175)))%nat ||
  ((n1 =? 226) && (n2 =? 129) && (n3 =? 159))%nat ||
  ((n1 =? 227) && (n2 =? 128) && (n3 =? 128))%nat ||
  ((n1 =? 239) && (n2 =? 187) && (n3 =? 191))%nat.

Fixpoint skip_space (s : string) : string :=
  match s with
  | String c1 s1 =>
      if is_space c1 then skip_space s1
      else
        match s1 with
        | String c2 s2 =>
            if is_space2 c1 c2 then skip_space s2
            else
              match s2 with
              | String c3 s3 => if is_space3 c1 c2 c3 then skip_space s3 else s
              | EmptyString => s
              end
        | EmptyString => s
        end
  | EmptyString => s
  end.

Definition digit_value (c : ascii) : option Z :=
  let n := nat_of_ascii c in
  if (48 <=? n)%nat && (n <=? 57)%nat then Some (Z.of_nat n - 48)%Z else None.

Definition hex_value (c : ascii) : option Z :=
  let n := nat_of_ascii c in
  if (48 <=? n)%nat && (n <=? 57)%nat then Some (Z.of_nat n - 48)%Z
  else if (97 <=? n)%nat && (n <=? 102)%nat then Some (Z.of_nat n - 87)%Z
  else if (65 <=? n)%nat && (n <=? 70)%nat then Some (Z.of_nat n - 55)%Z
  else None.

(** The longest prefix of digits, read in [radix]; [acc] is [None] until a
    digit has been read. *)
Fixpoint read_digits (radix : Z) (value : ascii → option Z) (s : string)
    (acc : option Z) : option Z :=
  match s with
  | String c s' =>
      match value c with
      | Some d => read_digits radix value s' (Some (radix * default 0 acc + d)%Z)
      | None => acc
      end
  | EmptyString => acc
  end.

(** The digits after the sign: hexadecimal after [0x], decimal otherwise. *)
Definition read_unsigned (s : string) : option Z :=
  match s with
  | String "0" (String "x" s') | String "0" (String "X" s') =>
      read_digits 16 hex_value s' None
  | _ => read_digits 10 digit_value s None
  end.

(** [parseInt(s)] without a radix: leading white space, an optional sign, an
    optional [0x], then digits; what follows the digits is ignored, and no
    digit at all gives [NaN]. *)
Definition parseInt (s : string) : number :=
  let s := skip_space s in
  let '(negative, s) :=
    match s with
    | String "-" s' => (true, s')
    | String "+" s' => (false, s')
    | _ => (false, s)
    end in
  match read_unsigned s with
  | Some n => Int (if negative : bool then - n else n)
  | None => NaN
  end.

Definition minus (n : number) (k : Z) : number :=
  match n with
  | Int z => Int (z - k)
  | NaN => NaN
  end.

(** A number inside a template literal. *)
Definition number_to_string (n : number) : string :=
  match n with
  | Int z => pretty z
  | NaN => "NaN"
  end.

(** [s.split(sep)] for a separator of one character. *)
Fixpoint split_from (sep : ascii) (current : string) (s : string) : list string :=
  match s with
  | String c s' =>
      if Ascii.eqb c sep then current :: split_from sep "" s'
      else split_from sep (current +:+ String c "") s'
  | EmptyString => [current]
  end.

Definition split (sep : ascii) (s : string) : list string := split_from sep "" s.

(** [a.pop()] read as a value; [split] never returns an empty array. *)
Definition pop (a : list string) : string := default "" (last a).

(** [Array.from(this.classList).find(cls => cls.startsWith('funnel-level-'))] *)
Definition levelClass (classes : list string) : option string :=
  List.find (String.prefix "funnel-level-") classes.

(** The id of the info box that goes with a level class. *)
Definition infoBoxId (levelClass : string) : string :=
  let levelNum := parseInt (pop (split "-" levelClass)) in
  "info-box-" +:+ number_to_string (minus levelNum 1).

(** *** The page, its timers, its events *)

(** What a pending [setTimeout] will run: the 200 ms callback of a level's
    [mouseleave], or one of the 300 ms callbacks that hide a box. *)
Inductive callback :=
  | LevelGrace (i : nat)
  | HideIfIdle (i : nat).

Record timer := {
  armed : nat;
  delay : nat;
  job : callback }.

(** The elements of the page in document order (an element is named by its
    position), the pending timers, and the clock in milliseconds. *)
Record page := {
  boxes : list box;
  timers : list timer;
  now : nat }.

Definition set_boxes (bs : list box) (pg : page) : page :=
  {| boxes := bs; timers := timers pg; now := now pg |}.

Definition setTimeout (cb : callback) (ms : nat) (pg : page) : page :=
  {| boxes := boxes pg;
     timers := timers pg ++ [{| armed := now pg; delay := ms; job := cb |}];
     now := now pg |}.

(** An in-place change of element [i]. *)
Definition update (i : nat) (f : box → box) (pg : page) : page :=
  set_boxes (alter f i (boxes pg)) pg.

Definition has_id (id : string) (b : box) : Prop := box_id b = Some id.

#[local] Instance has_id_dec id b : Decision (has_id id b).
Proof. unfold has_id. apply _. Defined.

(** [document.getElementById(id)]: the first element with that id. *)
Definition getElementById (id : string) (pg : page) : option nat :=
  fst <$> list_find (has_id id) (boxes pg).

Definition add_class (c : string) (b : box) : box :=
  set_classList (ClassList.add c (classList b)) b.

Definition remove_class (c : string) (b : box) : box :=
  set_classList (ClassList.remove c (classList b)) b.

Definition has_class (c : string) (b : box) : bool :=
  ClassList.contains c (classList b).

(** The test of all three hide callbacks. *)
Definition idle (b : box) : bool :=
  negb (has_class "hover-visible" b) && negb (has_class "active" b).

Definition hide_if_idle (b : box) : box :=
  if idle b then set_display "none" b else b.

(** [mouseenter] on a funnel level with class list [classes]. *)
Definition level_mouseenter (classes : list string) (env : layout)
    (pg : page) : page :=
  match levelClass classes with
  | None => pg
  | Some cls =>
      match getElementById (infoBoxId cls) pg with
      | Some i =>
          update i (λ infoBox,
            positionInfoBoxGlobal
              (add_class "hover-visible" (set_display "block" infoBox)) env) pg
      | None => pg
      end
  end.

(** [mouseleave] on a funnel level. *)
Definition level_mouseleave (classes : list string) (pg : page) : page :=
  match levelClass classes with
  | None => pg
  | Some cls =>
      match getElementById (infoBoxId cls) pg with
      | Some i => setTimeout (LevelGrace i) 200 pg
      | None => pg
      end
  end.

(** [mouseenter] and [mouseleave] on an info box, and a click on its close
    button. *)
Definition box_mouseenter (i : nat) (pg : page) : page :=
  update i (add_class "hover-visible") pg.

Definition box_mouseleave (i : nat) (pg : page) : page :=
  setTimeout (HideIfIdle i) 300 (update i (remove_class "hover-visible") pg).

Definition close_click (i : nat) (pg : page) : page :=
  setTimeout (HideIfIdle i) 300
    (update i (λ b, remove_class "active" (remove_class "hover-visible" b)) pg).

(** A timer callback.  [hovered] is the answer of [infoBox.matches(':hover')]
    when the 200 ms callback runs. *)
Definition run_callback (cb : callback) (hovered : bool) (pg : page) : page :=
  match cb with
  | LevelGrace i =>
      if negb hovered then
        setTimeout (HideIfIdle i) 300 (update i (remove_class "hover-visible") pg)
      else pg
  | HideIfIdle i => update i hide_if_idle pg
  end.

(** What can happen to the page.  Listeners exist on the elements that
    [setupGlobalHoverHandlers] found: levels of class [funnel-level], boxes of
    class [info-box], close buttons inside such boxes.  [FragmentShown] and
    [FragmentHidden] are the Reveal listeners that add and remove [active].
    [Fire k] runs the pending timer at position [k], once its delay has
    passed. *)
Inductive event :=
  | LevelMouseEnter (classes : list string) (env : layout)
  | LevelMouseLeave (classes : list string)
  | BoxMouseEnter (i : nat)
  | BoxMouseLeave (i : nat)
  | CloseClick (i : nat)
  | FragmentShown (i : nat)
  | FragmentHidden (i : nat)
  | Elapse (ms : nat)
  | Fire (k : nat) (hovered : bool).

Definition listens (i : nat) (pg : page) : bool :=
  match boxes pg !! i with
  | Some b => has_class "info-box" b
  | None => false
  end.

Definition closable (i : nat) (pg : page) : bool :=
  match boxes pg !! i with
  | Some b => has_class "info-box" b && has_close b
  | None => false
  end.

(** One event; [None] when a timer is asked to fire that is not pending or
    not yet due. *)
Definition step (e : event) (pg : page) : option page :=
  match e with
  | LevelMouseEnter classes env =>
      Some (if ClassList.contains "funnel-level" classes
            then level_mouseenter classes env pg else pg)
  | LevelMouseLeave classes =>
      Some (if ClassList.contains "funnel-level" classes
            then level_mouseleave classes pg else pg)
  | BoxMouseEnter i => Some (if listens i pg then box_mouseenter i pg else pg)
  | BoxMouseLeave i => Some (if listens i pg then box_mouseleave i pg else pg)
  | CloseClick i => Some (if closable i pg then close_click i pg else pg)
  | FragmentShown i => Some (update i (add_class "active") pg)
  | FragmentHidden i => Some (update i (remove_class "active") pg)
  | Elapse ms =>
      Some {| boxes := boxes pg; timers := timers pg; now := (now pg + ms)%nat |}
  | Fire k hovered =>
      match timers pg !! k with
      | Some t =>
          if (armed t + delay t <=? now pg)%nat then
            Some (run_callback (job t) hovered
                    {| boxes := boxes pg; timers := delete k (timers pg);
                       now := now pg |})
          else None
      | None => None
      end
  end.

Fixpoint run (es : list event) (pg : page) : option page :=
  match es with
  | [] => Some pg
  | e :: es' => step e pg ≫= run es'
  end.

(** A box is in the layout unless its inline display is [none]. *)
Definition displayed (b : box) : bool := negb (String.eqb (display b) "none").

(** *** Notions and data for the statements *)

(** The delays that the handlers give to their timers. *)
Definition grace (t : timer) : Prop :=
  match job t with
  | HideIfIdle _ => delay t = 300%nat
  | LevelGrace _ => delay t = 200%nat
  end.

(** A funnel level at (100, 400), 200 by 40 pixels. *)
Definition level_rect : rect :=
  {| r_left := 100; r_right := 300; r_top := 400; r_width := 200;
     r_height := 40 |}.

(** A window of 1440 by 900 pixels, and one that is only 100 pixels high;
    the box measures 240 by 180. *)
Definition wide_env : layout :=
  {| innerWidth := 1440; innerHeight := 900; offsetWidth := 240;
     offsetHeight := 180; targetRect := level_rect |}.

Definition low_env : layout :=
  {| innerWidth := 1000; innerHeight := 100; offsetWidth := 240;
     offsetHeight := 180; targetRect := level_rect |}.

Definition info_box (id display : string) : box :=
  {| box_id := Some id; classList := ["info-box"%string];
     display := display; visibility := ""; opacity := ""; position := "";
     left := None; top := None; has_close := true |}.

Definition sample_box : box := info_box "info-box-1" "none".
Definition shown_box : box := info_box "info-box-1" "block".

Definition level_2 : list string := ["funnel-level"; "funnel-level-2"]%string.

Definition first_page : page :=
  {| boxes := [sample_box]; timers := []; now := 0 |}.

(** The pointer enters the level, leaves it at 100 ms and is back on it at
    150 ms, where it stays: *)
Definition reenter_level : list event :=
  [LevelMouseEnter level_2 wide_env; Elapse 100;
   LevelMouseLeave level_2; Elapse 50;
   LevelMouseEnter level_2 wide_env].

(** then the two timers of the [mouseleave] fire, at 300 ms and at 600 ms,
    with the pointer on the level and not on the box. *)
Definition stale_timers : list event :=
  [Elapse 150; Fire 0 false; Elapse 300; Fire 0 false].





(** *** Placement *)

Lemma side_classes side other l :
  side ≠ other →
  (other = "left-side" ∨ other = "right-side")%string →
  let l' := ClassList.add side
              (ClassList.remove "right-side" (ClassList.remove "left-side" l)) in
  ClassList.contains side l' = true ∧ ClassList.contains other l' = false.
Proof.
  intros Hne Hother l'. split; [apply ClassList.contains_add|].
  unfold l'. rewrite ClassList.contains_add_ne by congruence.
  destruct Hother as [-> | ->].
  - rewrite ClassList.contains_remove_ne by discriminate.
    apply ClassList.contains_remove.
  - apply ClassList.contains_remove.
Qed.

Lemma positioned_classList b env :
  classList (positionInfoBoxGlobal b env) =
  ClassList.add (fst (leftPos env))
    (ClassList.remove "right-side" (ClassList.remove "left-side" (classList b))).
Proof. unfold positionInfoBoxGlobal. destruct (leftPos env). reflexivity. Qed.

Lemma positioned_left b env :
  left (positionInfoBoxGlobal b env) = Some (snd (leftPos env)).
Proof. unfold positionInfoBoxGlobal. destruct (leftPos env). reflexivity. Qed.

Lemma positioned_top b env :
  top (positionInfoBoxGlobal b env) = Some (finalTop env).
Proof. unfold positionInfoBoxGlobal. destruct (leftPos env). reflexivity. Qed.

Lemma positioned_display b env :
  display (positionInfoBoxGlobal b env) = display b.
Proof. unfold positionInfoBoxGlobal. destruct (leftPos env). reflexivity. Qed.

(** The numbers of a finite layout. *)
Lemma finite_layout_fields env :
  finite_layout env = true →
  is_finite (innerWidth env) = true ∧ is_finite (innerHeight env) = true ∧
  is_finite (infoBoxWidth env) = true ∧ is_finite (infoBoxHeight env) = true ∧
  is_finite (r_left (targetRect env)) = true ∧
  is_finite (r_right (targetRect env)) = true ∧
  is_finite (r_top (targetRect env)) = true ∧
  is_finite (r_width (targetRect env)) = true ∧
  is_finite (r_height (targetRect env)) = true.
Proof.
  unfold finite_layout. rewrite !andb_true_iff.
  intros ((((((((HW & HH) & Hw) & Hh) & Hl) & Hr) & Ht) & Hrw) & Hrh).
  unfold infoBoxWidth, infoBoxHeight, or_default.
  repeat split; try done.
  - by destruct (is_zero _ || is_nan _).
  - by destruct (is_zero _ || is_nan _).
Qed.

(** The bound, the two candidates for the left edge and the two midpoints
    are numbers. *)
Lemma horizontal_numbers env :
  finite_layout env = true →
  let W := innerWidth env in
  let bw := infoBoxWidth env in
  let a := targetRect env in
  is_nan (W - bw - 10)%float = false ∧
  is_nan (r_right a + 10)%float = false ∧
  is_nan (r_left a - bw - 10)%float = false ∧
  is_nan (W / 2)%float = false ∧
  is_nan (midpoint env) = false.
Proof.
  intros (HW & _ & Hbw & _ & Hl & Hr & _ & Hrw & _)%finite_layout_fields.
  cbn zeta. repeat split.
  - apply sub_number; [|done]. apply sub_number; [by apply finite_not_nan|done].
  - apply add_number; [by apply finite_not_nan|done].
  - apply sub_number; [|done]. apply sub_number; [by apply finite_not_nan|done].
  - by apply finite_not_nan, half_finite.
  - apply add_number; [by apply finite_not_nan | by apply half_finite].
Qed.

Lemma vertical_numbers env :
  finite_layout env = true →
  is_nan (innerHeight env - infoBoxHeight env - 10)%float = false ∧
  is_nan (topPos env) = false.
Proof.
  intros (_ & HH & _ & Hbh & _ & _ & Ht & _ & Hrh)%finite_layout_fields.
  split.
  - apply sub_number; [|done]. apply sub_number; [by apply finite_not_nan|done].
  - unfold topPos. apply sub_number; [|by apply half_finite].
    apply add_number; [by apply finite_not_nan | by apply half_finite].
Qed.

(** C1.  The horizontal position that [positionInfoBoxGlobal] computes and
    stores in [style.left], for a layout of finite numbers; all arithmetic
    is the code's, on doubles.  In a window at least 1280 pixels wide the box
    gets the class [right-side] and the left edge
    min(windowWidth - boxWidth - 10, anchorRight + 10), which is one of the
    two and at most windowWidth - boxWidth - 10.  In a narrower window an
    anchor whose midpoint is in the right half puts the box on the left side
    at max(10, anchorLeft - boxWidth - 10), any other anchor puts it on the
    right side at min(windowWidth - boxWidth - 10, anchorRight + 10).  The
    cases cover every finite layout.  [boxWidth] is the measured width, or
    240 when the measurement is 0. *)
Theorem horizontal_placement (b : box) (env : layout) :
  finite_layout env = true →
  let W := innerWidth env in
  let bw := infoBoxWidth env in
  let a := targetRect env in
  let b' := positionInfoBoxGlobal b env in
  ∃ x, left b' = Some x ∧
    ((1280 <=? W)%float = true →
       has_class "right-side" b' = true ∧ has_class "left-side" b' = false ∧
       x = Math_min (W - bw - 10) (r_right a + 10) ∧
       (x = (W - bw - 10)%float ∨ x = (r_right a + 10)%float) ∧
       (x <=? W - bw - 10)%float = true ∧ (x <=? r_right a + 10)%float = true) ∧
    ((W <? 1280)%float = true →
     (W / 2 <? r_left a + r_width a / 2)%float = true →
       has_class "left-side" b' = true ∧ has_class "right-side" b' = false ∧
       x = Math_max 10 (r_left a - bw - 10) ∧
       (x = 10%float ∨ x = (r_left a - bw - 10)%float) ∧
       (10 <=? x)%float = true ∧ (r_left a - bw - 10 <=? x)%float = true) ∧
    ((W <? 1280)%float = true →
     (r_left a + r_width a / 2 <=? W / 2)%float = true →
       has_class "right-side" b' = true ∧ has_class "left-side" b' = false ∧
       x = Math_min (W - bw - 10) (r_right a + 10) ∧
       (x = (W - bw - 10)%float ∨ x = (r_right a + 10)%float) ∧
       (x <=? W - bw - 10)%float = true ∧ (x <=? r_right a + 10)%float = true) ∧
    ((1280 <=? W)%float = true ∨ (W <? 1280)%float = true) ∧
    ((W / 2 <? r_left a + r_width a / 2)%float = true ∨
     (r_left a + r_width a / 2 <=? W / 2)%float = true).
Proof.
  intros Hfin W bw a b'. exists (snd (leftPos env)).
  split; [apply positioned_left|].
  destruct (horizontal_numbers env Hfin) as (Hbound & Hright & Hleft & Hhalf & Hmid).
  fold W bw a in Hbound, Hright, Hleft, Hhalf. unfold midpoint in Hmid. fold a in Hmid.
  destruct (finite_layout_fields env Hfin) as (HW & _).
  destruct (Math_min_spec _ _ Hbound Hright) as (Hmin & Hmin1 & Hmin2).
  destruct (Math_max_spec 10 _ eq_refl Hleft) as (Hmax & Hmax1 & Hmax2).
  unfold has_class, b'. rewrite positioned_classList.
  unfold leftPos, shouldPositionOnRight, isInRightHalf, midpoint.
  fold W bw a.
  assert (Hright_side :
    let l' := ClassList.add "right-side"
                (ClassList.remove "right-side"
                   (ClassList.remove "left-side" (classList b))) in
    ClassList.contains "right-side" l' = true ∧
    ClassList.contains "left-side" l' = false).
  { apply side_classes; [discriminate | by left]. }
  assert (Hleft_side :
    let l' := ClassList.add "left-side"
                (ClassList.remove "right-side"
                   (ClassList.remove "left-side" (classList b))) in
    ClassList.contains "left-side" l' = true ∧
    ClassList.contains "right-side" l' = false).
  { apply side_classes; [discriminate | by right]. }
  cbn zeta in Hright_side, Hleft_side.
  destruct Hright_side as [Hr1 Hr2], Hleft_side as [Hl1 Hl2].
  split; [|split; [|split; [|split]]].
  - intros ->. cbn [fst snd]. by rewrite Hr1, Hr2.
  - intros Hnarrow%ltb_not_leb Hin. rewrite Hnarrow, Hin. cbn [fst snd].
    by rewrite Hl1, Hl2.
  - intros Hnarrow%ltb_not_leb Hin%leb_not_ltb. rewrite Hnarrow, Hin.
    cbn [fst snd]. by rewrite Hr1, Hr2.
  - destruct (1280 <=? W)%float eqn:Hwide; [by left|right].
    apply leb_false_ltb; [done | by apply finite_not_nan | done].
  - destruct (W / 2 <? r_left a + r_width a / 2)%float eqn:Hin; [by left|right].
    by apply leb_total.
Qed.

Lemma horizontal_placement_witness :
  ∃ x, left (positionInfoBoxGlobal sample_box wide_env) = Some x ∧
    has_class "right-side" (positionInfoBoxGlobal sample_box wide_env) = true ∧
    (x <=? 1440 - 240 - 10)%float = true.
Proof.
  destruct (horizontal_placement sample_box wide_env eq_refl)
    as (x & Hx & Hwide & _).
  exists x. split; [exact Hx|].
  destruct (Hwide eq_refl) as (Hright & _ & _ & _ & Hbound & _).
  split; [exact Hright | exact Hbound].
Defined.

(** C2 fails in a window that is too low for the box: with 100 pixels of
    height and a box of 180 the top is 10, above 100 - 180 - 10. *)
Lemma vertical_placement_low_viewport :
  ∃ y, top (positionInfoBoxGlobal sample_box low_env) = Some y ∧
    ¬ ((10 <=? y)%float = true ∧
       (y <=? innerHeight low_env - infoBoxHeight low_env - 10)%float = true).
Proof.
  exists 10%float. split; [reflexivity|]. intros [_ H]. vm_compute in H.
  discriminate.
Qed.

(** C2, amended.  The top that [positionInfoBoxGlobal] stores in [style.top]
    is max(10, min(windowHeight - boxHeight - 10, centred top)), where the
    centred top is anchorTop + anchorHeight / 2 - boxHeight / 2; all
    arithmetic is the code's, on doubles, and the layout is one of finite
    numbers.  The top is at least 10 in every case; it is at most
    windowHeight - boxHeight - 10 when that bound is at least 10, that is
    when the box fits the window with both margins; otherwise it is 10; and
    it is the centred top when that lies between 10 and the bound. *)
Theorem vertical_placement (b : box) (env : layout) :
  finite_layout env = true →
  let H := innerHeight env in
  let bh := infoBoxHeight env in
  let a := targetRect env in
  let centred := (r_top a + r_height a / 2 - bh / 2)%float in
  ∃ y, top (positionInfoBoxGlobal b env) = Some y ∧
    y = Math_max 10 (Math_min (H - bh - 10) centred) ∧
    (10 <=? y)%float = true ∧
    ((10 <=? H - bh - 10)%float = true → (y <=? H - bh - 10)%float = true) ∧
    ((H - bh - 10 <? 10)%float = true → y = 10%float) ∧
    ((10 <? centred)%float = true → (centred <? H - bh - 10)%float = true →
       y = centred).
Proof.
  intros Hfin H bh a centred. exists (finalTop env).
  split; [apply positioned_top|].
  destruct (vertical_numbers env Hfin) as (Hbound & Htop).
  unfold finalTop. change (topPos env) with centred in *. fold H bh in Hbound |- *.
  destruct (Math_min_spec _ _ Hbound Htop) as (Hmin & Hmin1 & Hmin2).
  assert (Hnum : is_nan (Math_min (H - bh - 10) centred) = false).
  { by destruct Hmin as [-> | ->]. }
  destruct (Math_max_spec 10 _ eq_refl Hnum) as (Hmax & Hmax1 & Hmax2).
  split; [done|]. split; [done|]. split; [|split].
  - intros Hfits. by destruct Hmax as [-> | ->].
  - intros Hlow. unfold Math_max. rewrite Hnum. cbn [is_nan orb].
    change (is_nan 10) with false. cbn [orb].
    assert (Hlt : (Math_min (H - bh - 10) centred <? 10)%float = true)
      by by apply (leb_ltb_trans _ (H - bh - 10)%float).
    by rewrite (ltb_asym _ _ Hlt), Hlt.
  - intros Hlo Hhi. unfold Math_min at 1. rewrite Hbound, Htop. cbn [orb].
    rewrite (ltb_asym _ _ Hhi), Hhi.
    unfold Math_max. change (is_nan 10) with false. rewrite Htop. cbn [orb].
    by rewrite Hlo.
Qed.

Lemma vertical_placement_witness :
  ∃ y, top (positionInfoBoxGlobal sample_box wide_env) = Some y ∧
    (10 <=? y)%float = true ∧ (y <=? 900 - 180 - 10)%float = true.
Proof.
  destruct (vertical_placement sample_box wide_env eq_refl)
    as (y & Hy & _ & Hlo & Hhi & _).
  exists y. split; [exact Hy|]. split; [exact Hlo|].
  apply Hhi. reflexivity.
Defined.

(** *** Handlers and the display of a box *)

Lemma lookup_update i f pg j :
  boxes (update i f pg) !! j =
  if decide (i = j) then f <$> boxes pg !! j else boxes pg !! j.
Proof.
  unfold update. cbn. case_decide as Hij.
  - subst. apply list_lookup_alter_eq.
  - by apply list_lookup_alter_ne.
Qed.

Lemma update_keeps_displayed f i pg j b b' :
  (∀ x, displayed x = true → displayed (f x) = true) →
  boxes pg !! j = Some b → boxes (update i f pg) !! j = Some b' →
  displayed b = true → displayed b' = true.
Proof.
  intros Hf Hb Hb' Hshown. rewrite lookup_update, Hb in Hb'.
  case_decide; simplify_eq/=; auto.
Qed.

Lemma shown_displayed x env :
  displayed
    (positionInfoBoxGlobal (add_class "hover-visible" (set_display "block" x)) env)
  = true.
Proof. unfold displayed. rewrite positioned_display. reflexivity. Qed.

Lemma hide_if_idle_hides x :
  displayed x = true → displayed (hide_if_idle x) = false → idle x = true.
Proof.
  unfold hide_if_idle. destruct (idle x); [done | congruence].
Qed.

(** Every handler that is not a due hide callback leaves a displayed box
    displayed. *)
Lemma step_hides e pg pg' i b b' :
  step e pg = Some pg' →
  boxes pg !! i = Some b → boxes pg' !! i = Some b' →
  displayed b = true → displayed b' = false →
  ∃ k hovered t, e = Fire k hovered ∧ timers pg !! k = Some t ∧
    job t = HideIfIdle i ∧ armed t + delay t ≤ now pg ∧ idle b = true.
Proof.
  intros Hstep Hb Hb' Hshown Hgone.
  assert (Hkeep : ∀ f j pg1, boxes pg1 = boxes pg →
            (∀ x, displayed x = true → displayed (f x) = true) →
            boxes (update j f pg1) !! i = Some b' → False).
  { intros f j pg1 Hsame Hf Hl.
    assert (displayed b' = true); [|congruence].
    eapply (update_keeps_displayed f j pg1 i b b'); eauto. by rewrite Hsame. }
  assert (Hsame : boxes pg !! i = Some b' → False).
  { intros Hl. congruence. }
  destruct e; cbn in Hstep.
  - exfalso. injection Hstep as <-. case_match; [|auto].
    unfold level_mouseenter in Hb'. repeat case_match; auto.
    eapply Hkeep; [reflexivity | | exact Hb']. intros; apply shown_displayed.
  - exfalso. injection Hstep as <-. case_match; [|auto].
    unfold level_mouseleave in Hb'. repeat case_match; auto.
  - exfalso. injection Hstep as <-. case_match; [|auto].
    eapply Hkeep; [reflexivity | | exact Hb']. auto.
  - exfalso. injection Hstep as <-. case_match; [|auto].
    eapply Hkeep; [reflexivity | | exact Hb']. auto.
  - exfalso. injection Hstep as <-. case_match; [|auto].
    eapply Hkeep; [reflexivity | | exact Hb']. auto.
  - exfalso. injection Hstep as <-.
    eapply Hkeep; [reflexivity | | exact Hb']. auto.
  - exfalso. injection Hstep as <-.
    eapply Hkeep; [reflexivity | | exact Hb']. auto.
  - exfalso. injection Hstep as <-. auto.
  - destruct (timers pg !! k) as [t|] eqn:Ht; [|discriminate].
    destruct (armed t + delay t <=? now pg)%nat eqn:Hdue; [|discriminate].
    injection Hstep as <-. apply Nat.leb_le in Hdue.
    destruct (job t) as [j|j] eqn:Hjob; cbn [run_callback] in Hb'.
    + exfalso. destruct hovered; cbn [negb] in Hb'; [auto|].
      eapply Hkeep; [ | | exact Hb']; [reflexivity | auto].
    + rewrite lookup_update in Hb'. cbn in Hb'. rewrite Hb in Hb'.
      case_decide as Hji; [|congruence]. subst j. simplify_eq/=.
      exists k, hovered, t. repeat split; auto.
      by apply hide_if_idle_hides.
Qed.

(** *** Delays of the pending timers *)

Lemma setTimeout_grace cb ms pg :
  grace {| armed := now pg; delay := ms; job := cb |} →
  Forall grace (timers pg) → Forall grace (timers (setTimeout cb ms pg)).
Proof. intros Ht Hpg. apply Forall_app. split; [exact Hpg | by constructor]. Qed.

Lemma step_grace e pg pg' :
  step e pg = Some pg' → Forall grace (timers pg) → Forall grace (timers pg').
Proof.
  intros Hstep Hpg. destruct e; cbn in Hstep.
  - injection Hstep as <-. case_match; [|done].
    unfold level_mouseenter. repeat case_match; done.
  - injection Hstep as <-. case_match; [|done].
    unfold level_mouseleave. repeat case_match; try done.
    by apply setTimeout_grace.
  - injection Hstep as <-. by case_match.
  - injection Hstep as <-. case_match; [|done]. by apply setTimeout_grace.
  - injection Hstep as <-. case_match; [|done]. by apply setTimeout_grace.
  - by injection Hstep as <-.
  - by injection Hstep as <-.
  - by injection Hstep as <-.
  - destruct (timers pg !! k) as [t|]; [|discriminate].
    destruct (armed t + delay t <=? now pg)%nat; [|discriminate].
    injection Hstep as <-.
    assert (Hdel : Forall grace (delete k (timers pg))) by by apply Forall_delete.
    destruct (job t); cbn [run_callback]; [|exact Hdel].
    destruct hovered; cbn [negb]; [exact Hdel|].
    by apply setTimeout_grace.
Qed.

Lemma run_grace es pg pg' :
  run es pg = Some pg' → Forall grace (timers pg) → Forall grace (timers pg').
Proof.
  revert pg. induction es as [|e es IH]; intros pg Hrun Hpg; cbn in Hrun.
  - by injection Hrun as <-.
  - destruct (step e pg) as [pg1|] eqn:Hstep; [|discriminate].
    cbn in Hrun. eapply IH; [exact Hrun|]. eapply step_grace; eauto.
Qed.

(** C5.  In every run of the page that starts without pending timers, a
    step that takes a displayed box out of the layout (its display becomes
    [none]) is the firing of a hide callback for that box; the callback was
    armed at least 300 ms before, and at that moment the box has neither the
    class [hover-visible] nor the class [active].  No other handler hides a
    box, and none hides it while one of the two classes is set. *)
Theorem hidden_only_idle_after_grace
    (pg0 pg pg' : page) (es : list event) (e : event) (i : nat) (b b' : box) :
  timers pg0 = [] →
  run es pg0 = Some pg →
  step e pg = Some pg' →
  boxes pg !! i = Some b → boxes pg' !! i = Some b' →
  displayed b = true → displayed b' = false →
  ∃ k hovered t,
    e = Fire k hovered ∧ timers pg !! k = Some t ∧ job t = HideIfIdle i ∧
    armed t + 300 ≤ now pg ∧
    has_class "hover-visible" b = false ∧ has_class "active" b = false.
Proof.
  intros Hinit Hrun Hstep Hb Hb' Hshown Hgone.
  destruct (step_hides e pg pg' i b b' Hstep Hb Hb' Hshown Hgone)
    as (k & hovered & t & -> & Ht & Hjob & Hdue & Hidle).
  assert (Hgrace : grace t).
  { assert (Hall : Forall grace (timers pg)).
    { eapply run_grace; [exact Hrun|]. rewrite Hinit. constructor. }
    rewrite Forall_lookup in Hall. by eapply Hall. }
  unfold grace in Hgrace. rewrite Hjob in Hgrace. rewrite Hgrace in Hdue.
  unfold idle in Hidle. apply andb_true_iff in Hidle as [H1 H2].
  apply negb_true_iff in H1, H2.
  exists k, hovered, t. repeat split; auto.
Qed.

Lemma hidden_only_idle_after_grace_witness :
  ∃ k hovered t,
    Fire 0 false = Fire k hovered ∧
    timers {| boxes := [remove_class "hover-visible" shown_box];
              timers := [{| armed := 0; delay := 300; job := HideIfIdle 0 |}];
              now := 300 |} !! k = Some t ∧
    job t = HideIfIdle 0 ∧ armed t + 300 ≤ 300 ∧
    has_class "hover-visible" (remove_class "hover-visible" shown_box) = false ∧
    has_class "active" (remove_class "hover-visible" shown_box) = false.
Proof.
  apply (hidden_only_idle_after_grace
           {| boxes := [shown_box]; timers := []; now := 0 |}
           {| boxes := [remove_class "hover-visible" shown_box];
              timers := [{| armed := 0; delay := 300; job := HideIfIdle 0 |}];
              now := 300 |}
           {| boxes := [set_display "none" (remove_class "hover-visible" shown_box)];
              timers := []; now := 300 |}
           [BoxMouseLeave 0; Elapse 300] (Fire 0 false) 0
           (remove_class "hover-visible" shown_box)
           (set_display "none" (remove_class "hover-visible" shown_box)));
    reflexivity.
Defined.

(** *** A level left and entered again *)

(** C6 does not hold for a funnel level.  The pointer enters the level,
    leaves it and enters it again 50 ms later: the box is displayed and has
    [hover-visible].  The timers of the [mouseleave] then fire with the
    pointer still on the level: the 200 ms callback only asks whether the box
    is hovered, removes [hover-visible], and 300 ms later the box is hidden,
    against the last pointer event. *)
Lemma level_reentered_then_hidden :
  (∃ pg b, run reenter_level first_page = Some pg ∧ boxes pg !! 0%nat = Some b ∧
     displayed b = true ∧ has_class "hover-visible" b = true) ∧
  (∃ pg b, run (reenter_level ++ stale_timers) first_page = Some pg ∧
     boxes pg !! 0%nat = Some b ∧ displayed b = false ∧ timers pg = []).
Proof.
  split; eexists _, _; vm_compute; repeat split; reflexivity.
Qed.

(** The box's own handlers do cancel: a hide callback leaves a box alone that
    is hovered again. *)
Lemma hide_skips_hovered b :
  has_class "hover-visible" b = true → hide_if_idle b = b.
Proof. intros H. unfold hide_if_idle, idle. by rewrite H. Qed.

Lemma box_reentered_stays (i : nat) (pg : page) (hovered : bool) :
  boxes (run_callback (HideIfIdle i) hovered
           (box_mouseenter i (box_mouseleave i pg))) !! i =
  boxes (box_mouseenter i (box_mouseleave i pg)) !! i.
Proof.
  cbn [run_callback]. rewrite lookup_update.
  case_decide; [|done].
  unfold box_mouseenter at 1 2. rewrite lookup_update.
  case_decide; [|done].
  destruct (boxes (box_mouseleave i pg) !! i) as [x|]; [|done]. cbn.
  f_equal. apply hide_skips_hovered. apply ClassList.contains_add.
Qed.

(** *** Level classes with a decimal suffix *)









Lemma leftPos_side env :
  fst (leftPos env) = "left-side"%string ∨ fst (leftPos env) = "right-side"%string.
Proof. unfold leftPos. repeat case_match; auto. Qed.

Lemma positioned_keeps_class c b env :
  c ≠ "left-side"%string → c ≠ "right-side"%string →
  has_class c (positionInfoBoxGlobal b env) = has_class c b.
Proof.
  intros Hl Hr. unfold has_class. rewrite positioned_classList.
  rewrite ClassList.contains_add_ne by (destruct (leftPos_side env); congruence).
  by rewrite !ClassList.contains_remove_ne.
Qed.

Lemma positioned_position b env : position (positionInfoBoxGlobal b env) = "fixed"%string.
Proof. unfold positionInfoBoxGlobal. destruct (leftPos env). reflexivity. Qed.





(** *** Placement again *)

Lemma remove_add_side side l :
  (side = "left-side" ∨ side = "right-side")%string →
  ClassList.remove "right-side"
    (ClassList.remove "left-side"
       (ClassList.add side
          (ClassList.remove "right-side" (ClassList.remove "left-side" l))))
  = ClassList.remove "right-side" (ClassList.remove "left-side" l).
Proof.
  intros Hside. unfold ClassList.add.
  set (l0 := ClassList.remove "right-side" (ClassList.remove "left-side" l)).
  assert (Hidem : ClassList.remove "right-side" (ClassList.remove "left-side" l0) = l0).
  { unfold l0, ClassList.remove. rewrite !list_filter_filter.
    apply list_filter_iff. intros x. tauto. }
  destruct (ClassList.contains side l0); [exact Hidem|].
  unfold ClassList.remove in *. rewrite !filter_app, Hidem.
  destruct Hside as [-> | ->]; cbn; by rewrite ?filter_cons_False, ?filter_nil, app_nil_r
    by (cbn; tauto || (intros H; by apply H)).
Qed.

Lemma box_ext (b1 b2 : box) :
  box_id b1 = box_id b2 → classList b1 = classList b2 →
  display b1 = display b2 → visibility b1 = visibility b2 →
  opacity b1 = opacity b2 → position b1 = position b2 →
  left b1 = left b2 → top b1 = top b2 → has_close b1 = has_close b2 →
  b1 = b2.
Proof. destruct b1, b2. cbn. by intros -> -> -> -> -> -> -> -> ->. Qed.

Lemma positioned_other_fields b env :
  box_id (positionInfoBoxGlobal b env) = box_id b ∧
  visibility (positionInfoBoxGlobal b env) = visibility b ∧
  opacity (positionInfoBoxGlobal b env) = opacity b ∧
  has_close (positionInfoBoxGlobal b env) = has_close b.
Proof. unfold positionInfoBoxGlobal. by destruct (leftPos env). Qed.

(** X1.  [positionInfoBoxGlobal] keeps no trace of an earlier placement:
    positioning a box for one layout and then for another gives the box that
    positioning for the second layout alone gives, so that a repeated call
    with the same layout changes nothing.  The inline visibility, opacity and
    display, the id and every class other than [left-side] and [right-side]
    are as before the call, and exactly one of the two side classes is set. *)
Theorem positioning_forgets_earlier_placement (b : box) (env1 env2 : layout) :
  positionInfoBoxGlobal (positionInfoBoxGlobal b env1) env2
    = positionInfoBoxGlobal b env2 ∧
  positionInfoBoxGlobal (positionInfoBoxGlobal b env2) env2
    = positionInfoBoxGlobal b env2 ∧
  visibility (positionInfoBoxGlobal b env2) = visibility b ∧
  opacity (positionInfoBoxGlobal b env2) = opacity b ∧
  display (positionInfoBoxGlobal b env2) = display b ∧
  box_id (positionInfoBoxGlobal b env2) = box_id b ∧
  (∀ c, c ≠ "left-side"%string → c ≠ "right-side"%string →
     has_class c (positionInfoBoxGlobal b env2) = has_class c b) ∧
  has_class "left-side" (positionInfoBoxGlobal b env2)
    = negb (has_class "right-side" (positionInfoBoxGlobal b env2)).
Proof.
  assert (Hforget : ∀ e1 e2,
            positionInfoBoxGlobal (positionInfoBoxGlobal b e1) e2
            = positionInfoBoxGlobal b e2).
  { intros e1 e2.
    destruct (positioned_other_fields b e1) as (Hi1 & Hv1 & Ho1 & Hc1).
    destruct (positioned_other_fields b e2) as (Hi2 & Hv2 & Ho2 & Hc2).
    destruct (positioned_other_fields (positionInfoBoxGlobal b e1) e2)
      as (Hi & Hv & Ho & Hc).
    apply box_ext.
    - congruence.
    - rewrite !positioned_classList. f_equal.
      apply remove_add_side. destruct (leftPos_side e1); tauto.
    - rewrite !positioned_display. reflexivity.
    - congruence.
    - congruence.
    - rewrite !positioned_position. reflexivity.
    - rewrite !positioned_left. reflexivity.
    - rewrite !positioned_top. reflexivity.
    - congruence. }
  destruct (positioned_other_fields b env2) as (Hi & Hv & Ho & _).
  split; [apply Hforget|]. split; [apply Hforget|].
  split; [exact Hv|]. split; [exact Ho|].
  split; [apply positioned_display|].
  split; [exact Hi|].
  split; [intros c Hl Hr; by apply positioned_keeps_class|].
  unfold has_class. rewrite positioned_classList.
  destruct (leftPos_side env2) as [-> | ->].
  - destruct (side_classes "left-side" "right-side" (classList b)) as [-> ->];
      [discriminate | by right | done].
  - destruct (side_classes "right-side" "left-side" (classList b)) as [-> ->];
      [discriminate | by left | done].
Qed.

(** *** Hides that do happen *)

Lemma alter_twice (f g : box → box) i (bs : list box) :
  alter f i (alter g i bs) = alter (λ x, f (g x)) i bs.
Proof. by rewrite list_alter_alter_eq. Qed.

Lemma has_class_remove c b : has_class c (remove_class c b) = false.
Proof. apply ClassList.contains_remove. Qed.

Lemma has_class_remove_ne c d b :
  c ≠ d → has_class c (remove_class d b) = has_class c b.
Proof. apply ClassList.contains_remove_ne. Qed.

Lemma has_class_add c b : has_class c (add_class c b) = true.
Proof. apply ClassList.contains_add. Qed.

Lemma alter_at_box (f : box → box) i (bs : list box) b :
  bs !! i = Some b → alter f i bs = <[i := f b]> bs.
Proof.
  intros Hb. apply list_eq. intros j.
  rewrite list_lookup_alter, list_lookup_insert.
  destruct (decide (i = j)) as [->|Hij].
  - rewrite Hb. cbn.
    by rewrite decide_True by (split; [done | by eapply lookup_lt_Some]).
  - by rewrite decide_False by tauto.
Qed.

(** X2.  A funnel level that the pointer leaves hides its info box in two
    stages.  From a page without pending timers: when the pointer is on the
    box 200 ms after the [mouseleave], the callback changes nothing and arms
    nothing; when it is not, the box loses [hover-visible], and the callback
    that runs 300 ms later takes the box out of the layout unless it has the
    class [active], which keeps it displayed.  No other element changes and
    no timer is left. *)
Theorem level_left_hides_in_two_stages
    (classes : list string) (cls : string) (pg : page) (i : nat) (b : box)
    (hovered : bool) :
  ClassList.contains "funnel-level" classes = true →
  levelClass classes = Some cls →
  getElementById (infoBoxId cls) pg = Some i →
  boxes pg !! i = Some b →
  timers pg = [] →
  run [LevelMouseLeave classes; Elapse 200; Fire 0 true] pg
    = Some {| boxes := boxes pg; timers := []; now := (now pg + 200)%nat |} ∧
  run [LevelMouseLeave classes; Elapse 200; Fire 0 false; Elapse 300;
       Fire 0 hovered] pg
    = Some {| boxes := alter (λ x, hide_if_idle (remove_class "hover-visible" x))
                         i (boxes pg);
              timers := []; now := (now pg + 200 + 300)%nat |} ∧
  (has_class "active" b = false →
     display (hide_if_idle (remove_class "hover-visible" b)) = "none"%string) ∧
  (has_class "active" b = true →
     hide_if_idle (remove_class "hover-visible" b)
     = remove_class "hover-visible" b).
Proof.
  intros Hlevel Hcls Hid Hb Hts.
  destruct pg as [bs ts n]. cbn in Hb, Hts. subst ts.
  assert (Hleave : step (LevelMouseLeave classes) {| boxes := bs; timers := []; now := n |}
            = Some {| boxes := bs;
                      timers := [{| armed := n; delay := 200; job := LevelGrace i |}];
                      now := n |}).
  { cbn [step]. rewrite Hlevel. unfold level_mouseleave. by rewrite Hcls, Hid. }
  split; [|split; [|split]].
  - cbn [run]. rewrite Hleave. cbn. by rewrite Nat.leb_refl.
  - cbn [run]. rewrite Hleave. cbn. rewrite Nat.leb_refl. cbn.
    rewrite Nat.leb_refl. cbn. unfold update. cbn. by rewrite alter_twice.
  - intros Hactive. unfold hide_if_idle, idle.
    by rewrite has_class_remove, has_class_remove_ne, Hactive.
  - intros Hactive. unfold hide_if_idle, idle.
    rewrite (has_class_remove_ne "active"), Hactive by done.
    by rewrite andb_false_r.
Qed.

Lemma level_left_hides_in_two_stages_witness :
  run [LevelMouseLeave level_2; Elapse 200; Fire 0 false; Elapse 300;
       Fire 0 false]
    {| boxes := [shown_box]; timers := []; now := 0 |}
  = Some {| boxes := [set_display "none" shown_box]; timers := [];
            now := 500 |}.
Proof.
  destruct (level_left_hides_in_two_stages level_2 "funnel-level-2"
              {| boxes := [shown_box]; timers := []; now := 0 |} 0 shown_box false)
    as (_ & Hrun & _); [reflexivity..|].
  exact Hrun.
Defined.

(** X3.  A click on the close button of an info box takes the box out of
    the layout 300 ms later even when the box is pinned by [active] and even
    when the pointer is still on it: the click removes both [hover-visible]
    and [active], and the callback finds neither.  No other element changes
    and no timer is left. *)
Theorem close_click_hides_pinned_box
    (pg : page) (i : nat) (b : box) (hovered : bool) :
  closable i pg = true →
  boxes pg !! i = Some b →
  timers pg = [] →
  let b' := set_display "none"
              (remove_class "active" (remove_class "hover-visible" b)) in
  run [CloseClick i; Elapse 300; Fire 0 hovered] pg
    = Some {| boxes := <[i := b']> (boxes pg); timers := [];
              now := (now pg + 300)%nat |} ∧
  displayed b' = false ∧
  has_class "hover-visible" b' = false ∧ has_class "active" b' = false.
Proof.
  intros Hclosable Hb Hts b'.
  destruct pg as [bs ts n]. cbn in Hb, Hts. subst ts.
  assert (Hidle : idle (remove_class "active" (remove_class "hover-visible" b)) = true).
  { unfold idle.
    by rewrite has_class_remove_ne, !has_class_remove. }
  split; [|split; [done|]].
  - cbn [run step]. rewrite Hclosable. cbn. rewrite Nat.leb_refl. cbn.
    unfold update. cbn. rewrite alter_twice, (alter_at_box _ i bs b Hb).
    unfold hide_if_idle. by rewrite Hidle.
  - apply andb_true_iff in Hidle as [H1 H2].
    apply negb_true_iff in H1, H2. split; [exact H1 | exact H2].
Qed.

Lemma close_click_hides_pinned_box_witness :
  run [CloseClick 0; Elapse 300; Fire 0 true]
    {| boxes := [add_class "active" shown_box]; timers := []; now := 0 |}
  = Some {| boxes := [set_display "none" shown_box]; timers := []; now := 300 |}.
Proof.
  destruct (close_click_hides_pinned_box
              {| boxes := [add_class "active" shown_box]; timers := []; now := 0 |}
              0 (add_class "active" shown_box) true) as [Hrun _];
    [reflexivity..|].
  exact Hrun.
Defined.

(** X4.  An info box that the pointer leaves loses [hover-visible] at once;
    the callback 300 ms later takes it out of the layout unless it has the
    class [active].  When the pointer is back on the box before the callback
    runs, the box has [hover-visible] again and the callback leaves it as it
    is: the display is the one of the last pointer event. *)
Theorem box_left_hides_unless_pinned_or_back
    (pg : page) (i : nat) (b : box) (hovered : bool) (t : nat) :
  listens i pg = true →
  boxes pg !! i = Some b →
  timers pg = [] →
  (t ≤ 300)%nat →
  run [BoxMouseLeave i; Elapse 300; Fire 0 hovered] pg
    = Some {| boxes := <[i := hide_if_idle (remove_class "hover-visible" b)]>
                         (boxes pg);
              timers := []; now := (now pg + 300)%nat |} ∧
  displayed (hide_if_idle (remove_class "hover-visible" b))
    = displayed b && has_class "active" b ∧
  run [BoxMouseLeave i; Elapse t; BoxMouseEnter i; Elapse (300 - t);
       Fire 0 hovered] pg
    = Some {| boxes := <[i := add_class "hover-visible"
                                (remove_class "hover-visible" b)]> (boxes pg);
              timers := []; now := (now pg + t + (300 - t))%nat |} ∧
  displayed (add_class "hover-visible" (remove_class "hover-visible" b))
    = displayed b.
Proof.
  intros Hlistens Hb Hts Ht.
  destruct pg as [bs ts n]. cbn in Hb, Hts. subst ts.
  assert (Hset : ∀ f, alter f i bs = <[i := f b]> bs)
    by (intros f; by apply alter_at_box).
  assert (Hactive : has_class "active" (remove_class "hover-visible" b)
                    = has_class "active" b) by by apply has_class_remove_ne.
  assert (Hhover : has_class "hover-visible" (remove_class "hover-visible" b) = false)
    by apply has_class_remove.
  split; [|split; [|split; [|done]]].
  - cbn [run step]. rewrite Hlistens. cbn. rewrite Nat.leb_refl. cbn.
    unfold update. cbn. rewrite alter_twice. by rewrite Hset.
  - unfold hide_if_idle, idle. rewrite Hhover, Hactive. cbn.
    destruct (has_class "active" b); cbn; [by rewrite andb_true_r|].
    by rewrite andb_false_r.
  - cbn [run step]. rewrite Hlistens. cbn.
    assert (Hlistens' : listens i {| boxes := alter (remove_class "hover-visible") i bs;
                                    timers := [{| armed := n; delay := 300;
                                                  job := HideIfIdle i |}];
                                    now := (n + t)%nat |} = true).
    { revert Hlistens. unfold listens. cbn [boxes].
      rewrite list_lookup_alter_eq, Hb. cbn [fmap option_fmap option_map].
      by rewrite has_class_remove_ne. }
    rewrite Hlistens'. cbn.
    assert ((n + 300 <=? n + t + (300 - t))%nat = true) as -> by (apply Nat.leb_le; lia).
    cbn. unfold update. cbn. rewrite !alter_twice, Hset.
    by rewrite hide_skips_hovered by apply has_class_add.
Qed.

Lemma box_left_hides_unless_pinned_or_back_witness :
  run [BoxMouseLeave 0; Elapse 100; BoxMouseEnter 0; Elapse (300 - 100);
       Fire 0 true]
    {| boxes := [shown_box]; timers := []; now := 0 |}
  = Some {| boxes := [add_class "hover-visible" shown_box]; timers := [];
            now := 300 |}.
Proof.
  destruct (box_left_hides_unless_pinned_or_back
              {| boxes := [shown_box]; timers := []; now := 0 |}
              0 shown_box true 100) as (_ & _ & Hrun & _);
    [reflexivity | reflexivity | reflexivity | lia |].
  exact Hrun.
Defined.

(** *** Listeners that run more than once *)

Lemma list_find_alter_id (f : box → box) i id (l : list box) :
  (∀ b, box_id (f b) = box_id b) →
  fst <$> list_find (has_id id) (alter f i l) = fst <$> list_find (has_id id) l.
Proof.
  intros Hf. revert i. induction l as [|b l IH]; intros [|i]; try done.
  - change (alter f 0 (b :: l)) with (f b :: l). cbn. unfold has_id.
    destruct (decide (box_id (f b) = Some id)) as [H1|H1],
             (decide (box_id b = Some id)) as [H2|H2];
      rewrite Hf in H1; done.
  - change (alter f (S i) (b :: l)) with (b :: alter f i l). cbn.
    destruct (decide (has_id id b)); [done|].
    specialize (IH i).
    destruct (list_find (has_id id) (alter f i l)) as [[j x]|],
             (list_find (has_id id) l) as [[j' x']|]; cbn in *; congruence.
Qed.

Lemma show_twice b env :
  let show := λ infoBox,
    positionInfoBoxGlobal (add_class "hover-visible" (set_display "block" infoBox)) env in
  show (show b) = show b.
Proof.
  intros show. unfold show.
  set (b1 := add_class "hover-visible" (set_display "block" b)).
  set (p1 := positionInfoBoxGlobal b1 env).
  destruct (positioned_other_fields b1 env) as (Hi1 & Hv1 & Ho1 & Hc1).
  destruct (positioned_other_fields
              (add_class "hover-visible" (set_display "block" p1)) env)
    as (Hi2 & Hv2 & Ho2 & Hc2).
  assert (Hhover : add_class "hover-visible" (set_display "block" p1)
                   = set_display "block" p1).
  { unfold add_class, ClassList.add.
    assert (ClassList.contains "hover-visible" (classList (set_display "block" p1))
            = true) as ->; [|by destruct p1].
    change (has_class "hover-visible" p1 = true). unfold p1.
    rewrite positioned_keeps_class by discriminate. apply ClassList.contains_add. }
  apply box_ext.
  - by rewrite Hi2.
  - rewrite Hhover, !positioned_classList. cbn [classList set_display].
    unfold p1. rewrite positioned_classList.
    f_equal. apply remove_add_side. destruct (leftPos_side env); tauto.
  - unfold p1. by rewrite !positioned_display.
  - by rewrite Hv2.
  - by rewrite Ho2.
  - unfold p1. by rewrite !positioned_position.
  - unfold p1. by rewrite !positioned_left.
  - unfold p1. by rewrite !positioned_top.
  - by rewrite Hc2.
Qed.

(** X5.  [setupGlobalHoverHandlers] runs again on every slide change and
    adds its listeners again, so a [mouseenter] on a funnel level runs the
    handler several times.  The handler is idempotent: running it a second
    time for the same level and layout leaves the page as the first run left
    it. *)
Theorem level_mouseenter_idempotent
    (classes : list string) (env : layout) (pg : page) :
  level_mouseenter classes env (level_mouseenter classes env pg)
  = level_mouseenter classes env pg.
Proof.
  unfold level_mouseenter.
  destruct (levelClass classes) as [cls|]; [|done].
  destruct (getElementById (infoBoxId cls) pg) as [i|] eqn:Hid; [|by rewrite Hid].
  set (show := λ infoBox,
    positionInfoBoxGlobal (add_class "hover-visible" (set_display "block" infoBox)) env).
  assert (Hid' : getElementById (infoBoxId cls) (update i show pg) = Some i).
  { rewrite <-Hid. unfold getElementById, update. cbn [boxes set_boxes].
    apply list_find_alter_id. intros b. unfold show.
    by destruct (positioned_other_fields
                   (add_class "hover-visible" (set_display "block" b)) env)
      as (-> & _). }
  rewrite Hid'. unfold update, set_boxes. cbn [boxes timers now]. f_equal.
  rewrite alter_twice. apply list_alter_ext; [|done].
  intros b _. apply show_twice.
Qed.

End Tooltip.

(** ** Progress rings: js/slides-interactive.js *)

Module Ring.

Import Double.

(** [calculateOffset(percent, circumference)] on doubles. *)
Definition calculateOffset (percent circumference : float) : float :=
  (circumference - (circumference * percent / 100))%float.

(** [Math.PI] and the fallback circumference [2 * Math.PI * 20]. *)
Definition Math_PI : float := 0x1.921fb54442d18p+1%float.
Definition default_circumference : float := (2 * Math_PI * 20)%float.

(** C10 fails on doubles.  At 100 percent the result for the fallback
    circumference is 2^-46, not 0.  The smallest positive percent gives the
    same result as 0 percent, so the function is not strictly decreasing;
    and since the result at 100 percent is another one, no affine function
    of the percent takes these three values. *)
Lemma full_ring_residue :
  PrimFloat.is_finite default_circumference = true ∧
  PrimFloat.ltb 0 default_circumference = true ∧
  PrimFloat.eqb (calculateOffset 100 default_circumference) 0 = false ∧
  calculateOffset 100 default_circumference = 0x1p-46%float ∧
  PrimFloat.ltb 0 0x1p-1074 = true ∧
  PrimFloat.eqb (calculateOffset 0x1p-1074 default_circumference)
    (calculateOffset 0 default_circumference) = true ∧
  PrimFloat.ltb (calculateOffset 100 default_circumference)
    (calculateOffset 0 default_circumference) = true.
Proof. repeat split; vm_compute; reflexivity. Qed.

Lemma calculateOffset_zero_percent c :
  PrimFloat.is_finite c = true → PrimFloat.eqb (calculateOffset 0 c) c = true.
Proof.
  intros Hfin. unfold calculateOffset.
  rewrite FloatAxioms.eqb_spec, sub_spec, div_spec, mul_spec.
  apply is_finite_spec in Hfin as [[s ->] | (s & m & e & ->)].
  - destruct s; reflexivity.
  - change (Prim2SF 0) with (S754_zero false).
    cbn [SF64mul SFmul].
    change (SF64div (S754_zero (xorb s false)) (Prim2SF 100)) with
      (S754_zero (xorb (xorb s false) false)).
    cbn [SF64sub SFsub]. unfold SFeqb, SFcompare.
    destruct s; rewrite Z.compare_refl, Pos.compare_cont_refl; reflexivity.
Qed.

Section values.
Local Open Scope float_scope.

Lemma positive_finite c :
  is_finite c = true → (0 <? c) = true →
  ∃ m e, Prim2SF c = S754_finite false m e ∧ canonical m e.
Proof.
  intros Hfin Hpos. rewrite ltb_spec in Hpos.
  change (Prim2SF 0) with (S754_zero false) in Hpos.
  pose proof (Prim2SF_valid c) as Hv.
  apply is_finite_spec in Hfin as [[s Hc] | (s & m & e & Hc)];
    rewrite Hc in Hpos, Hv.
  - done.
  - destruct s; [done|]. exists m, e. split; [done|].
    by apply valid_canonical in Hv.
Qed.

Lemma calculateOffset_full_percent c :
  is_finite c = true → (c * 100 / 100 =? c) = true →
  (calculateOffset 100 c =? 0) = true.
Proof.
  intros Hfin Heq. unfold calculateOffset.
  rewrite FloatAxioms.eqb_spec in Heq |- *. rewrite sub_spec.
  change (Prim2SF 0) with (S754_zero false).
  apply SFsub_eq; [|done].
  apply is_finite_spec in Hfin as [[s ->] | (s & m & e & ->)]; done.
Qed.

Lemma calculateOffset_full_percent_zero c :
  is_finite c = true → (0 <? c) = true →
  (calculateOffset 100 c =? 0) = true → (c * 100 / 100 =? c) = true.
Proof.
  intros Hfin Hpos Heq.
  destruct (positive_finite c Hfin Hpos) as (m & e & Hc & Hcan).
  unfold calculateOffset in Heq.
  rewrite FloatAxioms.eqb_spec in Heq |- *. rewrite sub_spec in Heq.
  change (Prim2SF 0) with (S754_zero false) in Heq.
  rewrite Hc in Heq |- *.
  apply SFsub_zero_inv; [done|apply Prim2SF_valid|done].
Qed.

Lemma calculateOffset_monotone p q c :
  is_finite c = true → (0 <? c) = true → (p <=? q) = true →
  (calculateOffset q c <=? calculateOffset p c) = true.
Proof.
  intros Hfin Hpos Hle.
  destruct (positive_finite c Hfin Hpos) as (m & e & Hc & Hcan).
  pose proof (Prim2SF_valid (c * p)) as Hvp.
  pose proof (Prim2SF_valid (c * q)) as Hvq.
  pose proof (Prim2SF_valid (c * p / 100)) as Hdp.
  pose proof (Prim2SF_valid (c * q / 100)) as Hdq.
  unfold calculateOffset. rewrite leb_spec in Hle |- *.
  rewrite !sub_spec. rewrite !div_spec in *. rewrite !mul_spec in *.
  rewrite Hc in *.
  apply SFsub_anti; [done|done|done|].
  apply SFdiv_mono; [done|done|].
  apply SFmul_mono; [done|apply Prim2SF_valid|apply Prim2SF_valid|done].
Qed.

(** C10 (amended).  On doubles [calculateOffset p c] is the source's
    expression [c - c * p / 100], each operation rounded.  For every finite
    [c] it gives [c] at 0 percent.  At 100 percent it gives 0 whenever
    [c * 100 / 100] evaluates back to [c], and for positive [c] only then.
    For fixed finite positive [c] it is non-increasing in the percent: the
    result for a larger percent is never larger. *)
Theorem calculateOffset_values :
  (∀ p c, calculateOffset p c = c - c * p / 100) ∧
  (∀ c, is_finite c = true → (calculateOffset 0 c =? c) = true) ∧
  (∀ c, is_finite c = true → (c * 100 / 100 =? c) = true →
     (calculateOffset 100 c =? 0) = true) ∧
  (∀ c, is_finite c = true → (0 <? c) = true →
     (calculateOffset 100 c =? 0) = true → (c * 100 / 100 =? c) = true) ∧
  (∀ p q c, is_finite c = true → (0 <? c) = true → (p <=? q) = true →
     (calculateOffset q c <=? calculateOffset p c) = true).
Proof.
  split; [done|]. split; [exact calculateOffset_zero_percent|].
  split; [exact calculateOffset_full_percent|].
  split; [exact calculateOffset_full_percent_zero|].
  exact calculateOffset_monotone.
Qed.

Lemma calculateOffset_values_witness :
  (calculateOffset 0 default_circumference =? default_circumference) = true ∧
  (calculateOffset 100 100 =? 0) = true ∧
  (calculateOffset 75 default_circumference
   <=? calculateOffset 25 default_circumference) = true.
Proof.
  destruct calculateOffset_values as (_ & H0 & H100 & _ & Hmono).
  split; [apply H0; reflexivity|].
  split; [apply H100; reflexivity|apply Hmono; reflexivity].
Defined.

End values.

End Ring.

(** ** Storylane demos: the preloader script and the modals of
    js/slides-interactive.js *)

Module Storylane.

(** *** Values read from the object literals

    [storylanePreloadStatus], [storylaneUrls] and [modalMap] are plain
    objects, so a lookup that misses the own properties continues in
    [Object.prototype].  [Native name] is a built-in function found there,
    [ObjectPrototype] the prototype itself, found under [__proto__]. *)
Inductive value :=
  | Undefined
  | Bool (b : bool)
  | Str (s : string)
  | Native (name : string)
  | ObjectPrototype.

Definition truthy (v : value) : bool :=
  match v with
  | Undefined => false
  | Bool b => b
  | Str s => negb (String.eqb s "")
  | Native _ | ObjectPrototype => true
  end.

(** [String(v)], as a template literal and a DOM string argument take it. *)
Definition to_string (v : value) : string :=
  match v with
  | Undefined => "undefined"
  | Bool true => "true"
  | Bool false => "false"
  | Str s => s
  | Native name => "function " +:+ name +:+ "() { [native code] }"
  | ObjectPrototype => "[object Object]"
  end.

(** The methods of [Object.prototype], as the language defines it. *)
Definition prototype_methods : list string :=
  ["__defineGetter__"; "__defineSetter__"; "hasOwnProperty";
   "__lookupGetter__"; "__lookupSetter__"; "isPrototypeOf";
   "propertyIsEnumerable"; "toString"; "valueOf"; "toLocaleString"].

(** The properties every object literal inherits. *)
Definition inherited (key : string) : value :=
  if String.eqb key "constructor" then Native "Object"
  else if String.eqb key "__proto__" then ObjectPrototype
  else if bool_decide (key ∈ prototype_methods) then Native key
  else Undefined.

(** [object[key]] *)
Definition get_property (own : gmap string value) (key : string) : value :=
  match own !! key with
  | Some v => v
  | None => inherited key
  end.

Definition storylaneUrls : gmap string value :=
  list_to_map
    [("po-agent", Str "https://app.storylane.io/demo/d9xx3md7cyhg?embed=inline");
     ("onboarding-agent", Str "https://app.storylane.io/demo/daptmkw6awmo?embed=inline");
     ("interview-agent", Str "https://app.storylane.io/demo/dhhssqjljjan?embed=inline");
     ("claim-agent", Str "https://app.storylane.io/demo/1qaq6ksdkphn?embed=inline")].

Definition modalMap : gmap string value :=
  list_to_map
    [("po-agent", Str "storylane-modal-po");
     ("onboarding-agent", Str "storylane-modal-onboarding");
     ("interview-agent", Str "storylane-modal-interview");
     ("claim-agent", Str "storylane-modal-claim")].

Definition agent_keys : list string :=
  ["po-agent"; "onboarding-agent"; "interview-agent"; "claim-agent"].

(** *** The document

    The document is a tree of elements below its body; the [html] and [head]
    elements carry none of the classes and ids that the scripts ask for.  An
    element has its tag in lower case, its id, its class list, its other
    attributes and its inline style. *)

Record element := {
  tag : string;
  id : option string;
  classes : list string;
  attrs : gmap string string;
  style : gmap string string }.

Inductive node := Node (el : element) (children : list node).

Definition el (n : node) : element := match n with Node e _ => e end.
Definition children (n : node) : list node := match n with Node _ ks => ks end.

(** A node is named by the child positions that lead to it from the body. *)
Definition path := list nat.

Fixpoint get (p : path) (n : node) : option node :=
  match p with
  | [] => Some n
  | i :: p' =>
      match children n !! i with
      | Some k => get p' k
      | None => None
      end
  end.

(** A change of the node at [p]; nothing changes when [p] leads nowhere. *)
Fixpoint alter_at (f : node → node) (p : path) (n : node) : node :=
  match p with
  | [] => f n
  | i :: p' => Node (el n) (alter (alter_at f p') i (children n))
  end.

(** [node.remove()] for the node at [p]; the body itself stays. *)
Fixpoint remove_at (p : path) (n : node) : node :=
  match p with
  | [] => n
  | i :: p' =>
      match p' with
      | [] => Node (el n) (delete i (children n))
      | _ :: _ => Node (el n) (alter (remove_at p') i (children n))
      end
  end.

(** Where the node that was at [p] is after the node at [r] has been removed,
    for [r] not a prefix of [p]. *)
Fixpoint relocate (r p : path) : path :=
  match r, p with
  | i :: r', j :: p' =>
      match r' with
      | [] => if (i <? j)%nat then pred j :: p' else p
      | _ :: _ => if (i =? j)%nat then j :: relocate r' p' else p
      end
  | _, _ => p
  end.

(** A change of the fields of an element, its children kept. *)
Definition on_el (f : element → element) (n : node) : node :=
  Node (f (el n)) (children n).

Definition appendChild (child : node) (n : node) : node :=
  Node (el n) (children n ++ [child]).

(** The first match in document order among [n] and its descendants. *)
Fixpoint find_first (P : element → bool) (n : node) : option path :=
  match n with
  | Node e ks =>
      if P e then Some []
      else
        (fix among (ks : list node) (i : nat) : option path :=
           match ks with
           | [] => None
           | k :: ks' =>
               match find_first P k with
               | Some p => Some (i :: p)
               | None => among ks' (S i)
               end
           end) ks 0%nat
  end.

(** The same search through a list of siblings, the first of which has
    position [i]. *)
Fixpoint find_among (P : element → bool) (ks : list node) (i : nat)
    : option path :=
  match ks with
  | [] => None
  | k :: ks' =>
      match find_first P k with
      | Some p => Some (i :: p)
      | None => find_among P ks' (S i)
      end
  end.

(** The first match among the descendants of the node at [p]:
    [element.querySelector]. *)
Definition find_below (P : element → bool) (p : path) (n : node) : option path :=
  match get p n with
  | Some s => (λ q, p ++ q) <$> find_among P (children s) 0
  | None => None
  end.

(** [querySelectorAll(...).forEach]: a change of every element. *)
Fixpoint map_elements (f : element → element) (n : node) : node :=
  match n with
  | Node e ks => Node (f e) (map (map_elements f) ks)
  end.

(** Every element of the tree, in document order. *)
Fixpoint elements (n : node) : list element :=
  match n with
  | Node e ks => e :: concat (map elements ks)
  end.

Definition has_class (c : string) (e : element) : bool :=
  ClassList.contains c (classes e).

Definition set_classes (l : list string) (e : element) : element :=
  {| tag := tag e; id := id e; classes := l; attrs := attrs e; style := style e |}.

Definition set_attrs (a : gmap string string) (e : element) : element :=
  {| tag := tag e; id := id e; classes := classes e; attrs := a; style := style e |}.

Definition set_style (s : gmap string string) (e : element) : element :=
  {| tag := tag e; id := id e; classes := classes e; attrs := attrs e; style := s |}.

Definition add_class (c : string) (e : element) : element :=
  set_classes (ClassList.add c (classes e)) e.

Definition remove_class (c : string) (e : element) : element :=
  set_classes (ClassList.remove c (classes e)) e.

Definition style_set (property v : string) (e : element) : element :=
  set_style (<[property := v]> (style e)) e.

(** An empty string removes the property. *)
Definition style_clear (property : string) (e : element) : element :=
  set_style (delete property (style e)) e.

Definition setAttribute (name v : string) (e : element) : element :=
  set_attrs (<[name := v]> (attrs e)) e.

Definition removeAttribute (name : string) (e : element) : element :=
  set_attrs (delete name (attrs e)) e.

(** [document.getElementById(id)]; no element has the empty id. *)
Definition getElementById (i : string) (doc : node) : option path :=
  if String.eqb i "" then None
  else find_first (λ e, bool_decide (id e = Some i)) doc.

(** *** The page *)

(** The status object, the document (its body), what [console.log] has
    printed, Reveal's [keyboard] setting when Reveal is loaded, and whether
    the preloader script has put [window.storylaneUtils] in place. *)
Record world := {
  storylanePreloadStatus : gmap string bool;
  body : node;
  console : list string;
  reveal_keyboard : option bool;
  storylaneUtils : bool }.

Definition set_status (s : gmap string bool) (w : world) : world :=
  {| storylanePreloadStatus := s; body := body w; console := console w;
     reveal_keyboard := reveal_keyboard w; storylaneUtils := storylaneUtils w |}.

Definition set_body (d : node) (w : world) : world :=
  {| storylanePreloadStatus := storylanePreloadStatus w; body := d;
     console := console w; reveal_keyboard := reveal_keyboard w;
     storylaneUtils := storylaneUtils w |}.

Definition log (line : string) (w : world) : world :=
  {| storylanePreloadStatus := storylanePreloadStatus w; body := body w;
     console := console w ++ [line]; reveal_keyboard := reveal_keyboard w;
     storylaneUtils := storylaneUtils w |}.

(** [if (typeof Reveal !== 'undefined') Reveal.configure({ keyboard: k })] *)
Definition configure_keyboard (k : bool) (w : world) : world :=
  {| storylanePreloadStatus := storylanePreloadStatus w; body := body w;
     console := console w;
     reveal_keyboard := (λ _, k) <$> reveal_keyboard w;
     storylaneUtils := storylaneUtils w |}.

(** [window.storylanePreloadStatus[agentId]] *)
Definition status_of (w : world) (agentId : string) : value :=
  get_property (Bool <$> storylanePreloadStatus w) agentId.

(** [document.createElement(tag)] *)
Definition createElement (t : string) : element :=
  {| tag := t; id := None; classes := []; attrs := ∅; style := ∅ |}.

(** The iframe that [preloadStorylaneDemos] builds. *)
Definition preloadFrame (agentId : string) (url : value) : element :=
  set_classes ["storylane-preloader"]
    (setAttribute "data-agent-id" agentId
       (setAttribute "src" (to_string url)
          (setAttribute "tabindex" "-1"
             (setAttribute "aria-hidden" "true"
                (style_set "zIndex" "-1000"
                   (style_set "pointerEvents" "none"
                      (style_set "opacity" "0"
                         (style_set "height" "1px"
                            (style_set "width" "1px"
                               (style_set "position" "absolute"
                                  (createElement "iframe"))))))))))).

(** [preloadStorylaneDemos(agentId)] *)
Definition preloadStorylaneDemos (agentId : string) (w : world) : world :=
  if negb (truthy (Str agentId)) || truthy (status_of w agentId) then w
  else
    let url := get_property storylaneUrls agentId in
    if negb (truthy url) then w
    else
      let w := log ("Preloading Storylane demo for " +:+ agentId +:+ "...") w in
      let w := set_body (appendChild (Node (preloadFrame agentId url) []) (body w)) w in
      set_status (<[agentId := true]> (storylanePreloadStatus w)) w.

(** [.storylane-preloader[data-agent-id="agentId"]] *)
Definition is_preloader (agentId : string) (e : element) : bool :=
  has_class "storylane-preloader" e &&
  bool_decide (attrs e !! "data-agent-id" = Some agentId).

(** The selector is built by putting [agentId] between double quotes.  It is
    the attribute test above when [agentId] has no double quote, backslash,
    line break or null character. *)
Definition plain_char (c : ascii) : bool :=
  let n := nat_of_ascii c in
  negb ((n =? 0) || (n =? 10) || (n =? 12) || (n =? 13) || (n =? 34) || (n =? 92))%nat.

Fixpoint selector_plain (s : string) : bool :=
  match s with
  | String c s' => plain_char c && selector_plain s'
  | EmptyString => true
  end.

Fixpoint has_char (n : nat) (s : string) : bool :=
  match s with
  | String c s' => (nat_of_ascii c =? n)%nat || has_char n s'
  | EmptyString => false
  end.

(** With a double quote in [agentId], and no null character, line break,
    backslash or closing bracket, the text is no selector: the quoted value
    ends at that double quote, and what follows it up to the closing bracket,
    or up to the end of the text, is a second value, which an attribute
    selector does not take.  [querySelector] throws a [SyntaxError].  The
    texts that are neither plain nor of this kind are outside the model. *)
Definition selector_throws (s : string) : bool :=
  has_char 34 s &&
  negb (has_char 0 s || has_char 10 s || has_char 12 s || has_char 13 s ||
        has_char 92 s || has_char 93 s).

(** The restyling of the clone. *)
Definition clone_for_modal (preloadedFrame : node) : node :=
  let clonedFrame := preloadedFrame (* cloneNode(true) *) in
  on_el (λ e,
    set_classes ["sl-demo"]
      (removeAttribute "tabindex"
         (removeAttribute "aria-hidden"
            (style_set "zIndex" "1"
               (style_set "pointerEvents" "auto"
                  (style_set "opacity" "1"
                     (style_set "border" "none"
                        (style_set "height" "100%"
                           (style_set "width" "100%"
                              (style_set "left" "0"
                                 (style_set "top" "0"
                                    (style_set "position" "absolute" e))))))))))))
    clonedFrame.

(** The node that was at [p] in [doc], as it is once the node at [r] has been
    removed: untouched if it went away with the removed subtree, otherwise
    read at its new place. *)
Definition after_removal (r p : path) (doc : node) : option node :=
  if bool_decide (r `prefix_of` p) then get p doc
  else get (relocate r p) (remove_at r doc).

(** [swapPreloadedIframe(agentId)] for a plain [agentId]: the returned flag
    and the document.  [preloadedFrame], [modal], [targetContainer] and
    [existingIframe] are paths.  The clone is taken after the removal of the
    existing iframe, so the preloaded frame is read where the removal has left
    it; it is always found there, and the branch without a frame is never
    taken. *)
Definition swap (agentId : string) (doc : node) : bool * node :=
  match find_first (is_preloader agentId) doc with
  | None => (false, doc)
  | Some preloadedFrame =>
      let modalId := get_property modalMap agentId in
      if negb (truthy modalId) then (false, doc)
      else
        match getElementById (to_string modalId) doc with
        | None => (false, doc)
        | Some modal =>
            match find_below (has_class "sl-embed") modal doc with
            | None => (false, doc)
            | Some targetContainer =>
                let existingIframe :=
                  find_below (λ e, String.eqb (tag e) "iframe") targetContainer doc in
                let doc1 := from_option (λ r, remove_at r doc) doc existingIframe in
                let frame_now :=
                  match existingIframe with
                  | Some r => after_removal r preloadedFrame doc
                  | None => get preloadedFrame doc
                  end in
                match frame_now with
                | Some frame =>
                    (true,
                     alter_at (appendChild (clone_for_modal frame))
                       targetContainer doc1)
                | None => (false, doc)
                end
            end
        end
  end.

(** [None]: the call returns nothing.  For [selector_throws agentId] that is
    the [SyntaxError] of [querySelector]; the other texts that are not plain
    are outside the model. *)
Definition swapPreloadedIframe (agentId : string) (w : world)
    : option (bool * world) :=
  if selector_plain agentId then
    let '(used, doc) := swap agentId (body w) in Some (used, set_body doc w)
  else None.

(** [closeStoryLaneModals()] *)
Definition closeStoryLaneModals (w : world) : world :=
  let w :=
    set_body
      (map_elements
         (λ modal, if has_class "storylane-modal" modal
                   then remove_class "active" modal else modal)
         (body w)) w in
  let w := set_body (on_el (style_clear "overflow") (body w)) w in
  configure_keyboard true w.

(** [showStoryLaneModal(agentId)].  The listener for the iframe's [load]
    event, which restyles the iframe once its content has arrived, is not
    part of the model. *)
Definition showStoryLaneModal (agentId : string) (w : world) : option world :=
  let w := closeStoryLaneModals w in
  let modalId := get_property modalMap agentId in
  if negb (truthy modalId) then Some w
  else
    match getElementById (to_string modalId) (body w) with
    | None => Some w
    | Some modal =>
        let w := log ("Opening modal for " +:+ agentId +:+ "...") w in
        let w := set_body (on_el (style_set "overflow" "hidden") (body w)) w in
        swapped ←
          (if storylaneUtils w then
             r ← swapPreloadedIframe agentId w;
             Some (r.1,
                   log ("Using preloaded frame: " +:+ to_string (Bool r.1)) r.2)
           else Some (false, w));
        let usedPreloadedFrame := swapped.1 in
        let w := swapped.2 in
        (* the swap works inside the modal, whose path it leaves as it is *)
        let w := set_body (alter_at (on_el (add_class "active")) modal (body w)) w in
        let w :=
          if negb usedPreloadedFrame then
            match find_below (λ e, String.eqb (tag e) "iframe") modal (body w) with
            | Some iframe =>
                set_body (alter_at (on_el (style_set "opacity" "0")) iframe (body w)) w
            | None => w
            end
          else w in
        Some (configure_keyboard false w)
    end.

(** The calls the page makes. *)
Inductive call :=
  | Preload (agentId : string)
  | Swap (agentId : string)
  | Activate (agentId : string)
  | Deactivate.

Definition run_call (c : call) (w : world) : option world :=
  match c with
  | Preload agentId => Some (preloadStorylaneDemos agentId w)
  | Swap agentId => snd <$> swapPreloadedIframe agentId w
  | Activate agentId => showStoryLaneModal agentId w
  | Deactivate => Some (closeStoryLaneModals w)
  end.

Fixpoint run_calls (cs : list call) (w : world) : option world :=
  match cs with
  | [] => Some w
  | c :: cs' => run_call c w ≫= run_calls cs'
  end.

(** A destination panel that is open: it matches [.storylane-modal.active],
    the selector of the Escape handler. *)
Definition is_open (e : element) : bool :=
  has_class "storylane-modal" e && has_class "active" e.

(** *** Notions for the statements *)

(** The own keys of the status object are agent keys: so it is written in the
    script, and so every call leaves it. *)
Definition status_keys_known (w : world) : Prop :=
  ∀ k, is_Some (storylanePreloadStatus w !! k) → k ∈ agent_keys.

(** The status object as the script creates it. *)
Definition initial_status : gmap string bool :=
  list_to_map [("po-agent", false); ("onboarding-agent", false);
               ("interview-agent", false); ("claim-agent", false)].

(** The node at [p] is an open panel. *)
Definition open_at (p : path) (doc : node) : Prop :=
  ∃ s, get p doc = Some s ∧ is_open (el s) = true.

Definition at_most_one_open (doc : node) : Prop :=
  ∀ p q, open_at p doc → open_at q doc → p = q.

Definition all_closed (doc : node) : Prop :=
  Forall (λ e, is_open e = false) (elements doc).

(** The element at [m] is a panel: it has the class [storylane-modal]. *)
Definition panel_at (m : path) (doc : node) : Prop :=
  ∃ e, el <$> get m doc = Some e ∧ has_class "storylane-modal" e = true.

(** The calls that open and close modals. *)
Definition modal_call (c : call) : Prop :=
  match c with
  | Activate _ | Deactivate => True
  | Preload _ | Swap _ => False
  end.

(** A frame as [preloadStorylaneDemos] attaches it: the first match of the
    selector is a child of the body, has no children and has the class name
    [storylane-preloader]. *)
Definition background_frame (agentId : string) (k : nat) (e : element)
    (doc : node) : Prop :=
  find_first (is_preloader agentId) doc = Some [k] ∧
  get [k] doc = Some (Node e []) ∧
  classes e = ["storylane-preloader"].

(** The inline style that [swapPreloadedIframe] gives to the clone. *)
Definition modal_style : list (string * string) :=
  [("position", "absolute"); ("top", "0"); ("left", "0"); ("width", "100%");
   ("height", "100%"); ("border", "none"); ("opacity", "1");
   ("pointerEvents", "auto"); ("zIndex", "1")].

(** [clone] is a copy of the frame [e] made visible: the tag and the id of
    [e], no children, the attributes of [e] but [aria-hidden] and
    [tabindex], the class name [sl-demo], and the inline style of [e] with
    the properties of [modal_style] set. *)
Definition visible_clone (e : element) (clone : node) : Prop :=
  tag (el clone) = tag e ∧ id (el clone) = id e ∧ children clone = [] ∧
  classes (el clone) = ["sl-demo"] ∧
  (∀ a, attrs (el clone) !! a =
        if bool_decide (a ∈ ["aria-hidden"; "tabindex"]) then None
        else attrs e !! a) ∧
  (∀ p, style (el clone) !! p =
        match (list_to_map modal_style : gmap string string) !! p with
        | Some v => Some v
        | None => style e !! p
        end).

(** A page with an agent card and the modals of two agents. *)
Definition div (i : option string) (cls : list string) (ks : list node) : node :=
  Node {| tag := "div"; id := i; classes := cls; attrs := ∅; style := ∅ |} ks.

Definition embed (src : string) : node :=
  Node {| tag := "iframe"; id := None; classes := ["sl-demo"];
          attrs := {["src" := src]}; style := ∅ |} [].

Definition modal (i src : string) : node :=
  div (Some i) ["storylane-modal"]
    [div None ["close-storylane"] []; div None ["sl-embed"] [embed src]].

Definition sample_world : world :=
  {| storylanePreloadStatus := initial_status;
     body := div None []
               [div None ["agent-card"] [];
                modal "storylane-modal-po"
                  "https://app.storylane.io/demo/d9xx3md7cyhg";
                modal "storylane-modal-claim"
                  "https://app.storylane.io/demo/1qaq6ksdkphn"];
     console := [];
     reveal_keyboard := Some true;
     storylaneUtils := true |}.

Definition preloaded_world : world := preloadStorylaneDemos "po-agent" sample_world.

Definition swapped_world : world :=
  from_option snd preloaded_world (swapPreloadedIframe "po-agent" preloaded_world).

(** An agent id with a double quote in it. *)
Definition quoted_key : string := "po" +:+ String (ascii_of_nat 34) "agent".

Definition claim_after_po : list call := [Activate "po-agent"; Activate "claim-agent"].

Definition world_after (cs : list call) : world :=
  default sample_world (run_calls cs sample_world).

(** *** Nodes and paths *)

Lemma node_induction (P : node → Prop) :
  (∀ e ks, Forall P ks → P (Node e ks)) → ∀ n, P n.
Proof.
  intros step. fix IH 1. intros [e ks]. apply step.
  induction ks as [|k ks IHks]; constructor; [apply IH | exact IHks].
Qed.

Lemma get_app p q n : get (p ++ q) n = get p n ≫= get q.
Proof.
  revert n. induction p as [|i p IH]; intros n; [done|].
  cbn. destruct (children n !! i); [apply IH | done].
Qed.

Lemma el_remove_at p n : el (remove_at p n) = el n.
Proof. destruct p as [|i [|j p]]; reflexivity. Qed.

Lemma get_alter_at_app f p q n :
  get p (alter_at f (p ++ q) n) = alter_at f q <$> get p n.
Proof.
  revert n. induction p as [|i p IH]; intros n; [done|].
  cbn. rewrite list_lookup_alter_eq.
  destruct (children n !! i); [apply IH | done].
Qed.

Lemma get_alter_at f p n : get p (alter_at f p n) = f <$> get p n.
Proof. rewrite <-(app_nil_r p) at 2. apply get_alter_at_app. Qed.

Lemma remove_at_cons i j p n :
  remove_at (i :: j :: p) n
  = Node (el n) (alter (remove_at (j :: p)) i (children n)).
Proof. reflexivity. Qed.

Lemma get_remove_at_app p q n :
  q ≠ [] → get p (remove_at (p ++ q) n) = remove_at q <$> get p n.
Proof.
  intros Hq. revert n. induction p as [|i p IH]; intros n; [done|].
  change ((i :: p) ++ q) with (i :: (p ++ q)).
  destruct (p ++ q) as [|j pq] eqn:Hpq.
  { by destruct p, q. }
  rewrite remove_at_cons. cbn [get children].
  rewrite list_lookup_alter_eq.
  destruct (children n !! i) as [k|]; [|done]. exact (IH k).
Qed.

Lemma get_alter_at_off f i p j q n :
  i ≠ j → get (j :: q) (alter_at f (i :: p) n) = get (j :: q) n.
Proof. intros Hij. cbn. by rewrite list_lookup_alter_ne. Qed.

Lemma get_remove_at_off i p j q n :
  i ≠ j → p ≠ [] → get (j :: q) (remove_at (i :: p) n) = get (j :: q) n.
Proof.
  intros Hij Hp. destruct p as [|k p]; [done|].
  rewrite remove_at_cons. cbn. by rewrite list_lookup_alter_ne.
Qed.

Lemma delete_lookup_shift (ks : list node) i j :
  i ≠ j →
  delete i ks !! (if (i <? j)%nat then pred j else j) = ks !! j.
Proof.
  intros Hij. destruct (i <? j)%nat eqn:Hlt.
  - apply Nat.ltb_lt in Hlt. rewrite list_lookup_delete_ge by lia.
    f_equal. lia.
  - apply Nat.ltb_ge in Hlt. apply list_lookup_delete_lt. lia.
Qed.

(** [relocate] follows the node: after the removal the node that was at [p]
    is at [relocate r p], with the same element. *)
Lemma relocate_tracks r p doc :
  ¬ r `prefix_of` p →
  el <$> get (relocate r p) (remove_at r doc) = el <$> get p doc.
Proof.
  revert p doc. induction r as [|i r IH]; intros p doc Hpre.
  { destruct Hpre. apply prefix_nil. }
  destruct p as [|j p]; [by destruct r|].
  destruct r as [|i' r].
  - assert (Hij : i ≠ j).
    { intros ->. apply Hpre. by apply prefix_cons, prefix_nil. }
    cbn [relocate remove_at].
    pose proof (delete_lookup_shift (children doc) i j Hij) as Hshift.
    destruct (i <? j)%nat; cbn [get children]; by rewrite Hshift.
  - cbn [relocate]. rewrite remove_at_cons.
    destruct (i =? j)%nat eqn:Hij.
    + apply Nat.eqb_eq in Hij as ->. cbn [get children].
      rewrite list_lookup_alter_eq.
      destruct (children doc !! j) as [k|]; [|done]. cbn.
      apply IH. intros Hp. apply Hpre. by apply prefix_cons.
    + apply Nat.eqb_neq in Hij. cbn [get children].
      by rewrite list_lookup_alter_ne.
Qed.

(** *** Searching *)

Lemma find_first_unfold P n :
  find_first P n = if P (el n) then Some [] else find_among P (children n) 0.
Proof.
  destruct n as [e ks]. cbn [find_first el children].
  destruct (P e); [done|]. generalize 0%nat.
  induction ks as [|k ks IH]; intros i; [done|].
  cbn. destruct (find_first P k); [done | apply IH].
Qed.

Lemma find_among_Some P ks i p :
  find_among P ks i = Some p →
  ∃ j q k, p = (i + j)%nat :: q ∧ ks !! j = Some k ∧ find_first P k = Some q ∧
    ∀ j' k', (j' < j)%nat → ks !! j' = Some k' → find_first P k' = None.
Proof.
  revert i. induction ks as [|k ks IH]; intros i Hfind; [done|].
  cbn in Hfind. destruct (find_first P k) as [q|] eqn:Hk.
  - injection Hfind as <-. exists 0%nat, q, k.
    rewrite Nat.add_0_r. repeat split; auto. intros; lia.
  - destruct (IH _ Hfind) as (j & q & k' & -> & Hj & Hq & Hbefore).
    exists (S j), q, k'. repeat split; auto.
    + f_equal. lia.
    + intros [|j'] k'' Hlt Hl; cbn in Hl; [by simplify_eq|].
      eapply Hbefore; [|exact Hl]. lia.
Qed.

Lemma find_first_Some P n p :
  find_first P n = Some p → ∃ s, get p n = Some s ∧ P (el s) = true.
Proof.
  revert p. induction n as [e ks IH] using node_induction. intros p.
  rewrite find_first_unfold. cbn [el children].
  destruct (P e) eqn:He.
  - intros [= <-]. by exists (Node e ks).
  - intros Hfind.
    destruct (find_among_Some _ _ _ _ Hfind) as (j & q & k & -> & Hj & Hq & _).
    rewrite Forall_lookup in IH. destruct (IH j k Hj q Hq) as (s & Hs & HP).
    exists s. split; [|done]. cbn. by rewrite Hj.
Qed.

Lemma find_among_None P ks i :
  find_among P ks i = None ↔ Forall (λ k, find_first P k = None) ks.
Proof.
  revert i. induction ks as [|k ks IH]; intros i; cbn.
  - split; [constructor | done].
  - destruct (find_first P k) eqn:Hk.
    + split; [done|]. intros H. inversion H. congruence.
    + rewrite IH. split; [by constructor | by inversion 1].
Qed.

Lemma find_first_None P n :
  find_first P n = None ↔ Forall (λ e, P e = false) (elements n).
Proof.
  induction n as [e ks IH] using node_induction.
  rewrite find_first_unfold. cbn [el children elements].
  rewrite Forall_cons. destruct (P e).
  - split; [done | intros [? _]; done].
  - rewrite find_among_None, Forall_concat, Forall_fmap.
    rewrite !Forall_lookup in *.
    split.
    + intros Hks. split; [done|]. intros j k Hj. cbn.
      apply (IH j k Hj). eauto.
    + intros [_ Hks] j k Hj. apply (IH j k Hj). apply (Hks j k Hj).
Qed.

Lemma find_below_Some P p n c :
  find_below P p n = Some c →
  ∃ q s, c = p ++ q ∧ q ≠ [] ∧ get c n = Some s ∧ P (el s) = true.
Proof.
  unfold find_below. destruct (get p n) as [t|] eqn:Ht; [|done].
  destruct (find_among P (children t) 0) as [q|] eqn:Hq; [|done].
  intros [= <-].
  destruct (find_among_Some _ _ _ _ Hq) as (j & q' & k & -> & Hj & Hq' & _).
  destruct (find_first_Some _ _ _ Hq') as (s & Hs & HP).
  exists ((0 + j)%nat :: q'), s. repeat split; [done | | done].
  rewrite get_app, Ht. cbn. by rewrite Hj.
Qed.

(** *** The elements of a tree *)

Lemma elements_map_elements f n :
  elements (map_elements f n) = map f (elements n).
Proof.
  induction n as [e ks IH] using node_induction. cbn. f_equal.
  induction IH as [|k ks Hk _ IHks]; [done|].
  cbn. rewrite map_app. by f_equal.
Qed.

Lemma Forall_elements_node Q e ks :
  Forall Q (elements (Node e ks)) ↔ Q e ∧ Forall (λ k, Forall Q (elements k)) ks.
Proof. cbn. by rewrite Forall_cons, Forall_concat, Forall_fmap. Qed.

Lemma Forall_elements Q n :
  Forall Q (elements n) ↔
  Q (el n) ∧ Forall (λ k, Forall Q (elements k)) (children n).
Proof. destruct n. apply Forall_elements_node. Qed.

Lemma Forall_elements_get Q p n s :
  get p n = Some s → Forall Q (elements n) → Forall Q (elements s).
Proof.
  revert n. induction p as [|i p IH]; intros n Hget Hn.
  - by injection Hget as <-.
  - cbn in Hget. destruct (children n !! i) as [k|] eqn:Hk; [|done].
    apply (IH k Hget). apply Forall_elements in Hn as [_ Hks].
    rewrite Forall_lookup in Hks. by apply (Hks i).
Qed.

Lemma Forall_elements_el Q p n s :
  get p n = Some s → Forall Q (elements n) → Q (el s).
Proof.
  intros Hget Hn. apply (Forall_elements_get Q p n s Hget) in Hn.
  by apply Forall_elements in Hn as [He _].
Qed.

Lemma Forall_elements_alter_at Q f p n :
  (∀ s, Forall Q (elements s) → Forall Q (elements (f s))) →
  Forall Q (elements n) → Forall Q (elements (alter_at f p n)).
Proof.
  intros Hf. revert n. induction p as [|i p IH]; intros n Hn; [by apply Hf|].
  cbn [alter_at]. apply Forall_elements in Hn as [He Hks].
  apply Forall_elements_node. split; [done|].
  rewrite Forall_lookup in Hks. apply Forall_lookup. intros j k.
  rewrite list_lookup_alter. case_decide as Hij.
  - subst j. destruct (children n !! i) as [k'|] eqn:Hk; [|done].
    intros [= <-]. apply IH. by apply (Hks i).
  - apply Hks.
Qed.

Lemma Forall_elements_remove_at Q p n :
  Forall Q (elements n) → Forall Q (elements (remove_at p n)).
Proof.
  revert n. induction p as [|i p IH]; intros n Hn; [done|].
  apply Forall_elements in Hn as [He Hks].
  destruct p as [|j p].
  - apply Forall_elements_node. split; [done|]. by apply Forall_delete.
  - rewrite remove_at_cons. apply Forall_elements_node. split; [done|].
    rewrite Forall_lookup in Hks. apply Forall_lookup. intros j' k.
    rewrite list_lookup_alter. case_decide as Hij.
    + subst j'. destruct (children n !! i) as [k'|] eqn:Hk; [|done].
      intros [= <-]. apply IH. by apply (Hks i).
    + apply Hks.
Qed.

Lemma Forall_elements_on_el Q g n :
  (∀ e, Q e → Q (g e)) →
  Forall Q (elements n) → Forall Q (elements (on_el g n)).
Proof.
  intros Hg Hn. apply Forall_elements in Hn as [He Hks].
  apply Forall_elements_node. auto.
Qed.

Lemma Forall_elements_appendChild Q child n :
  Forall Q (elements child) →
  Forall Q (elements n) → Forall Q (elements (appendChild child n)).
Proof.
  intros Hc Hn. apply Forall_elements in Hn as [He Hks].
  apply Forall_elements_node. split; [done|].
  apply Forall_app. split; [done | by constructor].
Qed.

(** *** Preloading *)

Lemma unknown_key_ne k :
  k ∉ agent_keys →
  k ≠ "po-agent" ∧ k ≠ "onboarding-agent" ∧ k ≠ "interview-agent" ∧
  k ≠ "claim-agent".
Proof. unfold agent_keys. rewrite !not_elem_of_cons. tauto. Qed.

Lemma storylaneUrls_unknown k : k ∉ agent_keys → storylaneUrls !! k = None.
Proof.
  intros (H1 & H2 & H3 & H4)%unknown_key_ne. unfold storylaneUrls. cbn.
  by rewrite !lookup_insert_ne.
Qed.

Lemma modalMap_unknown k : k ∉ agent_keys → modalMap !! k = None.
Proof.
  intros (H1 & H2 & H3 & H4)%unknown_key_ne. unfold modalMap. cbn.
  by rewrite !lookup_insert_ne.
Qed.

Lemma storylaneUrls_known k :
  k ∈ agent_keys → ∃ u, storylaneUrls !! k = Some (Str u) ∧ truthy (Str u) = true.
Proof.
  unfold agent_keys. rewrite !elem_of_cons, elem_of_nil.
  intros [-> | [-> | [-> | [-> | []]]]]; eexists; split; reflexivity.
Qed.

Lemma known_key_truthy k : k ∈ agent_keys → truthy (Str k) = true.
Proof.
  unfold agent_keys. rewrite !elem_of_cons, elem_of_nil.
  intros [-> | [-> | [-> | [-> | []]]]]; reflexivity.
Qed.

Lemma status_of_unknown w k :
  status_keys_known w → k ∉ agent_keys → status_of w k = inherited k.
Proof.
  intros Hwf Hk. unfold status_of, get_property. rewrite lookup_fmap.
  destruct (storylanePreloadStatus w !! k) eqn:Hs; [|done].
  destruct Hk. apply Hwf. by rewrite Hs.
Qed.

Lemma preload_skips_loaded agentId w :
  truthy (status_of w agentId) = true → preloadStorylaneDemos agentId w = w.
Proof.
  intros H. unfold preloadStorylaneDemos. rewrite H. by rewrite orb_true_r.
Qed.

Lemma preload_attaches agentId w :
  agentId ∈ agent_keys → truthy (status_of w agentId) = false →
  preloadStorylaneDemos agentId w =
  set_status (<[agentId := true]> (storylanePreloadStatus w))
    (set_body
       (appendChild
          (Node (preloadFrame agentId (get_property storylaneUrls agentId)) [])
          (body w))
       (log ("Preloading Storylane demo for " +:+ agentId +:+ "...") w)).
Proof.
  intros Hk Hs. unfold preloadStorylaneDemos.
  rewrite Hs, (known_key_truthy _ Hk). cbn [negb orb].
  destruct (storylaneUrls_known _ Hk) as (u & Hu & Htruthy).
  unfold get_property. rewrite Hu, Htruthy. reflexivity.
Qed.

Lemma status_of_loaded agentId w :
  storylanePreloadStatus w !! agentId = Some true →
  truthy (status_of w agentId) = true.
Proof.
  intros H. unfold status_of, get_property. by rewrite lookup_fmap, H.
Qed.

(** A key outside the four either is a name that every object inherits, and
    then the first guard returns, or has no URL. *)
Lemma preload_unknown_noop agentId w :
  agentId ∉ agent_keys → status_keys_known w →
  preloadStorylaneDemos agentId w = w.
Proof.
  intros Hk Hwf. unfold preloadStorylaneDemos.
  rewrite (status_of_unknown w agentId Hwf Hk).
  destruct (truthy (inherited agentId)) eqn:Hin.
  - by rewrite orb_true_r.
  - unfold get_property. rewrite (storylaneUrls_unknown _ Hk), Hin.
    by destruct (negb (truthy (Str agentId))).
Qed.

Lemma preload_keeps_known_keys agentId w :
  status_keys_known w → status_keys_known (preloadStorylaneDemos agentId w).
Proof.
  intros Hwf. destruct (decide (agentId ∈ agent_keys)) as [Hk|Hk].
  - destruct (truthy (status_of w agentId)) eqn:Hs.
    + by rewrite preload_skips_loaded.
    + rewrite preload_attaches by done. intros k. cbn.
      rewrite lookup_insert. case_decide; [by subst | apply Hwf].
  - by rewrite preload_unknown_noop.
Qed.

Lemma swap_status agentId w used w' :
  swapPreloadedIframe agentId w = Some (used, w') →
  storylanePreloadStatus w' = storylanePreloadStatus w.
Proof.
  unfold swapPreloadedIframe. destruct (selector_plain agentId); [|done].
  destruct (swap agentId (body w)). by intros [= _ <-].
Qed.

Lemma show_status agentId w w' :
  showStoryLaneModal agentId w = Some w' →
  storylanePreloadStatus w' = storylanePreloadStatus w.
Proof.
  unfold showStoryLaneModal.
  destruct (negb (truthy (get_property modalMap agentId))); [by intros [= <-]|].
  destruct (getElementById _ _) as [m|]; [|by intros [= <-]].
  cbn [storylaneUtils log set_body closeStoryLaneModals configure_keyboard].
  destruct (storylaneUtils w).
  - destruct (swapPreloadedIframe agentId _) as [[used w1]|] eqn:Hswap; [|done].
    apply swap_status in Hswap. cbn in Hswap. cbn.
    intros [= <-]. rewrite <-Hswap. by destruct used; repeat case_match.
  - cbn. intros [= <-]. by repeat case_match.
Qed.

Lemma run_call_status c w w' k :
  run_call c w = Some w' →
  storylanePreloadStatus w !! k = Some true →
  storylanePreloadStatus w' !! k = Some true.
Proof.
  destruct c as [agentId|agentId|agentId|]; cbn.
  - intros [= <-] Hk. unfold preloadStorylaneDemos.
    repeat case_match; try done. cbn.
    rewrite lookup_insert. by case_decide.
  - destruct (swapPreloadedIframe agentId w) as [[used w1]|] eqn:Hswap; [|done].
    intros [= <-]. by rewrite (swap_status _ _ _ _ Hswap).
  - intros Hshow. by rewrite (show_status _ _ _ Hshow).
  - by intros [= <-].
Qed.

(** C8.  For an [agentId] that is not one of the four agent keys,
    [preloadStorylaneDemos] returns the page as it is: no frame is created or
    attached, no key is marked, nothing is logged, and the function returns
    normally.  The status object holds agent keys only, as it does from the
    start and after every call. *)
Theorem preload_unknown_key (agentId : string) (w : world) :
  agentId ∉ agent_keys → status_keys_known w →
  preloadStorylaneDemos agentId w = w ∧
  body (preloadStorylaneDemos agentId w) = body w ∧
  storylanePreloadStatus (preloadStorylaneDemos agentId w)
    = storylanePreloadStatus w ∧
  console (preloadStorylaneDemos agentId w) = console w.
Proof.
  intros Hk Hwf. by rewrite preload_unknown_noop.
Qed.

(** C3.  For an agent key, the first call of [preloadStorylaneDemos] leaves
    the key's flag [true], and a second call returns the page unchanged; from
    a key that is not loaded yet the two calls together append exactly one
    frame to the body.  No call of the page, whichever it is, takes a flag
    from [true] to anything else. *)
Theorem preload_idempotent :
  (∀ (agentId : string) (w : world),
     agentId ∈ agent_keys →
     let w1 := preloadStorylaneDemos agentId w in
     storylanePreloadStatus w1 !! agentId = Some true ∧
     preloadStorylaneDemos agentId w1 = w1 ∧
     (storylanePreloadStatus w !! agentId ≠ Some true →
      children (body (preloadStorylaneDemos agentId w1)) =
      children (body w) ++
      [Node (preloadFrame agentId (get_property storylaneUrls agentId)) []])) ∧
  (∀ (c : call) (w w' : world) (k : string),
     run_call c w = Some w' →
     storylanePreloadStatus w !! k = Some true →
     storylanePreloadStatus w' !! k = Some true).
Proof.
  split; [|exact run_call_status].
  intros agentId w Hk w1.
  assert (Hloaded : storylanePreloadStatus w1 !! agentId = Some true).
  { unfold w1. destruct (truthy (status_of w agentId)) eqn:Hs.
    - rewrite preload_skips_loaded by done.
      unfold status_of, get_property in Hs. rewrite lookup_fmap in Hs.
      destruct (storylanePreloadStatus w !! agentId) as [[]|]; [done | done |].
      cbn in Hs. unfold inherited in Hs.
      revert Hk Hs. unfold agent_keys. rewrite !elem_of_cons, elem_of_nil.
      by intros [-> | [-> | [-> | [-> | []]]]].
    - rewrite preload_attaches by done. cbn. apply lookup_insert_eq. }
  assert (Hagain : preloadStorylaneDemos agentId w1 = w1)
    by by apply preload_skips_loaded, status_of_loaded.
  split; [done|]. split; [done|].
  intros Hnot. rewrite Hagain. unfold w1.
  rewrite preload_attaches; [by destruct (body w)| done |].
  unfold status_of, get_property. rewrite lookup_fmap.
  destruct (storylanePreloadStatus w !! agentId) as [[]|]; [done | done |].
  cbn. unfold inherited.
  revert Hk. unfold agent_keys. rewrite !elem_of_cons, elem_of_nil.
  by intros [-> | [-> | [-> | [-> | []]]]].
Qed.

(** *** Opening and closing modals *)

Lemma all_closed_not_open doc p : all_closed doc → ¬ open_at p doc.
Proof.
  intros Hclosed (s & Hs & Hopen).
  pose proof (Forall_elements_el _ p doc s Hs Hclosed) as Hno. cbn in Hno.
  congruence.
Qed.

Lemma is_open_style g e : classes (g e) = classes e → is_open (g e) = is_open e.
Proof. intros H. unfold is_open, has_class. by rewrite H. Qed.

Lemma closed_after_close w : all_closed (body (closeStoryLaneModals w)).
Proof.
  unfold closeStoryLaneModals, all_closed. cbn [body set_body configure_keyboard].
  apply Forall_elements_on_el.
  { intros e He. by rewrite is_open_style. }
  rewrite elements_map_elements. apply Forall_fmap, Forall_true. intros e. cbn.
  unfold is_open. destruct (has_class "storylane-modal" e) eqn:Hm.
  - unfold has_class, remove_class. cbn. rewrite ClassList.contains_remove.
    apply andb_false_r.
  - by rewrite Hm.
Qed.

Lemma clone_closed frame : all_closed frame → all_closed (clone_for_modal frame).
Proof.
  unfold all_closed, clone_for_modal. intros H.
  apply Forall_elements in H as [_ Hks]. apply Forall_elements_node.
  split; [reflexivity | exact Hks].
Qed.

Lemma after_removal_closed r p doc frame :
  all_closed doc → after_removal r p doc = Some frame → all_closed frame.
Proof.
  unfold after_removal, all_closed. intros Hdoc.
  case_bool_decide; intros Hget.
  - by eapply Forall_elements_get.
  - eapply Forall_elements_get; [exact Hget|]. by apply Forall_elements_remove_at.
Qed.

Lemma swap_closed agentId doc : all_closed doc → all_closed (swap agentId doc).2.
Proof.
  intros Hdoc. unfold swap.
  destruct (find_first (is_preloader agentId) doc) as [pre|]; [|done].
  destruct (negb (truthy (get_property modalMap agentId))); [done|].
  destruct (getElementById _ doc) as [m|]; [|done].
  destruct (find_below (has_class "sl-embed") m doc) as [c|]; [|done].
  destruct (find_below _ c doc) as [r|]; cbn [from_option].
  - destruct (after_removal r pre doc) as [frame|] eqn:Hframe; [|done]. cbn.
    apply Forall_elements_alter_at.
    + intros s Hs. apply Forall_elements_appendChild; [|done].
      apply (clone_closed frame).
      exact (after_removal_closed r pre doc frame Hdoc Hframe).
    + by apply Forall_elements_remove_at.
  - destruct (get pre doc) as [frame|] eqn:Hframe; [|done]. cbn.
    apply Forall_elements_alter_at; [|done].
    intros s Hs. apply Forall_elements_appendChild; [|done].
    apply (clone_closed frame).
    exact (Forall_elements_get _ pre doc frame Hframe Hdoc).
Qed.

Lemma find_first_on_el P g n :
  (∀ e, P (g e) = P e) → find_first P (on_el g n) = find_first P n.
Proof. intros Hg. rewrite !find_first_unfold. cbn. by rewrite Hg. Qed.

Lemma el_alter_at_below f q n : q ≠ [] → el (alter_at f q n) = el n.
Proof. by destruct q. Qed.

Lemma el_get_alter_on_el g m p n :
  el <$> get p (alter_at (on_el g) m n)
  = (if decide (p = m) then g else λ e, e) <$> (el <$> get p n).
Proof.
  revert m n. induction p as [|i p IH]; intros m n.
  - destruct m as [|j m]; cbn; by case_decide.
  - destruct m as [|j m].
    + cbn. case_decide; [done|]. by rewrite option_fmap_id.
    + cbn [alter_at get children]. rewrite list_lookup_alter.
      destruct (decide (j = i)) as [->|Hji].
      * destruct (children n !! i) as [k|]; cbn.
        -- rewrite IH. by repeat case_decide; simplify_eq.
        -- done.
      * case_decide; [by simplify_eq|]. by rewrite option_fmap_id.
Qed.

Lemma getElementById_found i doc m :
  getElementById i doc = Some m →
  ∃ s, get m doc = Some s ∧ id (el s) = Some i.
Proof.
  unfold getElementById. destruct (String.eqb i ""); [done|].
  intros (s & Hs & Hid)%find_first_Some. exists s. split; [done|].
  by apply bool_decide_eq_true in Hid.
Qed.

(** The swap changes the document strictly below the modal. *)
Lemma swap_keeps_modal agentId doc m :
  getElementById (to_string (get_property modalMap agentId)) doc = Some m →
  el <$> get m (swap agentId doc).2 = el <$> get m doc.
Proof.
  intros Hm. unfold swap.
  destruct (find_first (is_preloader agentId) doc) as [pre|]; [|done].
  destruct (negb (truthy (get_property modalMap agentId))); [done|].
  rewrite Hm.
  destruct (find_below (has_class "sl-embed") m doc) as [c|] eqn:Hc; [|done].
  destruct (find_below_Some _ _ _ _ Hc) as (q & _ & -> & Hq & _).
  assert (Happend : ∀ f d, el <$> get m (alter_at f (m ++ q) d) = el <$> get m d).
  { intros f d. rewrite get_alter_at_app. destruct (get m d); [|done].
    cbn. by rewrite el_alter_at_below. }
  destruct (find_below _ (m ++ q) doc) as [r|] eqn:Hr; cbn [from_option].
  - destruct (after_removal r pre doc) as [frame|]; [|done]. cbn [snd].
    rewrite Happend.
    destruct (find_below_Some _ _ _ _ Hr) as (q' & _ & -> & Hq' & _).
    rewrite <-(assoc_L (++)), get_remove_at_app by by destruct q.
    destruct (get m doc); [|done]. cbn. by rewrite el_remove_at.
  - destruct (get pre doc) as [frame|]; [|done]. cbn [snd]. apply Happend.
Qed.

Lemma modal_key_plain agentId :
  truthy (get_property modalMap agentId) = true → selector_plain agentId = true.
Proof.
  destruct (decide (agentId ∈ agent_keys)) as [Hk|Hk].
  - revert Hk. unfold agent_keys. rewrite !elem_of_cons, elem_of_nil.
    by intros [-> | [-> | [-> | [-> | []]]]].
  - unfold get_property. rewrite (modalMap_unknown _ Hk). unfold inherited.
    destruct (String.eqb agentId "constructor") eqn:H1.
    { apply String.eqb_eq in H1 as ->. done. }
    destruct (String.eqb agentId "__proto__") eqn:H2.
    { apply String.eqb_eq in H2 as ->. done. }
    case_bool_decide as H3; [|done].
    revert H3. unfold prototype_methods. rewrite !elem_of_cons, elem_of_nil.
    intros H3 _. repeat (destruct H3 as [-> | H3]; [done|]). done.
Qed.

(** The document after [modal.classList.add('active')] and the optional
    restyling of the modal's iframe: an open panel can only be the modal. *)
Lemma open_only_at (doc : node) (m : path) (i : string) (g : element → element)
    (f : path) (p : path) (s : node) :
  all_closed doc →
  (∀ s2, get m doc = Some s2 → id (el s2) = Some i) →
  (∀ e, classes (g e) = classes e ∧ id (g e) = id e) →
  get p (alter_at (on_el g) f (alter_at (on_el (add_class "active")) m doc))
    = Some s →
  is_open (el s) = true →
  p = m ∧ id (el s) = Some i.
Proof.
  intros Hclosed Hid Hg Hget Hopen.
  assert (Hel : el <$> get p
            (alter_at (on_el g) f (alter_at (on_el (add_class "active")) m doc))
          = Some (el s)) by by rewrite Hget.
  rewrite !el_get_alter_on_el in Hel.
  destruct (get p doc) as [s2|] eqn:Hs2; [|done]. cbn in Hel.
  injection Hel as Hel.
  assert (Hs : classes (el s) =
                 classes ((if decide (p = m) then add_class "active"
                           else λ e, e) (el s2)) ∧
               id (el s) = id (el s2)).
  { rewrite <-Hel. destruct (decide (p = f)), (decide (p = m));
      by rewrite ?(proj1 (Hg _)), ?(proj2 (Hg _)). }
  destruct Hs as [Hcls Hids].
  destruct (decide (p = m)) as [->|Hne].
  - split; [done|]. rewrite Hids. by apply Hid.
  - exfalso. pose proof (Forall_elements_el _ p doc s2 Hs2 Hclosed) as Hno.
    cbn in Hno. unfold is_open, has_class in *. rewrite Hcls in Hopen. congruence.
Qed.

Lemma alter_at_same n m : alter_at (on_el (λ e, e)) m n = n.
Proof.
  revert n. induction m as [|i m IH]; intros [e ks]; [done|].
  cbn. f_equal. apply list_alter_id. intros k. apply IH.
Qed.

Lemma show_open agentId w w' :
  showStoryLaneModal agentId w = Some w' →
  ∃ m, ∀ p s, get p (body w') = Some s → is_open (el s) = true →
    p = m ∧ id (el s) = Some (to_string (get_property modalMap agentId)).
Proof.
  unfold showStoryLaneModal.
  pose proof (closed_after_close w) as Hclosed.
  set (w0 := closeStoryLaneModals w) in *.
  assert (Hnone : ∀ m p s, get p (body w0) = Some s → is_open (el s) = true →
            p = m ∧ id (el s) = Some (to_string (get_property modalMap agentId))).
  { intros m p s Hs Ho. destruct (all_closed_not_open _ p Hclosed). by exists s. }
  destruct (negb (truthy (get_property modalMap agentId))).
  { intros [= <-]. exists []. apply Hnone. }
  destruct (getElementById _ (body w0)) as [m|] eqn:Hm.
  2:{ intros [= <-]. exists []. apply Hnone. }
  intros Hshow. exists m. revert Hshow.
  set (doc1 := on_el (style_set "overflow" "hidden") (body w0)).
  assert (Hclosed1 : all_closed doc1).
  { apply Forall_elements_on_el; [|done]. intros e He. by rewrite is_open_style. }
  assert (Hm1 : getElementById (to_string (get_property modalMap agentId)) doc1
                = Some m).
  { revert Hm. unfold getElementById. destruct (String.eqb _ ""); [done|].
    unfold doc1. by rewrite find_first_on_el. }
  destruct (getElementById_found _ _ _ Hm1) as (s1 & Hs1 & Hid1).
  assert (Hmain : ∀ used doc2,
            all_closed doc2 → el <$> get m doc2 = el <$> get m doc1 →
            ∀ p s,
              get p (body
                (let w := set_body (alter_at (on_el (add_class "active")) m doc2)
                            (set_body doc2 w0) in
                 if negb used then
                   match find_below (λ e, String.eqb (tag e) "iframe") m (body w) with
                   | Some iframe =>
                       set_body
                         (alter_at (on_el (style_set "opacity" "0")) iframe (body w)) w
                   | None => w
                   end
                 else w)) = Some s →
              is_open (el s) = true →
              p = m ∧ id (el s) = Some (to_string (get_property modalMap agentId))).
  { intros used doc2 Hclosed2 Hel2 p s.
    assert (Hid2 : ∀ s2, get m doc2 = Some s2 →
              id (el s2) = Some (to_string (get_property modalMap agentId))).
    { intros s2 Hs2. rewrite Hs2, Hs1 in Hel2. cbn in Hel2. congruence. }
    cbn zeta. destruct used; cbn [negb body set_body].
    - rewrite <-(alter_at_same (alter_at _ m doc2) []).
      by apply open_only_at.
    - destruct (find_below _ m _) as [f|]; cbn [body set_body].
      + by apply open_only_at.
      + rewrite <-(alter_at_same (alter_at _ m doc2) []).
        by apply open_only_at. }
  cbn [storylaneUtils log set_body].
  destruct (storylaneUtils w0) eqn:Hutils.
  - unfold swapPreloadedIframe. destruct (selector_plain agentId); [|done].
    cbn [body set_body log].
    fold doc1. destruct (swap agentId doc1) as [used doc2] eqn:Hswap.
    cbn. intros [= <-]. cbn [body configure_keyboard].
    intros p s.
    pose proof (Hmain used doc2) as Hfinal.
    assert (Hc2 : all_closed doc2).
    { pose proof (swap_closed agentId doc1 Hclosed1) as H. by rewrite Hswap in H. }
    assert (He2 : el <$> get m doc2 = el <$> get m doc1).
    { pose proof (swap_keeps_modal agentId doc1 m Hm1) as H. by rewrite Hswap in H. }
    specialize (Hfinal Hc2 He2 p s). revert Hfinal.
    destruct used; cbn [negb body set_body log]; [done|].
    by destruct (find_below _ m _).
  - cbn. intros [= <-]. cbn [body configure_keyboard].
    intros p s. pose proof (Hmain false doc1 Hclosed1 eq_refl p s) as Hfinal.
    revert Hfinal. cbn [negb body set_body log].
    by destruct (find_below _ m _).
Qed.

Lemma show_total agentId w : is_Some (showStoryLaneModal agentId w).
Proof.
  unfold showStoryLaneModal.
  destruct (truthy (get_property modalMap agentId)) eqn:Htruthy; [|by eexists].
  cbn [negb]. destruct (getElementById _ _) as [m|]; [|by eexists].
  cbn [storylaneUtils log set_body]. destruct (storylaneUtils _); [|by eexists].
  unfold swapPreloadedIframe. rewrite (modal_key_plain _ Htruthy).
  destruct (swap agentId _). by eexists.
Qed.

Lemma run_calls_app cs cs' w :
  run_calls (cs ++ cs') w = run_calls cs w ≫= run_calls cs'.
Proof.
  revert w. induction cs as [|c cs IH]; intros w; [done|].
  cbn. destruct (run_call c w); [apply IH | done].
Qed.

Lemma run_call_one_open c w w' :
  modal_call c → run_call c w = Some w' → at_most_one_open (body w').
Proof.
  destruct c as [| |agentId|]; cbn; try done; intros _.
  - intros (m & Hm)%show_open p q (s1 & Hs1 & Ho1) (s2 & Hs2 & Ho2).
    destruct (Hm _ _ Hs1 Ho1) as [-> _]. by destruct (Hm _ _ Hs2 Ho2) as [-> _].
  - intros [= <-] p q Hp. destruct (all_closed_not_open _ p (closed_after_close w) Hp).
Qed.

(** What [closeStoryLaneModals] does to an element with the class
    [storylane-modal]. *)
Definition deactivate (modal : element) : element :=
  if has_class "storylane-modal" modal then remove_class "active" modal else modal.

Lemma close_body w :
  body (closeStoryLaneModals w)
  = on_el (style_clear "overflow") (map_elements deactivate (body w)).
Proof. reflexivity. Qed.

Lemma map_elements_idem f n :
  (∀ e, f (f e) = f e) → map_elements f (map_elements f n) = map_elements f n.
Proof.
  intros Hf. induction n as [e ks IH] using node_induction.
  cbn. rewrite Hf. f_equal.
  induction IH as [|k ks Hk _ IHks]; [done|]. cbn. by f_equal.
Qed.

Lemma find_among_map P f ks i :
  Forall (λ k, find_first P (map_elements f k) = find_first P k) ks →
  find_among P (map (map_elements f) ks) i = find_among P ks i.
Proof.
  intros Hks. revert i. induction Hks as [|k ks Hk _ IH]; intros i; [done|].
  cbn. rewrite Hk. destruct (find_first P k); [done | apply IH].
Qed.

(** A search that the change of the elements does not see. *)
Lemma find_first_map_elements P f n :
  (∀ e, P (f e) = P e) → find_first P (map_elements f n) = find_first P n.
Proof.
  intros Hf. induction n as [e ks IH] using node_induction.
  rewrite !find_first_unfold. cbn [map_elements el children]. rewrite Hf.
  destruct (P e); [done|]. by apply find_among_map.
Qed.

Lemma deactivate_idem e : deactivate (deactivate e) = deactivate e.
Proof.
  unfold deactivate. destruct (has_class "storylane-modal" e) eqn:Hm; [|by rewrite Hm].
  assert (has_class "storylane-modal" (remove_class "active" e) = true) as ->.
  { unfold has_class, remove_class. cbn.
    by rewrite ClassList.contains_remove_ne. }
  unfold remove_class, set_classes. cbn. f_equal.
  unfold ClassList.remove. rewrite list_filter_filter.
  apply list_filter_iff. intros x. tauto.
Qed.

Lemma deactivate_style g e :
  deactivate (set_style g e) = set_style g (deactivate e).
Proof. unfold deactivate, has_class. cbn. by destruct (ClassList.contains _ _). Qed.

Lemma deactivate_id e : id (deactivate e) = id e.
Proof. unfold deactivate. by destruct (has_class _ _). Qed.

Lemma el_get_map_elements f p n :
  el <$> get p (map_elements f n) = f <$> (el <$> get p n).
Proof.
  revert n. induction p as [|i p IH]; intros [e ks]; [done|].
  cbn [map_elements get children].
  change (map ?g ks) with (g <$> ks). rewrite list_lookup_fmap.
  destruct (ks !! i) as [k|]; [apply IH | done].
Qed.

Lemma panel_at_on_el g f m doc :
  (∀ e, classes (g e) = classes e) →
  panel_at m doc → panel_at m (alter_at (on_el g) f doc).
Proof.
  intros Hg (e & He & Hc). unfold panel_at. rewrite el_get_alter_on_el, He. cbn.
  case_decide; eexists; (split; [done|]); [|done].
  unfold has_class. by rewrite Hg.
Qed.

Lemma panel_at_close m w :
  panel_at m (body w) → panel_at m (body (closeStoryLaneModals w)).
Proof.
  intros (e & He & Hc). rewrite close_body.
  apply (panel_at_on_el _ [] m); [done|].
  exists (deactivate e). rewrite el_get_map_elements, He. split; [done|].
  unfold deactivate. rewrite Hc. unfold has_class, remove_class. cbn.
  by rewrite ClassList.contains_remove_ne.
Qed.

(** [showStoryLaneModal] opens the panel of its key. *)
Lemma show_opens agentId w w' m :
  showStoryLaneModal agentId w = Some w' →
  truthy (get_property modalMap agentId) = true →
  getElementById (to_string (get_property modalMap agentId)) (body w) = Some m →
  panel_at m (body w) →
  open_at m (body w').
Proof.
  intros Hshow Htruthy Hm Hpanel.
  set (i := to_string (get_property modalMap agentId)) in *.
  apply panel_at_close in Hpanel.
  assert (Hm0 : getElementById i (body (closeStoryLaneModals w)) = Some m).
  { rewrite close_body. revert Hm. unfold getElementById.
    destruct (String.eqb i ""); [done|].
    rewrite find_first_on_el by done.
    rewrite find_first_map_elements; [done|]. intros e. by rewrite deactivate_id. }
  revert Hshow. unfold showStoryLaneModal.
  set (w0 := closeStoryLaneModals w) in *. fold i.
  rewrite Htruthy. cbn [negb]. rewrite Hm0.
  cbn [storylaneUtils log set_body].
  set (doc1 := on_el (style_set "overflow" "hidden") (body w0)).
  assert (Hp1 : panel_at m doc1) by by apply (panel_at_on_el _ [] m).
  assert (Hm1 : getElementById i doc1 = Some m).
  { revert Hm0. unfold getElementById. destruct (String.eqb _ ""); [done|].
    unfold doc1. by rewrite find_first_on_el. }
  assert (Hmain : ∀ used doc2,
            panel_at m doc2 →
            open_at m (body
                (let w := set_body (alter_at (on_el (add_class "active")) m doc2)
                            (set_body doc2 w0) in
                 if negb used then
                   match find_below (λ e, String.eqb (tag e) "iframe") m (body w) with
                   | Some iframe =>
                       set_body
                         (alter_at (on_el (style_set "opacity" "0")) iframe (body w)) w
                   | None => w
                   end
                 else w))).
  { intros used doc2 (e & He & Hc).
    assert (Hopen : ∀ g f, (∀ e, classes (g e) = classes e) →
              open_at m (alter_at (on_el g) f
                           (alter_at (on_el (add_class "active")) m doc2))).
    { intros g f Hg.
      pose proof (el_get_alter_on_el g f m
                    (alter_at (on_el (add_class "active")) m doc2)) as Hel.
      rewrite (el_get_alter_on_el (add_class "active") m m doc2), He in Hel.
      cbn in Hel.
      rewrite (decide_True (P := m = m)) in Hel by done. unfold open_at.
      destruct (get m (alter_at _ f _)) as [s'|]; [|done].
      exists s'. split; [done|]. cbn in Hel. injection Hel as ->.
      unfold is_open, has_class in *.
      assert (classes ((if decide (m = f) then g else λ e0, e0)
                         (add_class "active" e))
              = classes (add_class "active" e)) as ->.
      { case_decide; [apply Hg | done]. }
      cbn. rewrite ClassList.contains_add.
      rewrite ClassList.contains_add_ne by done. by rewrite Hc. }
    cbn zeta. destruct used; cbn [negb body set_body].
    - rewrite <-(alter_at_same (alter_at _ m doc2) []). by apply Hopen.
    - destruct (find_below _ m _) as [f|]; cbn [body set_body].
      + by apply Hopen.
      + rewrite <-(alter_at_same (alter_at _ m doc2) []). by apply Hopen. }
  destruct (storylaneUtils w0) eqn:Hutils.
  - unfold swapPreloadedIframe. destruct (selector_plain agentId); [|done].
    cbn [body set_body log].
    fold doc1. destruct (swap agentId doc1) as [used doc2] eqn:Hswap.
    cbn. intros [= <-]. cbn [body configure_keyboard].
    assert (Hp2 : panel_at m doc2).
    { pose proof (swap_keeps_modal agentId doc1 m Hm1) as H.
      rewrite Hswap in H. cbn in H. unfold panel_at. by rewrite H. }
    pose proof (Hmain used doc2 Hp2) as Hfinal. revert Hfinal.
    destruct used; cbn [negb body set_body log]; [done|].
    by destruct (find_below _ m _).
  - cbn. intros [= <-]. cbn [body configure_keyboard].
    pose proof (Hmain false doc1 Hp1) as Hfinal.
    revert Hfinal. cbn [negb body set_body log].
    by destruct (find_below _ m _).
Qed.

(** C4.  A panel is open when it has the classes [storylane-modal] and
    [active].  Every sequence of [showStoryLaneModal] and
    [closeStoryLaneModals] calls runs to its end; after each call of it at
    most one panel of the document is open; after [activate x] followed by
    [activate y] every open panel carries the id of [y]'s modal; and when
    [y] has a modal id and the element with that id is a panel at the time
    of [activate y], then after [activate x] followed by [activate y] that
    panel is open and no other is. *)
Theorem one_panel_open :
  (∀ (cs : list call) (w : world),
     Forall modal_call cs → is_Some (run_calls cs w)) ∧
  (∀ (cs : list call) (c : call) (w w' : world),
     Forall modal_call (cs ++ [c]) →
     run_calls (cs ++ [c]) w = Some w' →
     at_most_one_open (body w')) ∧
  (∀ (x y : string) (w w' : world),
     run_calls [Activate x; Activate y] w = Some w' →
     ∀ p s, get p (body w') = Some s → is_open (el s) = true →
       id (el s) = Some (to_string (get_property modalMap y))) ∧
  (∀ (x y : string) (w w1 w' : world) (m : path),
     showStoryLaneModal x w = Some w1 →
     showStoryLaneModal y w1 = Some w' →
     truthy (get_property modalMap y) = true →
     getElementById (to_string (get_property modalMap y)) (body w1) = Some m →
     panel_at m (body w1) →
     run_calls [Activate x; Activate y] w = Some w' ∧
     open_at m (body w') ∧ ∀ p, open_at p (body w') → p = m).
Proof.
  split; [|split; [|split]].
  - intros cs w Hcs. revert w. induction Hcs as [|c cs Hc _ IH]; intros w.
    + by eexists.
    + cbn. destruct c as [| |agentId|]; try done; cbn.
      * destruct (show_total agentId w) as [w1 ->]. apply IH.
      * apply IH.
  - intros cs c w w' Hcs. rewrite run_calls_app.
    apply Forall_app in Hcs as [_ Hc]. inversion Hc as [|? ? Hmc _]; subst.
    destruct (run_calls cs w) as [w1|]; [|done]. cbn.
    destruct (run_call c w1) as [w2|] eqn:Hcall; [|done]. cbn.
    intros [= <-]. by eapply run_call_one_open.
  - intros x y w w'. cbn.
    destruct (showStoryLaneModal x w) as [w1|]; [|done]. cbn.
    destruct (showStoryLaneModal y w1) as [w2|] eqn:Hy; [|done]. cbn.
    intros [= <-] p s Hs Ho.
    destruct (show_open _ _ _ Hy) as (m & Hm). by destruct (Hm p s Hs Ho).
  - intros x y w w1 w' m Hx Hy Htruthy Hm Hpanel.
    split; [cbn; rewrite Hx; cbn; by rewrite Hy|].
    pose proof (show_opens _ _ _ _ Hy Htruthy Hm Hpanel) as Hopen.
    split; [done|]. intros p Hp.
    by apply (run_call_one_open (Activate y) w1 w').
Qed.

(** *** Swapping a preloaded frame in *)

Lemma find_first_here P n : find_first P n = Some [] → P (el n) = true.
Proof.
  rewrite find_first_unfold. destruct (P (el n)); [done|].
  by intros (j & q & k & ? & _)%find_among_Some.
Qed.

Lemma find_among_at P ks i j k p :
  (∀ j' k', (j' < j)%nat → ks !! j' = Some k' → find_first P k' = None) →
  ks !! j = Some k → find_first P k = Some p →
  find_among P ks i = Some ((i + j)%nat :: p).
Proof.
  revert ks i. induction j as [|j IH]; intros [|n ks] i Hbefore Hk HP; try done.
  - cbn in Hk. injection Hk as ->. cbn. by rewrite HP, Nat.add_0_r.
  - cbn. rewrite (Hbefore 0%nat n) by (done || lia).
    rewrite (IH ks (S i)); [f_equal; f_equal; lia | | done..].
    intros j' k' Hj. apply (Hbefore (S j')). lia.
Qed.

Lemma find_first_child P n k :
  find_first P n = Some [k] ↔
  P (el n) = false ∧
  (∀ j k', (j < k)%nat → children n !! j = Some k' → find_first P k' = None) ∧
  ∃ s, children n !! k = Some s ∧ P (el s) = true.
Proof.
  rewrite find_first_unfold. split.
  - destruct (P (el n)); [done|]. intros Hfind. split; [done|].
    destruct (find_among_Some _ _ _ _ Hfind) as (j & q & s & Heq & Hj & Hq & Hb).
    cbn in Heq. injection Heq as -> <-. split; [exact Hb|].
    exists s. split; [done|]. by apply find_first_here.
  - intros (-> & Hbefore & s & Hs & HP).
    rewrite (find_among_at P _ 0 k s []); [done..|].
    by rewrite find_first_unfold, HP.
Qed.

Lemma relocate_child i r k : r ≠ [] → relocate (i :: r) [k] = [k].
Proof. destruct r as [|j r]; [done|]. intros _. cbn. by case_match. Qed.

Lemma get_child k doc s : get [k] doc = Some s ↔ children doc !! k = Some s.
Proof. cbn. by destruct (children doc !! k). Qed.

(** A valid path that starts at a childless child of the body is that child. *)
Lemma path_through_leaf k e doc q s :
  get [k] doc = Some (Node e []) → get (k :: q) doc = Some s → q = [].
Proof.
  intros Hk%get_child. cbn. rewrite Hk. by destruct q.
Qed.

Lemma remove_at_below c q doc :
  q ≠ [] → remove_at (c ++ q) doc = alter_at (remove_at q) c doc.
Proof.
  intros Hq. revert doc. induction c as [|i c IH]; intros doc; [done|].
  change ((i :: c) ++ q) with (i :: (c ++ q)).
  destruct (c ++ q) as [|j cq] eqn:Hcq.
  { by destruct c, q. }
  rewrite remove_at_cons. cbn [alter_at]. f_equal.
  apply list_alter_ext; [|done]. intros k _. apply IH.
Qed.

Lemma alter_at_compose f g c doc :
  alter_at f c (alter_at g c doc) = alter_at (f ∘ g) c doc.
Proof.
  revert doc. induction c as [|i c IH]; intros doc; [done|].
  cbn [alter_at el children]. f_equal.
  rewrite list_alter_alter_eq. apply list_alter_ext; [|done].
  intros k _. apply IH.
Qed.

Lemma after_removal_is_Some r p doc :
  is_Some (get p doc) → is_Some (after_removal r p doc).
Proof.
  intros Hp. unfold after_removal. case_bool_decide as Hpre; [done|].
  pose proof (relocate_tracks r p doc Hpre) as Hel.
  destruct Hp as [s Hs]. rewrite Hs in Hel.
  destruct (get (relocate r p) (remove_at r doc)); [by eexists | done].
Qed.

(** [swapPreloadedIframe] returns [true] exactly when its four lookups
    succeed. *)
Lemma swap_true_iff agentId doc :
  (swap agentId doc).1 = true ↔
  ∃ pre m c,
    find_first (is_preloader agentId) doc = Some pre ∧
    truthy (get_property modalMap agentId) = true ∧
    getElementById (to_string (get_property modalMap agentId)) doc = Some m ∧
    find_below (has_class "sl-embed") m doc = Some c.
Proof.
  unfold swap.
  destruct (find_first (is_preloader agentId) doc) as [pre|] eqn:Hpre.
  2:{ split; [done | by intros (? & ? & ? & ? & _)]. }
  destruct (truthy (get_property modalMap agentId)); cbn [negb].
  2:{ split; [done | by intros (? & ? & ? & _ & ? & _)]. }
  destruct (getElementById _ doc) as [m|].
  2:{ split; [done | by intros (? & ? & ? & _ & _ & ? & _)]. }
  destruct (find_below (has_class "sl-embed") m doc) as [c|] eqn:Hc.
  2:{ split; [done | intros (? & ? & ? & _ & _ & ? & ?); congruence]. }
  assert (Hframe : is_Some (get pre doc)).
  { destruct (find_first_Some _ _ _ Hpre) as (s & -> & _). by eexists. }
  split; [by intros _; exists pre, m, c|]. intros _.
  destruct (find_below _ c doc) as [r|].
  - by destruct (after_removal_is_Some r pre doc Hframe) as [frame ->].
  - by destruct Hframe as [frame ->].
Qed.

(** The container of a modal is not a background frame, which has no
    [sl-embed] class and no children. *)
Lemma container_not_frame agentId doc k e c0 c' sc :
  background_frame agentId k e doc →
  get (c0 :: c') doc = Some sc → has_class "sl-embed" (el sc) = true → c0 ≠ k.
Proof.
  intros (_ & Hframe & Hcls) Hsc Hembed ->.
  pose proof (path_through_leaf _ _ _ _ _ Hframe Hsc) as ->.
  rewrite Hframe in Hsc. injection Hsc as <-.
  unfold has_class in Hembed. cbn in Hembed. by rewrite Hcls in Hembed.
Qed.

(** Removing a node deeper in another child of the body leaves a child of
    the body where it is. *)
Lemma after_removal_elsewhere c0 c' q' k doc :
  c0 ≠ k → q' ≠ [] →
  after_removal ((c0 :: c') ++ q') [k] doc = get [k] doc.
Proof.
  intros Hc0 Hq'. unfold after_removal. rewrite bool_decide_eq_false_2.
  - change ((c0 :: c') ++ q') with (c0 :: (c' ++ q')).
    rewrite relocate_child by by destruct c', q'.
    by rewrite get_remove_at_off by (done || by destruct c', q').
  - intros [t Ht]. destruct c', q'; done.
Qed.

(** What a successful swap does to the document, when the preloaded frame is
    a background frame. *)
Lemma swap_shape agentId doc doc' k e :
  background_frame agentId k e doc →
  swap agentId doc = (true, doc') →
  ∃ m c0 c' (G : node → node),
    truthy (get_property modalMap agentId) = true ∧
    getElementById (to_string (get_property modalMap agentId)) doc = Some m ∧
    find_below (has_class "sl-embed") m doc = Some (c0 :: c') ∧
    c0 ≠ k ∧
    doc' = alter_at (λ s, appendChild (clone_for_modal (Node e [])) (G s))
             (c0 :: c') doc ∧
    (∀ s, el (G s) = el s) ∧
    (∀ Q s, Forall Q (elements s) → Forall Q (elements (G s))).
Proof.
  intros (Hfirst & Hframe & Hcls). unfold swap. rewrite Hfirst.
  destruct (truthy (get_property modalMap agentId)) eqn:Htruthy; [|done].
  cbn [negb]. destruct (getElementById _ doc) as [m|]; [|done].
  destruct (find_below (has_class "sl-embed") m doc) as [c|] eqn:Hc; [|done].
  destruct (find_below_Some _ _ _ _ Hc) as (q & sc & Hcq & Hq & Hsc & Hembed).
  destruct c as [|c0 c']; [by destruct m, q|].
  assert (Hc0 : c0 ≠ k).
  { by apply (container_not_frame agentId doc k e c0 c' sc). }
  destruct (find_below _ (c0 :: c') doc) as [r|] eqn:Hr; cbn [from_option].
  - destruct (find_below_Some _ _ _ _ Hr) as (q' & _ & -> & Hq' & _).
    assert (Hnow : after_removal ((c0 :: c') ++ q') [k] doc = Some (Node e []))
      by by rewrite after_removal_elsewhere.
    rewrite Hnow. intros [= <-].
    exists m, c0, c', (remove_at q'). repeat split; auto.
    + change (alter_at (appendChild (clone_for_modal (Node e []))) (c0 :: c')
                (remove_at ((c0 :: c') ++ q') doc) =
              alter_at (λ s, appendChild (clone_for_modal (Node e []))
                               (remove_at q' s)) (c0 :: c') doc).
      rewrite (remove_at_below (c0 :: c') q' doc Hq').
      by rewrite alter_at_compose.
    + intros s. apply el_remove_at.
    + intros Q s. apply Forall_elements_remove_at.
  - rewrite Hframe. intros [= <-].
    exists m, c0, c', (λ s, s). repeat split; auto.
Qed.

(** A search result stands when the tree changes at or below it and the
    element found keeps its fields. *)
Lemma find_first_alter_keep P F p q x :
  (∀ s, el (F s) = el s) →
  find_first P x = Some p → find_first P (alter_at F (p ++ q) x) = Some p.
Proof.
  intros HF. revert x. induction p as [|i p IH]; intros x Hfind.
  - apply find_first_here in Hfind. rewrite find_first_unfold.
    assert (el (alter_at F ([] ++ q) x) = el x) as ->; [|by rewrite Hfind].
    destruct q; [apply HF | done].
  - rewrite find_first_unfold in Hfind. destruct (P (el x)) eqn:Hx; [done|].
    destruct (find_among_Some _ _ _ _ Hfind) as (j & p' & k & Heq & Hj & Hk & Hb).
    cbn in Heq. injection Heq as -> ->.
    rewrite find_first_unfold. cbn [app alter_at el children]. rewrite Hx.
    apply (find_among_at P _ 0 j (alter_at F (p' ++ q) k)).
    + intros j' k' Hlt. rewrite list_lookup_alter_ne by lia. by apply Hb.
    + by rewrite list_lookup_alter_eq, Hj.
    + by apply IH.
Qed.

Lemma find_below_alter_keep P F m q q' doc :
  (∀ s, el (F s) = el s) →
  find_below P m doc = Some (m ++ q) →
  find_below P m (alter_at F (m ++ q ++ q') doc) = Some (m ++ q).
Proof.
  intros HF. unfold find_below. rewrite get_alter_at_app.
  destruct (get m doc) as [s|]; [|done]. cbn.
  destruct (find_among P (children s) 0) as [q0|] eqn:Hq0; [|done].
  cbn. intros [= ->%(inj (app m))].
  destruct (find_among_Some _ _ _ _ Hq0) as (j & p & k & -> & Hj & Hk & Hb).
  change (0 + j)%nat with j. cbn [app alter_at children].
  rewrite (find_among_at P _ 0 j (alter_at F (p ++ q') k) p); [done | | |].
  - intros j' k' Hlt. rewrite list_lookup_alter_ne by lia. by apply Hb.
  - by rewrite list_lookup_alter_eq, Hj.
  - by apply find_first_alter_keep.
Qed.

Lemma clone_not_preloader agentId frame :
  Forall (λ e, is_preloader agentId e = false)
    (elements (clone_for_modal (Node frame []))).
Proof. repeat constructor. Qed.

Lemma background_frame_kept agentId k e doc c0 c' (G : node → node) :
  background_frame agentId k e doc → c0 ≠ k →
  (∀ Q s, Forall Q (elements s) → Forall Q (elements (G s))) →
  background_frame agentId k e
    (alter_at (λ s, appendChild (clone_for_modal (Node e [])) (G s)) (c0 :: c') doc).
Proof.
  intros (Hfirst & Hframe & Hcls) Hc0 HG.
  split; [|split; [by rewrite get_alter_at_off | done]].
  apply find_first_child in Hfirst as (Hroot & Hbefore & s & Hs & HP).
  apply find_first_child. cbn [alter_at el children].
  split; [done|]. split.
  - intros j x' Hj. rewrite list_lookup_alter. case_decide as Hjc.
    + subst j. destruct (children doc !! c0) as [x|] eqn:Hx; [|done].
      intros [= <-]. apply find_first_None, Forall_elements_alter_at.
      * intros t Ht. apply Forall_elements_appendChild;
          [apply clone_not_preloader | by apply HG].
      * by apply find_first_None, (Hbefore c0).
    + by apply Hbefore.
  - exists s. by rewrite list_lookup_alter_ne.
Qed.

Lemma clone_for_modal_visible e : visible_clone e (clone_for_modal (Node e [])).
Proof.
  unfold visible_clone. split; [done|]. split; [done|]. split; [done|].
  split; [done|]. split.
  - intros a. cbn. rewrite !lookup_delete.
    repeat case_decide; subst; try done; case_bool_decide as Hin; try done;
      set_solver.
  - intros p. cbn.
    repeat (rewrite lookup_insert; case_decide; [by subst|]).
    by rewrite lookup_empty.
Qed.

(** C7 fails for an [agentId] with a double quote: no frame is preloaded on
    the sample page, and the call does not return [false], it throws. *)
Lemma swap_throws_for_quoted_key :
  find_first (is_preloader quoted_key) (body sample_world) = None ∧
  selector_throws quoted_key = true ∧
  swapPreloadedIframe quoted_key sample_world = None ∧
  swapPreloadedIframe quoted_key sample_world ≠ Some (false, sample_world).
Proof. repeat split; done. Qed.

(** C7, amended: for an [agentId] that the selector takes as it is.  When
    the preloaded frame of [agentId] is a background frame and
    [swapPreloadedIframe] returns [true], the last child of the [.sl-embed]
    container of [agentId]'s modal is a clone of the frame made visible: it
    has the tag of the frame, its [src] and its [data-agent-id], which is
    [agentId]; the frame itself is still a child of the body, unchanged and
    still the first match of the selector, the status object is unchanged,
    and a further call returns [true] again.  When the selector matches
    nothing the function returns [false] and changes nothing. *)
Theorem swap_reuses_preloaded_frame :
  (∀ (agentId : string) (w w' : world) (k : nat) (e : element),
     swapPreloadedIframe agentId w = Some (true, w') →
     background_frame agentId k e (body w) →
     selector_plain agentId = true ∧
     ∃ m c container clone,
       getElementById (to_string (get_property modalMap agentId)) (body w)
         = Some m ∧
       find_below (has_class "sl-embed") m (body w) = Some c ∧
       get c (body w') = Some container ∧
       has_class "sl-embed" (el container) = true ∧
       last (children container) = Some clone ∧
       clone = clone_for_modal (Node e []) ∧
       visible_clone e clone ∧
       attrs (el clone) !! "src" = attrs e !! "src" ∧
       attrs (el clone) !! "data-agent-id" = Some agentId ∧
       background_frame agentId k e (body w') ∧
       storylanePreloadStatus w' = storylanePreloadStatus w ∧
       ∃ w'', swapPreloadedIframe agentId w' = Some (true, w'')) ∧
  (∀ (agentId : string) (w : world),
     selector_plain agentId = true →
     find_first (is_preloader agentId) (body w) = None →
     swapPreloadedIframe agentId w = Some (false, w)).
Proof.
  split.
  - intros agentId w w' k e Hswap Hbg.
    pose proof (swap_status _ _ _ _ Hswap) as Hstatus.
    unfold swapPreloadedIframe in *.
    destruct (selector_plain agentId); [|done]. split; [done|].
    destruct (swap agentId (body w)) as [used doc'] eqn:Hdoc.
    injection Hswap as -> <-. cbn [body set_body].
    destruct (swap_shape _ _ _ _ _ Hbg Hdoc)
      as (m & c0 & c' & G & Htruthy & Hm & Hc & Hc0 & -> & HGel & HG).
    destruct (find_below_Some _ _ _ _ Hc) as (q & sc & Hcq & Hq & Hsc & Hembed).
    pose proof (background_frame_kept _ _ _ _ c0 c' G Hbg Hc0 HG) as Hbg'.
    assert (Hkey : attrs e !! "data-agent-id" = Some agentId).
    { destruct Hbg as (Hfirst & Hframe & _).
      destruct (find_first_Some _ _ _ Hfirst) as (s & Hs & HP).
      rewrite Hframe in Hs. injection Hs as <-.
      unfold is_preloader in HP. apply andb_prop in HP as [_ HP].
      by apply bool_decide_eq_true in HP. }
    exists m, (c0 :: c'), (appendChild (clone_for_modal (Node e [])) (G sc)),
      (clone_for_modal (Node e [])).
    split; [done|]. split; [done|].
    split; [by rewrite get_alter_at, Hsc|].
    split; [by cbn; rewrite HGel|].
    split; [cbn; apply last_snoc|].
    split; [done|]. split; [apply clone_for_modal_visible|].
    destruct (clone_for_modal_visible e) as (_ & _ & _ & _ & Hattrs & _).
    split; [by rewrite Hattrs|]. split; [by rewrite Hattrs|].
    split; [done|]. split; [done|].
    set (F := λ s, appendChild (clone_for_modal (Node e [])) (G s)) in *.
    assert (HF : ∀ s, el (F s) = el s) by (intros s; cbn; apply HGel).
    assert (Hagain : (swap agentId (alter_at F (c0 :: c') (body w))).1 = true).
    { apply swap_true_iff. exists [k], m, (c0 :: c').
      split; [apply Hbg'|]. split; [done|]. split.
      - revert Hm. unfold getElementById. destruct (String.eqb _ ""); [done|].
        rewrite Hcq. by apply find_first_alter_keep.
      - rewrite Hcq in Hc |- *. rewrite <-(app_nil_r q) at 1.
        by apply find_below_alter_keep. }
    destruct (swap agentId (alter_at F (c0 :: c') (body w))) as [used doc''].
    cbn in Hagain. subst used. by eexists.
  - intros agentId w Hplain Hnone. unfold swapPreloadedIframe, swap.
    rewrite Hplain, Hnone. by destruct w.
Qed.

Lemma run_call_keeps_known_keys c w w' :
  run_call c w = Some w' → status_keys_known w → status_keys_known w'.
Proof.
  unfold status_keys_known. destruct c as [agentId|agentId|agentId|]; cbn.
  - intros [= <-]. apply preload_keeps_known_keys.
  - destruct (swapPreloadedIframe agentId w) as [[used w1]|] eqn:Hswap; [|done].
    intros [= <-]. by rewrite (swap_status _ _ _ _ Hswap).
  - intros Hshow. by rewrite (show_status _ _ _ Hshow).
  - by intros [= <-].
Qed.

(** [preloadStorylaneDemos] attaches a background frame. *)
Lemma preload_background_frame agentId w :
  agentId ∈ agent_keys →
  truthy (status_of w agentId) = false →
  find_first (is_preloader agentId) (body w) = None →
  background_frame agentId (length (children (body w)))
    (preloadFrame agentId (get_property storylaneUrls agentId))
    (body (preloadStorylaneDemos agentId w)).
Proof.
  intros Hk Hs Hnone. rewrite preload_attaches by done.
  cbn [body set_body set_status log].
  split; [|split; [|done]].
  - apply find_first_child. unfold appendChild. cbn [el children].
    apply find_first_None in Hnone. apply Forall_elements in Hnone as [He Hks].
    split; [done|]. split.
    + intros j x Hj Hx. rewrite lookup_app_l in Hx by done.
      rewrite Forall_lookup in Hks. by apply find_first_None, (Hks j).
    + eexists. split; [apply list_lookup_middle; done|].
      unfold is_preloader. cbn. rewrite lookup_insert_eq.
      by rewrite bool_decide_eq_true_2.
  - apply get_child. unfold appendChild. cbn [children].
    by apply list_lookup_middle.
Qed.

(** *** The sample page *)

Lemma initial_status_known w :
  storylanePreloadStatus w = initial_status → status_keys_known w.
Proof.
  intros Hw k [v Hv]. destruct (decide (k ∈ agent_keys)) as [|Hk]; [done|].
  apply unknown_key_ne in Hk as (H1 & H2 & H3 & H4).
  rewrite Hw in Hv. unfold initial_status in Hv. cbn in Hv.
  by rewrite !lookup_insert_ne in Hv.
Qed.

Lemma preload_idempotent_witness :
  storylanePreloadStatus preloaded_world !! "po-agent" = Some true ∧
  preloadStorylaneDemos "po-agent" preloaded_world = preloaded_world ∧
  length (children (body (preloadStorylaneDemos "po-agent" preloaded_world)))
    = 4%nat.
Proof.
  destruct preload_idempotent as [Hpreload _].
  destruct (Hpreload "po-agent" sample_world) as (Hloaded & Hagain & Hone).
  - unfold agent_keys. set_solver.
  - split; [exact Hloaded|]. split; [exact Hagain|].
    fold preloaded_world in Hone. rewrite Hone; [reflexivity|].
    vm_compute. discriminate.
Defined.

Lemma preload_unknown_key_witness :
  preloadStorylaneDemos "unknown-key" sample_world = sample_world ∧
  preloadStorylaneDemos "constructor" sample_world = sample_world.
Proof.
  split; apply preload_unknown_key;
    [ unfold agent_keys; set_solver | by apply initial_status_known
    | unfold agent_keys; set_solver | by apply initial_status_known ].
Defined.

Lemma one_panel_open_witness :
  at_most_one_open (body (world_after claim_after_po)) ∧
  open_at [2%nat] (body (world_after claim_after_po)) ∧
  ∀ p, open_at p (body (world_after claim_after_po)) → p = [2%nat].
Proof.
  destruct one_panel_open as (_ & Hone & _ & Hopens).
  split.
  - apply (Hone [Activate "po-agent"] (Activate "claim-agent") sample_world).
    + repeat constructor.
    + vm_compute. reflexivity.
  - apply (Hopens "po-agent" "claim-agent" sample_world
             (world_after [Activate "po-agent"])
             (world_after claim_after_po) [2%nat]).
    + vm_compute. reflexivity.
    + vm_compute. reflexivity.
    + reflexivity.
    + vm_compute. reflexivity.
    + eexists. split; [vm_compute; reflexivity | reflexivity].
Defined.

Lemma swap_reuses_preloaded_frame_witness :
  ∃ m c container clone,
    getElementById "storylane-modal-po" (body preloaded_world) = Some m ∧
    find_below (has_class "sl-embed") m (body preloaded_world) = Some c ∧
    get c (body swapped_world) = Some container ∧
    last (children container) = Some clone ∧
    tag (el clone) = "iframe" ∧
    attrs (el clone) !! "src"
      = Some "https://app.storylane.io/demo/d9xx3md7cyhg?embed=inline" ∧
    attrs (el clone) !! "data-agent-id" = Some "po-agent" ∧
    get [3%nat] (body swapped_world)
      = Some (Node (preloadFrame "po-agent"
                      (get_property storylaneUrls "po-agent")) []).
Proof.
  destruct swap_reuses_preloaded_frame as [Hswap _].
  destruct (Hswap "po-agent" preloaded_world swapped_world 3%nat
              (preloadFrame "po-agent" (get_property storylaneUrls "po-agent")))
    as (_ & m & c & container & clone & Hm & Hc & Hcont & _ & Hlast & _ &
        (Htag & _) & Hsrc & Hkey & Hbg & _).
  - vm_compute. reflexivity.
  - apply (preload_background_frame "po-agent" sample_world).
    + unfold agent_keys. set_solver.
    + reflexivity.
    + reflexivity.
  - exists m, c, container, clone. destruct Hbg as (_ & Hframe & _).
    repeat split; auto.
Defined.

(** *** The keyboard *)

(** The [keydown] listener that [setupStorylaneDemos] puts on the document:
    Escape closes the modals when one is open. *)
Definition storylane_keydown (key : string) (w : world) : world :=
  if String.eqb key "Escape" then
    match find_first is_open (body w) with
    | Some activeModal => closeStoryLaneModals w
    | None => w
    end
  else w.

(** *** Closing, again *)

(** X6.  [closeStoryLaneModals] is idempotent: a second call changes
    nothing.  After a call no panel is open, the body has no inline
    [overflow], Reveal's keyboard navigation is on when Reveal is loaded, and
    the status object and the console are as before. *)
Theorem close_idempotent (w : world) :
  closeStoryLaneModals (closeStoryLaneModals w) = closeStoryLaneModals w ∧
  all_closed (body (closeStoryLaneModals w)) ∧
  style (el (body (closeStoryLaneModals w))) !! "overflow" = None ∧
  reveal_keyboard (closeStoryLaneModals w)
    = (λ _, true) <$> reveal_keyboard w ∧
  storylanePreloadStatus (closeStoryLaneModals w) = storylanePreloadStatus w ∧
  console (closeStoryLaneModals w) = console w.
Proof.
  split; [|split; [apply closed_after_close|]].
  - destruct w as [status [e ks] out keyboard utils].
    assert (Hroot : style_clear "overflow"
                      (deactivate (style_clear "overflow" (deactivate e)))
                    = style_clear "overflow" (deactivate e)).
    { unfold style_clear at 2. rewrite deactivate_style, deactivate_idem.
      unfold style_clear, set_style. cbn. f_equal. apply delete_delete_eq. }
    pose proof (map_elements_idem deactivate (Node e ks) deactivate_idem) as Hks.
    cbn [map_elements] in Hks. injection Hks as _ Hks.
    change (closeStoryLaneModals
              (closeStoryLaneModals
                 {| storylanePreloadStatus := status; body := Node e ks;
                    console := out; reveal_keyboard := keyboard;
                    storylaneUtils := utils |}))
      with {| storylanePreloadStatus := status;
              body := Node (style_clear "overflow"
                              (deactivate (style_clear "overflow" (deactivate e))))
                        (map (map_elements deactivate)
                           (map (map_elements deactivate) ks));
              console := out;
              reveal_keyboard := (λ _, true) <$> ((λ _, true) <$> keyboard);
              storylaneUtils := utils |}.
    rewrite Hroot, Hks. by destruct keyboard.
  - split; [|done]. rewrite close_body.
    destruct (map_elements deactivate (body w)) as [e ks]. cbn.
    apply lookup_delete_eq.
Qed.

(** X7.  [showStoryLaneModal] closes the open panels before it looks at its
    argument.  For a key that is no agent key and no name that objects
    inherit, and for any key whose modal is not in the document, the call
    does what [closeStoryLaneModals] does and nothing more: nothing is opened
    and nothing is logged. *)
Theorem show_without_modal_only_closes (agentId : string) (w : world) :
  (((agentId ∉ agent_keys) ∧ inherited agentId = Undefined) ∨
   getElementById (to_string (get_property modalMap agentId)) (body w) = None) →
  showStoryLaneModal agentId w = Some (closeStoryLaneModals w).
Proof.
  intros Hno. unfold showStoryLaneModal.
  destruct Hno as [[Hk Hin] | Hmissing].
  - unfold get_property. by rewrite (modalMap_unknown _ Hk), Hin.
  - destruct (negb (truthy (get_property modalMap agentId))); [done|].
    assert (getElementById (to_string (get_property modalMap agentId))
              (body (closeStoryLaneModals w)) = None) as ->; [|done].
    revert Hmissing. unfold getElementById. destruct (String.eqb _ ""); [done|].
    rewrite close_body, find_first_on_el by done.
    rewrite find_first_map_elements; [done|].
    intros e. by rewrite deactivate_id.
Qed.

Lemma show_without_modal_only_closes_witness :
  showStoryLaneModal "unknown-key" sample_world
    = Some (closeStoryLaneModals sample_world) ∧
  showStoryLaneModal "interview-agent" sample_world
    = Some (closeStoryLaneModals sample_world).
Proof.
  split; apply show_without_modal_only_closes.
  - left. split; [unfold agent_keys; set_solver | reflexivity].
  - right. reflexivity.
Defined.

Lemma find_first_closed doc : find_first is_open doc = None ↔ all_closed doc.
Proof. apply find_first_None. Qed.

(** X8.  The Escape key.  After the [keydown] listener of
    [setupStorylaneDemos] has run for Escape no panel is open.  When no panel
    is open, and for every other key, the listener changes nothing: it does
    not touch the keyboard setting of Reveal.  The listener is installed
    again on every slide change; running it several times for one key press
    gives what running it once gives. *)
Theorem escape_closes_open_panels (key : string) (w : world) :
  all_closed (body (storylane_keydown "Escape" w)) ∧
  (all_closed (body w) → storylane_keydown key w = w) ∧
  (key ≠ "Escape" → storylane_keydown key w = w) ∧
  ((∃ p, open_at p (body w)) →
     storylane_keydown "Escape" w = closeStoryLaneModals w) ∧
  storylane_keydown key (storylane_keydown key w) = storylane_keydown key w.
Proof.
  assert (Hescape : ∀ w0, all_closed (body (storylane_keydown "Escape" w0))).
  { intros w0. unfold storylane_keydown. cbn [String.eqb Ascii.eqb].
    change (String.eqb "Escape" "Escape") with true. cbn iota.
    destruct (find_first is_open (body w0)) eqn:Hfind.
    - apply closed_after_close.
    - by apply find_first_closed. }
  assert (Hclosed : ∀ k w0, all_closed (body w0) → storylane_keydown k w0 = w0).
  { intros k w0 H%find_first_closed. unfold storylane_keydown.
    rewrite H. by destruct (String.eqb k "Escape"). }
  split; [apply Hescape|]. split; [apply Hclosed|]. split; [|split].
  - intros Hkey. unfold storylane_keydown.
    destruct (String.eqb key "Escape") eqn:Heq; [|done].
    by apply String.eqb_eq in Heq.
  - intros [p Hopen]. unfold storylane_keydown.
    change (String.eqb "Escape" "Escape") with true. cbn iota.
    destruct (find_first is_open (body w)) eqn:Hfind; [done|].
    apply find_first_closed in Hfind.
    by destruct (all_closed_not_open _ p Hfind).
  - destruct (String.eqb key "Escape") eqn:Heq.
    + apply String.eqb_eq in Heq as ->. apply Hclosed, Hescape.
    + unfold storylane_keydown. by rewrite Heq.
Qed.

Lemma escape_closes_open_panels_witness :
  storylane_keydown "Escape" (world_after [Activate "po-agent"])
    = closeStoryLaneModals (world_after [Activate "po-agent"]) ∧
  storylane_keydown "Escape" sample_world = sample_world.
Proof.
  split.
  - destruct (escape_closes_open_panels "Escape" (world_after [Activate "po-agent"]))
      as (_ & _ & _ & Hopen & _).
    apply Hopen. exists [1%nat]. eexists. split; vm_compute; reflexivity.
  - destruct (escape_closes_open_panels "Escape" sample_world)
      as (_ & Hclosed & _).
    apply Hclosed, find_first_closed. vm_compute. reflexivity.
Defined.

(** *** One background frame for a key *)

(** No element of the tree carries the class of the preloader. *)
Definition preloader_free (n : node) : Prop :=
  Forall (λ e, has_class "storylane-preloader" e = false) (elements n).

(** A frame that [preloadStorylaneDemos] has attached for a key that the
    status object marks: without children and without id, with the class
    name [storylane-preloader]. *)
Definition attached_frame (status : gmap string bool) (k : node) : Prop :=
  ∃ e key, k = Node e [] ∧ classes e = ["storylane-preloader"] ∧ id e = None ∧
    attrs e !! "data-agent-id" = Some key ∧ status !! key = Some true.

(** The body is not a preloader element, each of its children is free of
    them or an attached frame, and no two children are frames of one key. *)
Definition tracked (status : gmap string bool) (doc : node) : Prop :=
  has_class "storylane-preloader" (el doc) = false ∧
  (∀ i k, children doc !! i = Some k →
     preloader_free k ∨ attached_frame status k) ∧
  (∀ i j ki kj key,
     children doc !! i = Some ki → children doc !! j = Some kj →
     is_preloader key (el ki) = true → is_preloader key (el kj) = true →
     i = j).

Definition frames_tracked (w : world) : Prop :=
  tracked (storylanePreloadStatus w) (body w).

Lemma is_preloader_class key e :
  is_preloader key e = true → has_class "storylane-preloader" e = true.
Proof. unfold is_preloader. by intros [H _]%andb_true_iff. Qed.

Lemma is_preloader_key key e :
  is_preloader key e = true → attrs e !! "data-agent-id" = Some key.
Proof.
  unfold is_preloader. intros [_ H]%andb_true_iff.
  by apply bool_decide_eq_true in H.
Qed.

(** Where the selector can match in a tracked document. *)
Lemma tracked_match status doc p s key :
  tracked status doc →
  get p doc = Some s → is_preloader key (el s) = true →
  ∃ i, p = [i] ∧ children s = [] ∧ classes (el s) = ["storylane-preloader"] ∧
       status !! key = Some true.
Proof.
  intros (Hroot & Hkids & _) Hs Hmatch.
  pose proof (is_preloader_class _ _ Hmatch) as Hclass.
  destruct p as [|i p].
  { injection Hs as <-. congruence. }
  cbn in Hs. destruct (children doc !! i) as [k|] eqn:Hk; [|done].
  destruct (Hkids i k Hk) as [Hfree | (e & key' & -> & Hcls & _ & Hkey & Hst)].
  - pose proof (Forall_elements_el _ p k s Hs Hfree) as Hno. cbn in Hno. congruence.
  - destruct p as [|j p]; [|done]. injection Hs as <-. exists i.
    apply is_preloader_key in Hmatch. cbn in Hmatch.
    repeat split; [done..|]. congruence.
Qed.

Lemma tracked_init status doc : preloader_free doc → tracked status doc.
Proof.
  intros [Hroot Hkids]%Forall_elements. split; [done|]. split.
  - intros i k Hk. left. rewrite Forall_lookup in Hkids. by apply (Hkids i).
  - intros i j ki kj key Hi _ Hmatch _. exfalso.
    rewrite Forall_lookup in Hkids. specialize (Hkids i ki Hi).
    apply Forall_elements in Hkids as [Hno _].
    apply is_preloader_class in Hmatch. congruence.
Qed.

Lemma tracked_preload agentId w :
  frames_tracked w → frames_tracked (preloadStorylaneDemos agentId w).
Proof.
  intros Hw. unfold preloadStorylaneDemos.
  destruct (negb (truthy (Str agentId)) || truthy (status_of w agentId)) eqn:Hguard;
    [done|].
  apply orb_false_iff in Hguard as [_ Hstatus].
  destruct (negb (truthy (get_property storylaneUrls agentId))); [done|].
  destruct Hw as (Hroot & Hkids & Hone).
  unfold frames_tracked. cbn [storylanePreloadStatus body set_status set_body log].
  set (frame := Node (preloadFrame agentId (get_property storylaneUrls agentId)) []).
  assert (Hfresh : ∀ i k, children (body w) !! i = Some k →
            is_preloader agentId (el k) = false).
  { intros i k Hk. destruct (is_preloader agentId (el k)) eqn:Hmatch; [|done].
    destruct (tracked_match _ _ [i] k agentId (conj Hroot (conj Hkids Hone)))
      as (_ & _ & _ & _ & Hloaded); [by apply get_child | done |].
    by rewrite (status_of_loaded _ _ Hloaded) in Hstatus. }
  assert (Hframe_key : ∀ key, is_preloader key (el frame) = true → key = agentId).
  { intros key Hmatch%is_preloader_key. cbn in Hmatch.
    rewrite lookup_insert_eq in Hmatch. congruence. }
  split; [done|]. split.
  - intros i k. unfold appendChild. cbn [children]. rewrite lookup_app.
    destruct (children (body w) !! i) as [k'|] eqn:Hk'.
    + intros [= <-]. destruct (Hkids i k' Hk') as [Hfree | Hframe]; [by left|].
      right. destruct Hframe as (e & key & -> & Hcls & Hid & Hkey & Hst).
      exists e, key. repeat split; [done..|].
      rewrite lookup_insert. case_decide; [done | exact Hst].
    + destruct (i - length (children (body w)))%nat as [|?]; [|done].
      intros [= <-]. right. eexists _, agentId.
      split; [reflexivity|]. split; [reflexivity|]. split; [reflexivity|].
      split; [cbn; apply lookup_insert_eq | apply lookup_insert_eq].
  - intros i j ki kj key. unfold appendChild. cbn [children].
    rewrite !lookup_app.
    destruct (children (body w) !! i) as [ki'|] eqn:Hi;
      destruct (children (body w) !! j) as [kj'|] eqn:Hj.
    + intros [= <-] [= <-]. by apply Hone.
    + destruct (j - length (children (body w)))%nat as [|?] eqn:Hjn; [|done].
      intros [= <-] [= <-] Hmi Hmj. apply Hframe_key in Hmj as ->.
      by rewrite (Hfresh i ki' Hi) in Hmi.
    + destruct (i - length (children (body w)))%nat as [|?] eqn:Hin; [|done].
      intros [= <-] [= <-] Hmi Hmj. apply Hframe_key in Hmi as ->.
      by rewrite (Hfresh j kj' Hj) in Hmj.
    + destruct (i - length (children (body w)))%nat as [|?] eqn:Hin; [|done].
      destruct (j - length (children (body w)))%nat as [|?] eqn:Hjn; [|done].
      intros _ _ _ _. apply lookup_ge_None in Hi, Hj. lia.
Qed.

Lemma deactivate_keeps_class c e :
  c ≠ "active" → has_class c (deactivate e) = has_class c e.
Proof.
  intros Hc. unfold deactivate. destruct (has_class "storylane-modal" e); [|done].
  unfold has_class, remove_class. cbn. by rewrite ClassList.contains_remove_ne.
Qed.

Lemma deactivate_attrs e : attrs (deactivate e) = attrs e.
Proof. unfold deactivate. by destruct (has_class _ _). Qed.

Lemma deactivate_preloader key e :
  is_preloader key (deactivate e) = is_preloader key e.
Proof.
  unfold is_preloader. by rewrite deactivate_keeps_class, deactivate_attrs.
Qed.

Lemma deactivate_frame e :
  classes e = ["storylane-preloader"] → deactivate e = e.
Proof.
  intros Hcls. unfold deactivate, has_class. by rewrite Hcls.
Qed.

Lemma el_map_elements f n : el (map_elements f n) = f (el n).
Proof. by destruct n. Qed.

Lemma children_map_elements f n :
  children (map_elements f n) = map_elements f <$> children n.
Proof. by destruct n. Qed.

Lemma tracked_close status doc :
  tracked status doc →
  tracked status (on_el (style_clear "overflow") (map_elements deactivate doc)).
Proof.
  intros (Hroot & Hkids & Hone). unfold on_el.
  rewrite el_map_elements, children_map_elements.
  split; [|split]; cbn [el children].
  - change (has_class "storylane-preloader" (deactivate (el doc)) = false).
    by rewrite deactivate_keeps_class.
  - intros i k'. rewrite list_lookup_fmap.
    destruct (children doc !! i) as [k|] eqn:Hk; [|done]. intros [= <-].
    destruct (Hkids i k Hk) as [Hfree | (e & key & -> & Hcls & Hid & Hkey & Hst)].
    + left. unfold preloader_free. rewrite elements_map_elements.
      apply Forall_fmap. eapply Forall_impl; [exact Hfree|].
      intros e He. cbn. by rewrite deactivate_keeps_class.
    + right. exists e, key. cbn. by rewrite deactivate_frame.
  - intros i j ki' kj' key. rewrite !list_lookup_fmap.
    destruct (children doc !! i) as [ki|] eqn:Hi; [|done].
    destruct (children doc !! j) as [kj|] eqn:Hj; [|done].
    intros [= <-] [= <-]. rewrite !el_map_elements, !deactivate_preloader.
    by apply Hone.
Qed.

(** A change of one element that keeps its id, its attributes and the class
    of the preloader, and keeps the whole class list of an element without
    id. *)
Lemma tracked_alter status doc g p :
  (∀ e, has_class "storylane-preloader" (g e) = has_class "storylane-preloader" e ∧
        attrs (g e) = attrs e ∧ id (g e) = id e) →
  (∀ s, get p doc = Some s →
        classes (g (el s)) = classes (el s) ∨ id (el s) ≠ None) →
  tracked status doc → tracked status (alter_at (on_el g) p doc).
Proof.
  intros Hg Hp (Hroot & Hkids & Hone).
  assert (Hmatch : ∀ key e, is_preloader key (g e) = is_preloader key e).
  { intros key e. unfold is_preloader.
    destruct (Hg e) as (-> & -> & _). done. }
  destruct p as [|i p].
  { cbn [alter_at]. unfold on_el. split; cbn [el children];
      [by rewrite (proj1 (Hg _)) | by split]. }
  unfold tracked. cbn [alter_at el children]. split; [done|]. split.
  - intros j k'. rewrite list_lookup_alter. case_decide as Hij.
    + subst j. destruct (children doc !! i) as [k|] eqn:Hk; [|done].
      intros [= <-].
      destruct (Hkids i k Hk) as [Hfree | (e & key & -> & Hcls & Hid & Hkey & Hst)].
      * left. apply Forall_elements_alter_at; [|done].
        intros s Hs. apply Forall_elements_on_el; [|done].
        intros e He. by rewrite (proj1 (Hg _)).
      * right. destruct p as [|j p]; [|by exists e, key].
        cbn. exists (g e), key. destruct (Hg e) as (_ & Hattrs & Hids).
        split; [done|]. split.
        { destruct (Hp (Node e [])) as [Hsame | Hno]; [cbn; by rewrite Hk | |].
          - cbn in Hsame. congruence.
          - cbn in Hno. congruence. }
        split; [congruence|]. split; [by rewrite Hattrs | done].
    + intros Hk. by apply (Hkids j).
  - assert (Hel : ∀ j k', alter (alter_at (on_el g) p) i (children doc) !! j = Some k' →
              ∃ k, children doc !! j = Some k ∧
                   ∀ key, is_preloader key (el k') = is_preloader key (el k)).
    { intros j k'. rewrite list_lookup_alter. case_decide as Hij.
      - subst j. destruct (children doc !! i) as [k|] eqn:Hk; [|done].
        intros [= <-]. exists k. split; [done|]. intros key.
        destruct p as [|j p]; [apply Hmatch | done].
      - intros Hk. by exists k'. }
    intros j1 j2 k1 k2 key H1 H2 Hm1 Hm2.
    destruct (Hel _ _ H1) as (x1 & Hx1 & He1).
    destruct (Hel _ _ H2) as (x2 & Hx2 & He2).
    rewrite He1 in Hm1. rewrite He2 in Hm2. by apply (Hone j1 j2 x1 x2 key).
Qed.

(** A swap that returns [false] has changed nothing. *)
Lemma swap_false_same agentId doc :
  (swap agentId doc).1 = false → (swap agentId doc).2 = doc.
Proof.
  unfold swap. repeat case_match; cbn; congruence.
Qed.

Lemma clone_preloader_free e :
  preloader_free (clone_for_modal (Node e [])).
Proof. repeat constructor. Qed.

Lemma tracked_swap status agentId doc :
  tracked status doc → tracked status (swap agentId doc).2.
Proof.
  intros Htracked.
  destruct (swap agentId doc) as [used doc'] eqn:Hswap.
  destruct used.
  2:{ pose proof (swap_false_same agentId doc) as H. rewrite Hswap in H.
      cbn in *. by rewrite H. }
  cbn [snd].
  assert (Htrue : (swap agentId doc).1 = true) by by rewrite Hswap.
  apply swap_true_iff in Htrue as (pre & m & c & Hpre & _ & _ & _).
  destruct (find_first_Some _ _ _ Hpre) as (s & Hs & Hmatch).
  destruct (tracked_match _ _ _ _ _ Htracked Hs Hmatch)
    as (k & -> & Hleaf & Hcls & _).
  destruct s as [e ks]. cbn in Hleaf, Hcls. subst ks.
  assert (Hbg : background_frame agentId k e doc) by done.
  destruct (swap_shape _ _ _ _ _ Hbg Hswap)
    as (m' & c0 & c' & G & _ & _ & Hc & Hc0 & -> & HGel & HG).
  destruct (find_below_Some _ _ _ _ Hc) as (q & sc & _ & _ & Hsc & Hembed).
  destruct Htracked as (Hroot & Hkids & Hone).
  unfold tracked. cbn [alter_at el children]. split; [done|]. split.
  - intros j k'. rewrite list_lookup_alter. case_decide as Hj.
    + subst j. cbn in Hsc. destruct (children doc !! c0) as [k0|] eqn:Hk0; [|done].
      intros [= <-].
      destruct (Hkids c0 k0 Hk0) as [Hfree | (e0 & key & -> & Hcls0 & _)].
      * left. apply Forall_elements_alter_at; [|done].
        intros t Ht. apply Forall_elements_appendChild;
          [apply clone_preloader_free | by apply HG].
      * exfalso. destruct c' as [|? ?]; [|done]. injection Hsc as <-.
        unfold has_class in Hembed. cbn in Hembed. by rewrite Hcls0 in Hembed.
    + intros Hk'. by apply (Hkids j).
  - assert (Hel : ∀ j k',
              alter (alter_at (λ s, appendChild (clone_for_modal (Node e [])) (G s)) c')
                c0 (children doc) !! j = Some k' →
              ∃ x, children doc !! j = Some x ∧ el k' = el x).
    { intros j k'. rewrite list_lookup_alter. case_decide as Hj.
      - subst j. destruct (children doc !! c0) as [k0|] eqn:Hk0; [|done].
        intros [= <-]. exists k0. split; [done|].
        destruct c' as [|? ?]; [cbn; apply HGel | done].
      - intros Hk'. by exists k'. }
    intros j1 j2 k1 k2 key H1 H2 Hm1 Hm2.
    destruct (Hel _ _ H1) as (x1 & Hx1 & He1).
    destruct (Hel _ _ H2) as (x2 & Hx2 & He2).
    rewrite He1 in Hm1. rewrite He2 in Hm2. by apply (Hone j1 j2 x1 x2 key).
Qed.

Lemma tracked_show agentId w w' :
  frames_tracked w → showStoryLaneModal agentId w = Some w' → frames_tracked w'.
Proof.
  intros Hw Hshow. unfold frames_tracked.
  rewrite (show_status _ _ _ Hshow). revert Hshow.
  set (st := storylanePreloadStatus w).
  unfold showStoryLaneModal.
  assert (H0 : tracked st (body (closeStoryLaneModals w)))
    by (rewrite close_body; by apply tracked_close).
  set (w0 := closeStoryLaneModals w) in *.
  destruct (negb (truthy (get_property modalMap agentId))); [by intros [= <-]|].
  destruct (getElementById _ (body w0)) as [m|] eqn:Hm; [|by intros [= <-]].
  set (doc1 := on_el (style_set "overflow" "hidden") (body w0)).
  assert (H1 : tracked st doc1).
  { apply (tracked_alter st (body w0) _ []); [done | by left | done]. }
  assert (Hm1 : getElementById (to_string (get_property modalMap agentId)) doc1
                = Some m).
  { revert Hm. unfold getElementById. destruct (String.eqb _ ""); [done|].
    unfold doc1. by rewrite find_first_on_el. }
  destruct (getElementById_found _ _ _ Hm1) as (s1 & Hs1 & Hid1).
  assert (Hmain : ∀ used doc2,
            tracked st doc2 → el <$> get m doc2 = el <$> get m doc1 →
            tracked st (body
              (let w := set_body (alter_at (on_el (add_class "active")) m doc2)
                          (set_body doc2 w0) in
               if negb used then
                 match find_below (λ e, String.eqb (tag e) "iframe") m (body w) with
                 | Some iframe =>
                     set_body
                       (alter_at (on_el (style_set "opacity" "0")) iframe (body w)) w
                 | None => w
                 end
               else w))).
  { intros used doc2 H2 Hel.
    assert (H3 : tracked st (alter_at (on_el (add_class "active")) m doc2)).
    { apply tracked_alter; [| |done].
      - intros e. split; [|done]. unfold has_class, add_class. cbn.
        by rewrite ClassList.contains_add_ne.
      - intros s2 Hs2. right. rewrite Hs2, Hs1 in Hel. cbn in Hel. congruence. }
    cbn zeta. destruct used; cbn [negb body set_body]; [done|].
    destruct (find_below _ m _) as [f|]; cbn [body set_body]; [|done].
    apply tracked_alter; [done | by left | done]. }
  cbn [storylaneUtils log set_body].
  destruct (storylaneUtils w0) eqn:Hutils.
  - unfold swapPreloadedIframe. destruct (selector_plain agentId); [|done].
    cbn [body set_body log].
    fold doc1. destruct (swap agentId doc1) as [used doc2] eqn:Hswap.
    cbn. intros [= <-]. cbn [body configure_keyboard].
    pose proof (Hmain used doc2) as Hfinal.
    assert (H2 : tracked st doc2).
    { pose proof (tracked_swap st agentId doc1 H1) as H. by rewrite Hswap in H. }
    assert (He2 : el <$> get m doc2 = el <$> get m doc1).
    { pose proof (swap_keeps_modal agentId doc1 m Hm1) as H. by rewrite Hswap in H. }
    specialize (Hfinal H2 He2). revert Hfinal.
    destruct used; cbn [negb body set_body log]; [done|].
    by destruct (find_below _ m _).
  - cbn. intros [= <-]. cbn [body configure_keyboard].
    pose proof (Hmain false doc1 H1 eq_refl) as Hfinal.
    revert Hfinal. cbn [negb body set_body log].
    by destruct (find_below _ m _).
Qed.

Lemma tracked_run_call c w w' :
  frames_tracked w → run_call c w = Some w' → frames_tracked w'.
Proof.
  intros Hw. destruct c as [agentId|agentId|agentId|]; cbn.
  - intros [= <-]. by apply tracked_preload.
  - unfold swapPreloadedIframe. destruct (selector_plain agentId); [|done].
    pose proof (tracked_swap _ agentId _ Hw) as H.
    destruct (swap agentId (body w)) as [used doc']. cbn. by intros [= <-].
  - by apply tracked_show.
  - intros [= <-]. unfold frames_tracked. rewrite close_body.
    by apply tracked_close.
Qed.

Lemma tracked_run_calls cs w w' :
  frames_tracked w → run_calls cs w = Some w' → frames_tracked w'.
Proof.
  revert w. induction cs as [|c cs IH]; intros w Hw; cbn.
  - by intros [= <-].
  - destruct (run_call c w) as [w1|] eqn:Hcall; [|done]. cbn.
    apply IH. by eapply tracked_run_call.
Qed.

(** X9.  At most one background frame for a key.  On a page that starts
    without elements of class [storylane-preloader], after any sequence of
    preload, swap, show and close calls the selector
    [.storylane-preloader[data-agent-id=key]] matches at most one element;
    that element is a childless child of the body, and the status object
    marks its key as loaded. *)
Theorem one_background_frame_per_key
    (cs : list call) (w w' : world) (key : string) (p q : path) (s t : node) :
  preloader_free (body w) →
  run_calls cs w = Some w' →
  get p (body w') = Some s → is_preloader key (el s) = true →
  get q (body w') = Some t → is_preloader key (el t) = true →
  p = q ∧ (∃ k, p = [k]) ∧ children s = [] ∧
  storylanePreloadStatus w' !! key = Some true.
Proof.
  intros Hfree Hrun Hs Hms Ht Hmt.
  assert (Hw' : frames_tracked w').
  { eapply tracked_run_calls; [|exact Hrun]. by apply tracked_init. }
  destruct (tracked_match _ _ _ _ _ Hw' Hs Hms) as (i & -> & Hleaf & _ & Hloaded).
  destruct (tracked_match _ _ _ _ _ Hw' Ht Hmt) as (j & -> & _).
  split; [|by eauto]. f_equal.
  destruct Hw' as (_ & _ & Hone).
  apply (Hone i j s t key); [by apply get_child | by apply get_child | done..].
Qed.

Lemma one_background_frame_per_key_witness :
  let w' := world_after [Preload "po-agent"; Activate "po-agent";
                         Preload "po-agent"; Deactivate] in
  ∃ s, get [3%nat] (body w') = Some s ∧ children s = [] ∧
       storylanePreloadStatus w' !! "po-agent" = Some true.
Proof.
  intros w'.
  assert (Hs : is_Some (get [3%nat] (body w'))) by (vm_compute; eauto).
  destruct Hs as [s Hs]. exists s. split; [exact Hs|].
  destruct (one_background_frame_per_key
              [Preload "po-agent"; Activate "po-agent"; Preload "po-agent";
               Deactivate]
              sample_world w' "po-agent" [3%nat] [3%nat] s s)
    as (_ & _ & Hleaf & Hloaded).
  - repeat constructor.
  - vm_compute. reflexivity.
  - exact Hs.
  - revert Hs. vm_compute. by intros [= <-].
  - exact Hs.
  - revert Hs. vm_compute. by intros [= <-].
  - split; [exact Hleaf | exact Hloaded].
Defined.

(** *** Frames inside a container *)

(** How many elements of the tree satisfy [P]. *)
Definition count (P : element → bool) (n : node) : nat :=
  length (filter (λ e, P e = true) (elements n)).

(** The same for a list of siblings: the descendants of their parent. *)
Definition count_below (P : element → bool) (ks : list node) : nat :=
  sum_list (count P <$> ks).

Lemma count_node P e ks :
  count P (Node e ks) = ((if P e then 1 else 0) + count_below P ks)%nat.
Proof.
  unfold count, count_below. cbn [elements]. rewrite filter_cons.
  assert (length (filter (λ e0, P e0 = true) (concat (map elements ks)))
          = sum_list ((λ n, length (filter (λ e0, P e0 = true) (elements n))) <$> ks))
    as Hks.
  { induction ks as [|k ks IH]; [done|]. cbn. by rewrite filter_app, length_app, IH. }
  destruct (decide (P e = true)) as [->|Hne]; cbn [length].
  - by rewrite Hks.
  - destruct (P e); [done|]. by rewrite Hks.
Qed.

Lemma count_below_cons P k ks :
  count_below P (k :: ks) = (count P k + count_below P ks)%nat.
Proof. reflexivity. Qed.

Lemma count_below_snoc P ks k :
  count_below P (ks ++ [k]) = (count_below P ks + count P k)%nat.
Proof.
  induction ks as [|x ks IH].
  - change ([] ++ [k]) with [k]. rewrite count_below_cons.
    change (count_below P []) with 0%nat. lia.
  - change ((x :: ks) ++ [k]) with (x :: (ks ++ [k])).
    rewrite !count_below_cons, IH. lia.
Qed.

Lemma count_below_delete P ks i k :
  ks !! i = Some k →
  (count_below P (delete i ks) + count P k = count_below P ks)%nat.
Proof.
  revert i. induction ks as [|x ks IH]; intros [|i] Hk; try done.
  - injection Hk as ->. change (delete 0 (k :: ks)) with ks.
    rewrite count_below_cons. lia.
  - cbn in Hk. specialize (IH i Hk).
    change (delete (S i) (x :: ks)) with (x :: delete i ks).
    rewrite !count_below_cons. lia.
Qed.

Lemma count_below_alter P f ks i k :
  ks !! i = Some k →
  (count_below P (alter f i ks) + count P k
   = count_below P ks + count P (f k))%nat.
Proof.
  revert i. induction ks as [|x ks IH]; intros [|i] Hk; try done.
  - injection Hk as ->. change (alter f 0 (k :: ks)) with (f k :: ks).
    rewrite !count_below_cons. lia.
  - cbn in Hk. specialize (IH i Hk).
    change (alter f (S i) (x :: ks)) with (x :: alter f i ks).
    rewrite !count_below_cons. lia.
Qed.

Lemma count_remove_at P r n s :
  r ≠ [] → get r n = Some s →
  (count P (remove_at r n) + count P s = count P n)%nat.
Proof.
  revert n. induction r as [|i r IH]; intros [e ks] Hr Hs; [done|].
  cbn in Hs. destruct (ks !! i) as [k|] eqn:Hk; [|done].
  destruct r as [|j r].
  - injection Hs as <-. cbn [remove_at el children]. rewrite !count_node.
    pose proof (count_below_delete P ks i k Hk). lia.
  - rewrite remove_at_cons. cbn [el children]. rewrite !count_node.
    pose proof (count_below_alter P (remove_at (j :: r)) ks i k Hk).
    specialize (IH k ltac:(done) Hs). lia.
Qed.

Lemma count_zero P n : find_first P n = None → count P n = 0%nat.
Proof.
  rewrite find_first_None. unfold count. generalize (elements n).
  intros l Hl. induction Hl as [|e l He _ IH]; [done|].
  rewrite filter_cons. destruct (decide (P e = true)); [congruence | exact IH].
Qed.

Lemma count_below_zero P ks i :
  find_among P ks i = None → count_below P ks = 0%nat.
Proof.
  rewrite find_among_None. intros Hks.
  induction Hks as [|k ks Hk _ IH]; [done|].
  by rewrite count_below_cons, (count_zero P k Hk), IH.
Qed.

Lemma count_pos P n : P (el n) = true → (1 ≤ count P n)%nat.
Proof.
  destruct n as [e ks]. cbn [el]. intros He. rewrite count_node, He. lia.
Qed.

Definition is_iframe (e : element) : bool := String.eqb (tag e) "iframe".

(** The container of the modal after a swap that returns [true]: the
    restyled clone is appended to what the container was without its first
    iframe. *)
Lemma swap_container agentId doc doc' k e :
  background_frame agentId k e doc → swap agentId doc = (true, doc') →
  ∃ m c sc sc0,
    getElementById (to_string (get_property modalMap agentId)) doc = Some m ∧
    find_below (has_class "sl-embed") m doc = Some c ∧
    get c doc = Some sc ∧
    get c doc' = Some (appendChild (clone_for_modal (Node e [])) sc0) ∧
    match find_among is_iframe (children sc) 0 with
    | None => sc0 = sc
    | Some q' => ∃ sub, get q' sc = Some sub ∧ q' ≠ [] ∧
                   is_iframe (el sub) = true ∧ sc0 = remove_at q' sc
    end.
Proof.
  intros (Hfirst & Hframe & Hcls). unfold swap. rewrite Hfirst.
  destruct (truthy (get_property modalMap agentId)) eqn:Htruthy; [|done].
  cbn [negb]. destruct (getElementById _ doc) as [m|]; [|done].
  destruct (find_below (has_class "sl-embed") m doc) as [c|] eqn:Hc; [|done].
  destruct (find_below_Some _ _ _ _ Hc) as (q & sc & Hcq & Hq & Hsc & Hembed).
  destruct c as [|c0 c']; [by destruct m, q|].
  assert (Hc0 : c0 ≠ k).
  { by apply (container_not_frame agentId doc k e c0 c' sc). }
  fold is_iframe. unfold find_below at 1 2. rewrite Hsc. 
  destruct (find_among is_iframe (children sc) 0) as [q'|] eqn:Hr;
    cbn [fmap option_fmap option_map from_option].
  - destruct (find_among_Some _ _ _ _ Hr) as (j & p' & x & Hq' & Hj & Hp' & _).
    destruct (find_first_Some _ _ _ Hp') as (sub & Hsub & Htag).
    assert (Hne : q' ≠ []) by by subst q'.
    assert (Hnow : after_removal ((c0 :: c') ++ q') [k] doc = Some (Node e []))
      by by rewrite after_removal_elsewhere.
    rewrite Hnow. intros Heq. apply pair_equal_spec in Heq as [_ <-].
    exists m, (c0 :: c'), sc, (remove_at q' sc).
    split; [done|]. split; [done|]. split; [done|]. split.
    + by rewrite get_alter_at, get_remove_at_app, Hsc.
    + rewrite Hr. exists sub. split; [|done].
      subst q'. cbn. change (0 + j)%nat with j. by rewrite Hj.
  - rewrite Hframe. intros Heq. apply pair_equal_spec in Heq as [_ <-].
    exists m, (c0 :: c'), sc, sc.
    split; [done|]. split; [done|]. split; [done|]. split; [|by rewrite Hr].
    by rewrite get_alter_at, Hsc.
Qed.

(** X10.  Opening a panel again does not pile up frames.  When the preloaded
    frame of [agentId] is a background frame and an iframe, a swap that
    returns [true] leaves the [.sl-embed] container with the restyled clone
    as its last child, with at least one iframe below it, and with no more
    iframes below it than it had before, or one if it had none: the first
    iframe of the container is removed before the clone is appended. *)
Theorem swap_does_not_pile_up_frames
    (agentId : string) (w w' : world) (k : nat) (e : element) :
  swapPreloadedIframe agentId w = Some (true, w') →
  background_frame agentId k e (body w) →
  tag e = "iframe" →
  ∃ m c before after,
    getElementById (to_string (get_property modalMap agentId)) (body w)
      = Some m ∧
    find_below (has_class "sl-embed") m (body w) = Some c ∧
    get c (body w) = Some before ∧
    get c (body w') = Some after ∧
    last (children after) = Some (clone_for_modal (Node e [])) ∧
    (1 ≤ count_below is_iframe (children after))%nat ∧
    (count_below is_iframe (children after)
     ≤ 1 `max` count_below is_iframe (children before))%nat.
Proof.
  intros Hswap Hbg Htag. unfold swapPreloadedIframe in Hswap.
  destruct (selector_plain agentId); [|done].
  destruct (swap agentId (body w)) as [used doc'] eqn:Hdoc.
  injection Hswap as -> <-. cbn [body set_body].
  destruct (swap_container _ _ _ _ _ Hbg Hdoc)
    as (m & c & sc & sc0 & Hm & Hc & Hsc & Hafter & Hsc0).
  exists m, c, sc, (appendChild (clone_for_modal (Node e [])) sc0).
  split; [done|]. split; [done|]. split; [done|]. split; [done|].
  split; [cbn; apply last_snoc|].
  assert (Hclone : count is_iframe (clone_for_modal (Node e [])) = 1%nat).
  { unfold clone_for_modal, on_el. cbn [el children]. rewrite count_node.
    unfold is_iframe at 1. cbn [tag set_classes removeAttribute set_attrs style_set set_style].
    by rewrite Htag. }
  assert (Happend : count_below is_iframe
                      (children (appendChild (clone_for_modal (Node e [])) sc0))
                    = (count_below is_iframe (children sc0) + 1)%nat).
  { unfold appendChild. cbn [children]. by rewrite count_below_snoc, Hclone. }
  rewrite Happend. split; [lia|].
  destruct (find_among is_iframe (children sc) 0) as [q'|] eqn:Hr.
  - destruct Hsc0 as (sub & Hsub & Hne & Hiframe & ->).
    pose proof (count_remove_at is_iframe q' sc sub Hne Hsub) as Hcount.
    pose proof (count_pos is_iframe sub Hiframe) as Hpos.
    destruct sc as [esc ks]. rewrite count_node in Hcount.
    assert (Hroot : el (remove_at q' (Node esc ks)) = esc) by apply el_remove_at.
    destruct (remove_at q' (Node esc ks)) as [e' ks'] eqn:Hrem.
    cbn in Hroot. subst e'. rewrite count_node in Hcount. cbn [children]. lia.
  - subst sc0. rewrite (count_below_zero _ _ _ Hr). lia.
Qed.

Lemma swap_does_not_pile_up_frames_witness :
  ∃ after,
    get [1%nat; 1%nat] (body swapped_world) = Some after ∧
    count_below is_iframe (children after) = 1%nat ∧
    last (children after)
      = Some (clone_for_modal
                (Node (preloadFrame "po-agent"
                         (get_property storylaneUrls "po-agent")) [])).
Proof.
  destruct (swap_does_not_pile_up_frames "po-agent" preloaded_world swapped_world
              3%nat (preloadFrame "po-agent" (get_property storylaneUrls "po-agent")))
    as (m & c & before & after & Hm & Hc & Hbefore & Hafter & Hlast & Hmin & Hmax).
  - vm_compute. reflexivity.
  - apply (preload_background_frame "po-agent" sample_world).
    + unfold agent_keys. set_solver.
    + reflexivity.
    + reflexivity.
  - reflexivity.
  - assert (Hpath : c = [1%nat; 1%nat]).
    { revert Hm Hc. vm_compute. intros [= <-]. by intros [= <-]. }
    subst c. exists after. split; [exact Hafter|]. split; [|exact Hlast].
    assert (Hb : count_below is_iframe (children before) = 1%nat).
    { revert Hbefore. vm_compute. by intros [= <-]. }
    rewrite Hb in Hmax. lia.
Defined.

(** X11.  What [swapPreloadedIframe] reports.  For an [agentId] that the
    selector takes as it is, the function returns normally; it returns
    [true] exactly when a preloaded frame matches, [agentId] has a modal id,
    the modal is in the document and has an [.sl-embed] container; when it
    returns [false] the page is as before, so that a missing modal or a
    missing container costs the modal no iframe.  The status object, the
    console and Reveal's keyboard setting are never touched. *)
Theorem swap_reports_its_lookups (agentId : string) (w : world) :
  selector_plain agentId = true →
  ∃ used w',
    swapPreloadedIframe agentId w = Some (used, w') ∧
    (used = true ↔
       ∃ pre m c,
         find_first (is_preloader agentId) (body w) = Some pre ∧
         truthy (get_property modalMap agentId) = true ∧
         getElementById (to_string (get_property modalMap agentId)) (body w)
           = Some m ∧
         find_below (has_class "sl-embed") m (body w) = Some c) ∧
    (used = false → w' = w) ∧
    storylanePreloadStatus w' = storylanePreloadStatus w ∧
    console w' = console w ∧
    reveal_keyboard w' = reveal_keyboard w.
Proof.
  intros Hplain. unfold swapPreloadedIframe. rewrite Hplain.
  pose proof (swap_true_iff agentId (body w)) as Hiff.
  pose proof (swap_false_same agentId (body w)) as Hsame.
  destruct (swap agentId (body w)) as [used doc']. cbn [fst snd] in *.
  exists used, (set_body doc' w). split; [done|]. split; [exact Hiff|].
  split; [|done]. intros Hused. rewrite (Hsame Hused). by destruct w.
Qed.

Lemma swap_reports_its_lookups_witness :
  swapPreloadedIframe "interview-agent"
    (preloadStorylaneDemos "interview-agent" sample_world)
  = Some (false, preloadStorylaneDemos "interview-agent" sample_world).
Proof.
  destruct (swap_reports_its_lookups "interview-agent"
              (preloadStorylaneDemos "interview-agent" sample_world))
    as (used & w' & Hswap & Hiff & Hsame & _); [reflexivity|].
  rewrite Hswap. destruct used.
  - exfalso. destruct Hiff as [Hiff _].
    destruct (Hiff eq_refl) as (pre & m & c & _ & _ & Hm & _).
    revert Hm. vm_compute. discriminate.
  - by rewrite (Hsame eq_refl).
Defined.

(** *** Searching a changed tree *)

Lemma find_among_alter P F ks i j :
  (∀ k, find_first P (F k) = find_first P k) →
  find_among P (alter F i ks) j = find_among P ks j.
Proof.
  intros HF. revert i j. induction ks as [|k ks IH]; intros [|i] j; try done.
  - change (alter F 0 (k :: ks)) with (F k :: ks). cbn. by rewrite HF.
  - change (alter F (S i) (k :: ks)) with (k :: alter F i ks). cbn.
    destruct (find_first P k); [done | apply IH].
Qed.

(** A search that does not see the change of one element. *)
Lemma find_first_alter_on_el P g p n :
  (∀ e, P (g e) = P e) →
  find_first P (alter_at (on_el g) p n) = find_first P n.
Proof.
  intros Hg. revert n. induction p as [|i p IH]; intros n.
  - by apply find_first_on_el.
  - rewrite !find_first_unfold. cbn [alter_at el children].
    destruct (P (el n)); [done|]. by apply find_among_alter.
Qed.

Lemma getElementById_alter_on_el i g p n :
  (∀ e, id (g e) = id e) →
  getElementById i (alter_at (on_el g) p n) = getElementById i n.
Proof.
  intros Hg. unfold getElementById. destruct (String.eqb i ""); [done|].
  apply find_first_alter_on_el. intros e. by rewrite Hg.
Qed.

Lemma find_among_snoc P ks c i :
  find_among P (ks ++ [c]) i =
  match find_among P ks i with
  | Some p => Some p
  | None => (λ q, (i + length ks)%nat :: q) <$> find_first P c
  end.
Proof.
  revert i. induction ks as [|k ks IH]; intros i.
  - cbn. rewrite Nat.add_0_r. by destruct (find_first P c).
  - cbn. destruct (find_first P k); [done|]. rewrite IH.
    destruct (find_among P ks (S i)); [done|].
    destruct (find_first P c); [|done]. cbn. do 2 f_equal. lia.
Qed.

(** The first match after [appendChild]: an old match stands, otherwise the
    new child is searched. *)
Lemma find_first_appendChild P c n :
  find_first P (appendChild c n) =
  match find_first P n with
  | Some p => Some p
  | None => (λ q, length (children n) :: q) <$> find_first P c
  end.
Proof.
  rewrite (find_first_unfold P (appendChild c n)), (find_first_unfold P n).
  unfold appendChild. cbn [el children].
  destruct (P (el n)); [done|]. by rewrite find_among_snoc.
Qed.

Lemma el_has_class_add c e : has_class c (add_class c e) = true.
Proof. apply ClassList.contains_add. Qed.

Lemma el_has_class_remove c e : has_class c (remove_class c e) = false.
Proof. apply ClassList.contains_remove. Qed.

Lemma length_children_alter_on_el g p d :
  length (children (alter_at (on_el g) p d)) = length (children d).
Proof. destruct p; cbn; [done | by rewrite length_alter]. Qed.

Lemma alter_at_ext f g p d :
  (∀ n, f n = g n) → alter_at f p d = alter_at g p d.
Proof.
  intros Hfg. revert d. induction p as [|i p IH]; intros d; [apply Hfg|].
  cbn. f_equal. apply list_alter_ext; [|done]. intros k _. apply IH.
Qed.

Lemma remove_class_idem c e :
  remove_class c (remove_class c e) = remove_class c e.
Proof.
  unfold remove_class, set_classes. cbn. f_equal.
  unfold ClassList.remove. rewrite list_filter_filter.
  apply list_filter_iff. intros x. tauto.
Qed.

End Storylane.

(** ** The zoom overlay: js/slides-interactive.js *)

Module Zoom.
Import Storylane.

(** The overlay as [showZoom] builds it: a [div] whose [innerHTML] gives it
    a close button and an image.  The text inside the button is no
    element. *)
Definition overlay_markup : node :=
  Node {| tag := "div"; id := Some "zoomOverlay"; classes := ["zoom-overlay"];
          attrs := ∅; style := ∅ |}
    [Node {| tag := "div"; id := None; classes := ["close-zoom"];
             attrs := ∅; style := ∅ |} [];
     Node {| tag := "img"; id := Some "zoomedImage"; classes := ["zoom-image"];
             attrs := <["src" := ""]> {["alt" := "Zoomed Image"]};
             style := ∅ |} []].

(** The elements whose [src] property reflects the [src] attribute. *)
Definition reflects_src (e : element) : bool :=
  bool_decide (tag e ∈ ["img"; "iframe"; "script"; "embed"; "source"; "track";
                        "input"; "audio"; "video"; "frame"]).

(** [element.src = v]: on an image, and on the other elements that have the
    property, the assignment sets the [src] attribute; on any other element
    it adds a property to the JavaScript object and leaves the document as
    it is. *)
Definition set_src (v : string) (e : element) : element :=
  if reflects_src e then setAttribute "src" v e else e.

(** [showZoom(imgSrc)].  [None] is the [TypeError] of [zoomedImg.src] when
    the document has no element with the id [zoomedImage]. *)
Definition showZoom (imgSrc : value) (w : world) : option world :=
  let '(overlay, doc) :=
    match getElementById "zoomOverlay" (body w) with
    | Some overlay => (overlay, body w)
    | None =>
        ([length (children (body w))], appendChild overlay_markup (body w))
    end in
  zoomedImg ← getElementById "zoomedImage" doc;
  let doc := alter_at (on_el (set_src (to_string imgSrc))) zoomedImg doc in
  let doc := alter_at (on_el (add_class "active")) overlay doc in
  Some (configure_keyboard false (set_body doc w)).

(** [closeZoom()] *)
Definition closeZoom (w : world) : world :=
  let w :=
    match getElementById "zoomOverlay" (body w) with
    | Some overlay =>
        set_body (alter_at (on_el (remove_class "active")) overlay (body w)) w
    | None => w
    end in
  configure_keyboard true w.

(** [.zoom-overlay.active] *)
Definition is_zoomed (e : element) : bool :=
  has_class "zoom-overlay" e && has_class "active" e.

(** The [keydown] listener of [setupZoomableImages]. *)
Definition zoom_keydown (key : string) (w : world) : world :=
  if String.eqb key "Escape" then
    match find_first is_zoomed (body w) with
    | Some zoomOverlay => closeZoom w
    | None => w
    end
  else w.

(** The calls of the page. *)
Inductive call :=
  | ShowZoom (imgSrc : value)
  | CloseZoom
  | Keydown (key : string).

Definition run_call (c : call) (w : world) : option world :=
  match c with
  | ShowZoom imgSrc => showZoom imgSrc w
  | CloseZoom => Some (closeZoom w)
  | Keydown key => Some (zoom_keydown key w)
  end.

Fixpoint run_calls (cs : list call) (w : world) : option world :=
  match cs with
  | [] => Some w
  | c :: cs' => run_call c w ≫= run_calls cs'
  end.

(** *** Showing and closing *)

Lemma set_src_id v e : id (set_src v e) = id e.
Proof. unfold set_src. by destruct (reflects_src e). Qed.

Lemma set_src_tag v e : reflects_src (set_src v e) = reflects_src e.
Proof. unfold set_src. by destruct (reflects_src e) eqn:H. Qed.

Lemma markup_image P :
  P = (λ e, bool_decide (id e = Some "zoomedImage")) →
  find_first P overlay_markup = Some [1%nat].
Proof. by intros ->. Qed.

Lemma markup_overlay P :
  P = (λ e, bool_decide (id e = Some "zoomOverlay")) →
  find_first P overlay_markup = Some [].
Proof. by intros ->. Qed.

(** The document in which [showZoom] looks for the image, and the overlay in
    it. *)
Definition with_overlay (doc : node) : path * node :=
  match getElementById "zoomOverlay" doc with
  | Some overlay => (overlay, doc)
  | None => ([length (children doc)], appendChild overlay_markup doc)
  end.

Lemma with_overlay_found doc :
  getElementById "zoomOverlay" (with_overlay doc).2 = Some (with_overlay doc).1.
Proof.
  unfold with_overlay.
  destruct (getElementById "zoomOverlay" doc) as [overlay|] eqn:Ho; [done|].
  cbn [fst snd]. revert Ho. unfold getElementById.
  change (String.eqb "zoomOverlay" "") with false. cbn iota.
  rewrite find_first_appendChild. intros ->.
  by rewrite (markup_overlay _ eq_refl).
Qed.

Lemma with_overlay_image doc :
  getElementById "zoomedImage" (with_overlay doc).2 = None ↔
  is_Some (getElementById "zoomOverlay" doc) ∧
  getElementById "zoomedImage" doc = None.
Proof.
  unfold with_overlay.
  destruct (getElementById "zoomOverlay" doc) as [overlay|] eqn:Ho; cbn [fst snd].
  - split; [by eauto | by intros [_ ?]].
  - split; [|by intros [[? ?] _]].
    unfold getElementById. change (String.eqb "zoomedImage" "") with false.
    cbn iota. rewrite find_first_appendChild, (markup_image _ eq_refl).
    by destruct (find_first _ doc).
Qed.

Lemma showZoom_unfold imgSrc w :
  showZoom imgSrc w =
  (zoomedImg ← getElementById "zoomedImage" (with_overlay (body w)).2;
   Some (configure_keyboard false
           (set_body
              (alter_at (on_el (add_class "active")) (with_overlay (body w)).1
                 (alter_at (on_el (set_src (to_string imgSrc)))
                    zoomedImg (with_overlay (body w)).2)) w))).
Proof.
  unfold showZoom, with_overlay.
  by destruct (getElementById "zoomOverlay" (body w)).
Qed.

(** X12.  [showZoom] fails exactly when the document has an element with the
    id [zoomOverlay] and none with the id [zoomedImage]: the image is looked
    up by its id in the whole document and used without a test.  On every
    other page, in particular on a page without overlay, the call returns
    normally. *)
Theorem showZoom_fails_without_image (imgSrc : value) (w : world) :
  showZoom imgSrc w = None ↔
  is_Some (getElementById "zoomOverlay" (body w)) ∧
  getElementById "zoomedImage" (body w) = None.
Proof.
  rewrite showZoom_unfold, <-with_overlay_image.
  by destruct (getElementById "zoomedImage" (with_overlay (body w)).2).
Qed.

(** The page after a call of [showZoom] that returns. *)
Lemma showZoom_Some imgSrc w w' :
  showZoom imgSrc w = Some w' →
  ∃ overlay zoomedImg so si,
    getElementById "zoomOverlay" (body w') = Some overlay ∧
    getElementById "zoomedImage" (body w') = Some zoomedImg ∧
    get overlay (body w') = Some so ∧
    get zoomedImg (body w') = Some si ∧
    has_class "active" (el so) = true ∧
    (reflects_src (el si) = true →
     attrs (el si) !! "src" = Some (to_string imgSrc)) ∧
    reveal_keyboard w' = (λ _, false) <$> reveal_keyboard w ∧
    length (children (body w'))
      = length (children (with_overlay (body w)).2).
Proof.
  rewrite showZoom_unfold.
  pose proof (with_overlay_found (body w)) as Ho.
  destruct (with_overlay (body w)) as [overlay doc]. cbn [fst snd] in *.
  destruct (getElementById "zoomedImage" doc) as [img|] eqn:Hi; [|done].
  cbn. intros [= <-]. cbn [body reveal_keyboard].
  set (src := set_src (to_string imgSrc)).
  assert (Hsrc_id : ∀ e, id (src e) = id e) by (intros e; apply set_src_id).
  set (doc' := alter_at (on_el (add_class "active")) overlay
                 (alter_at (on_el src) img doc)).
  assert (Ho' : getElementById "zoomOverlay" doc' = Some overlay).
  { unfold doc'. by rewrite !getElementById_alter_on_el. }
  assert (Hi' : getElementById "zoomedImage" doc' = Some img).
  { unfold doc'. by rewrite !getElementById_alter_on_el. }
  destruct (getElementById_found _ _ _ Ho') as (so & Hso & _).
  destruct (getElementById_found _ _ _ Hi') as (si & Hsi & _).
  destruct (getElementById_found _ _ _ Ho) as (so0 & Hso0 & _).
  destruct (getElementById_found _ _ _ Hi) as (si0 & Hsi0 & _).
  exists overlay, img, so, si.
  split; [done|]. split; [done|]. split; [done|]. split; [done|].
  assert (Hel : ∀ p, el <$> get p doc' =
            (if decide (p = overlay) then add_class "active" else λ e, e) <$>
            ((if decide (p = img) then src else λ e, e) <$> (el <$> get p doc))).
  { intros p. unfold doc'. by rewrite !el_get_alter_on_el. }
  split; [|split; [|split; [done|]]].
  - pose proof (Hel overlay) as H. rewrite Hso, Hso0 in H. cbn in H.
    rewrite decide_True in H by done. injection H as ->. apply el_has_class_add.
  - pose proof (Hel img) as H. rewrite Hsi, Hsi0 in H. cbn in H.
    rewrite (decide_True (P := img = img)) in H by done.
    injection H as ->. unfold src, set_src.
    destruct (reflects_src (el si0)) eqn:Hr.
    + intros _. destruct (decide (img = overlay)); cbn; apply lookup_insert_eq.
    + destruct (decide (img = overlay)); cbn; unfold reflects_src in *; cbn;
        congruence.
  - change (length (children doc') = length (children doc)).
    unfold doc'. by rewrite !length_children_alter_on_el.
Qed.

Lemma closeZoom_unfold w overlay :
  getElementById "zoomOverlay" (body w) = Some overlay →
  closeZoom w =
  configure_keyboard true
    (set_body (alter_at (on_el (remove_class "active")) overlay (body w)) w).
Proof. intros Ho. unfold closeZoom. by rewrite Ho. Qed.

Lemma closeZoom_idem w : closeZoom (closeZoom w) = closeZoom w.
Proof.
  destruct (getElementById "zoomOverlay" (body w)) as [overlay|] eqn:Ho.
  - rewrite (closeZoom_unfold w overlay Ho).
    rewrite (closeZoom_unfold _ overlay)
      by (cbn [body configure_keyboard set_body];
          by rewrite getElementById_alter_on_el).
    destruct w as [status doc out keyboard utils].
    unfold configure_keyboard, set_body.
    cbn [body storylanePreloadStatus console reveal_keyboard storylaneUtils].
    f_equal.
    + rewrite alter_at_compose. apply alter_at_ext. intros [e ks].
      unfold on_el. cbn. by rewrite remove_class_idem.
    + by destruct keyboard.
  - unfold closeZoom. rewrite Ho. cbn [body configure_keyboard]. rewrite Ho.
    destruct w as [status doc out keyboard utils].
    unfold configure_keyboard. cbn. f_equal. by destruct keyboard.
Qed.

(** X13.  Showing and closing.  After [showZoom(imgSrc)] has returned, the
    element with the id [zoomOverlay] has the class [active], the element
    with the id [zoomedImage], when it is an image or another element whose
    [src] property sets the attribute, has [imgSrc] as its [src], and
    Reveal's keyboard navigation is off.  [closeZoom] then takes [active]
    from the overlay and turns the navigation on again; the image keeps its
    [src].  A second [closeZoom] changes nothing. *)
Theorem zoom_shown_then_closed (imgSrc : value) (w w1 : world) :
  showZoom imgSrc w = Some w1 →
  ∃ overlay zoomedImg,
    getElementById "zoomOverlay" (body w1) = Some overlay ∧
    getElementById "zoomedImage" (body w1) = Some zoomedImg ∧
    (∃ so si,
       get overlay (body w1) = Some so ∧ get zoomedImg (body w1) = Some si ∧
       has_class "active" (el so) = true ∧
       (reflects_src (el si) = true →
        attrs (el si) !! "src" = Some (to_string imgSrc))) ∧
    reveal_keyboard w1 = (λ _, false) <$> reveal_keyboard w ∧
    (∃ so si,
       get overlay (body (closeZoom w1)) = Some so ∧
       get zoomedImg (body (closeZoom w1)) = Some si ∧
       has_class "active" (el so) = false ∧
       (reflects_src (el si) = true →
        attrs (el si) !! "src" = Some (to_string imgSrc))) ∧
    reveal_keyboard (closeZoom w1) = (λ _, true) <$> reveal_keyboard w ∧
    closeZoom (closeZoom w1) = closeZoom w1.
Proof.
  intros Hshow.
  destruct (showZoom_Some _ _ _ Hshow)
    as (overlay & img & so & si & Ho & Hi & Hso & Hsi & Hactive & Hsrc & Hkey & _).
  exists overlay, img.
  split; [done|]. split; [done|]. split; [by exists so, si|]. split; [done|].
  split; [|split; [|apply closeZoom_idem]].
  - rewrite (closeZoom_unfold w1 overlay Ho). cbn [body configure_keyboard set_body].
    pose proof (el_get_alter_on_el (remove_class "active") overlay overlay (body w1))
      as Hel_o.
    pose proof (el_get_alter_on_el (remove_class "active") overlay img (body w1))
      as Hel_i.
    rewrite Hso in Hel_o. rewrite Hsi in Hel_i.
    destruct (get overlay (alter_at _ overlay (body w1))) as [so'|]; [|done].
    destruct (get img (alter_at _ overlay (body w1))) as [si'|]; [|done].
    cbn in Hel_o, Hel_i. rewrite decide_True in Hel_o by done.
    injection Hel_o as Hel_o. injection Hel_i as Hel_i.
    exists so', si'. split; [done|]. split; [done|]. split.
    + rewrite Hel_o. apply el_has_class_remove.
    + rewrite Hel_i. by destruct (decide (img = overlay)).
  - rewrite (closeZoom_unfold w1 overlay Ho). cbn [reveal_keyboard configure_keyboard set_body].
    rewrite Hkey. by destruct (reveal_keyboard w).
Qed.

Lemma zoom_shown_then_closed_witness :
  ∃ w1, showZoom (Str "img/funnel.png") sample_world = Some w1 ∧
    (∃ zoomedImg si,
       getElementById "zoomedImage" (body w1) = Some zoomedImg ∧
       get zoomedImg (body w1) = Some si ∧
       attrs (el si) !! "src" = Some "img/funnel.png") ∧
    reveal_keyboard w1 = Some false ∧
    reveal_keyboard (closeZoom w1) = Some true ∧
    closeZoom (closeZoom w1) = closeZoom w1.
Proof.
  assert (Hshow : ∃ w1, showZoom (Str "img/funnel.png") sample_world = Some w1 ∧
            ∀ zoomedImg si,
              getElementById "zoomedImage" (body w1) = Some zoomedImg →
              get zoomedImg (body w1) = Some si → reflects_src (el si) = true).
  { eexists. split; [vm_compute; reflexivity|].
    intros img si. vm_compute. by intros [= <-] [= <-]. }
  destruct Hshow as (w1 & Hshow & Himg). exists w1. split; [exact Hshow|].
  destruct (zoom_shown_then_closed _ _ _ Hshow)
    as (overlay & img & _ & Hi & (so & si & _ & Hsi & _ & Hsrc) & Hoff & _ & Hon
        & Hidem).
  split.
  - exists img, si. split; [exact Hi|]. split; [exact Hsi|].
    apply Hsrc. exact (Himg img si Hi Hsi).
  - split; [exact Hoff|]. split; [exact Hon | exact Hidem].
Defined.

(** *** The overlay is built once *)

(** The overlay and its image are in the document. *)
Definition ready (w : world) : Prop :=
  is_Some (getElementById "zoomOverlay" (body w)) ∧
  is_Some (getElementById "zoomedImage" (body w)).

Lemma showZoom_ready imgSrc w w' : showZoom imgSrc w = Some w' → ready w'.
Proof.
  intros (overlay & img & _ & _ & Ho & Hi & _)%showZoom_Some.
  split; by eexists.
Qed.

Lemma closeZoom_keeps w :
  (ready w → ready (closeZoom w)) ∧
  length (children (body (closeZoom w))) = length (children (body w)).
Proof.
  unfold closeZoom.
  destruct (getElementById "zoomOverlay" (body w)) as [overlay|] eqn:Ho;
    cbn [body configure_keyboard set_body]; [|done].
  split; [|apply length_children_alter_on_el].
  unfold ready. cbn [body configure_keyboard set_body].
  by rewrite !getElementById_alter_on_el.
Qed.

Lemma zoom_keydown_keeps key w :
  (ready w → ready (zoom_keydown key w)) ∧
  length (children (body (zoom_keydown key w))) = length (children (body w)).
Proof.
  unfold zoom_keydown. destruct (String.eqb key "Escape"); [|done].
  destruct (find_first is_zoomed (body w)); [apply closeZoom_keeps | done].
Qed.

Lemma with_overlay_ready w :
  ready w → (with_overlay (body w)).2 = body w.
Proof. intros [[overlay Ho] _]. unfold with_overlay. by rewrite Ho. Qed.

Lemma run_calls_ready cs w :
  ready w →
  ∃ w', run_calls cs w = Some w' ∧ ready w' ∧
        length (children (body w')) = length (children (body w)).
Proof.
  revert w. induction cs as [|c cs IH]; intros w Hw; [by exists w|].
  cbn [run_calls]. destruct c as [imgSrc| |key]; cbn [run_call].
  - destruct (showZoom imgSrc w) as [w1|] eqn:Hshow.
    + destruct (IH w1 (showZoom_ready _ _ _ Hshow)) as (w' & Hrun & Hw' & Hlen).
      exists w'. split; [done|]. split; [done|]. rewrite Hlen.
      destruct (showZoom_Some _ _ _ Hshow) as (? & ? & ? & ? & _ & _ & _ & _ & _ & _ & _ & ->).
      by rewrite with_overlay_ready.
    + apply showZoom_fails_without_image in Hshow as [_ Hnone].
      destruct Hw as [_ [img Himg]]. congruence.
  - destruct (closeZoom_keeps w) as [Hready Hlen].
    destruct (IH _ (Hready Hw)) as (w' & Hrun & Hw' & Hlen').
    exists w'. cbn. split; [done|]. split; [done|]. congruence.
  - destruct (zoom_keydown_keeps key w) as [Hready Hlen].
    destruct (IH _ (Hready Hw)) as (w' & Hrun & Hw' & Hlen').
    exists w'. cbn. split; [done|]. split; [done|]. congruence.
Qed.

(** X14.  The overlay is built once.  On a page that has no element with
    the id [zoomOverlay], or has one with the id [zoomedImage], every
    sequence of [showZoom] and [closeZoom] calls and key presses runs to its
    end without an error; the body gets at most one more child, the overlay
    of the first [showZoom], and none when the overlay was there from the
    start. *)
Theorem zoom_overlay_built_once (cs : list call) (w : world) :
  getElementById "zoomOverlay" (body w) = None ∨
  is_Some (getElementById "zoomedImage" (body w)) →
  ∃ w', run_calls cs w = Some w' ∧
    (length (children (body w')) ≤ S (length (children (body w))))%nat ∧
    (is_Some (getElementById "zoomOverlay" (body w)) →
     length (children (body w')) = length (children (body w))).
Proof.
  revert w. induction cs as [|c cs IH]; intros w Hw.
  { exists w. split; [done|]. split; [lia | done]. }
  destruct (getElementById "zoomOverlay" (body w)) as [overlay|] eqn:Ho.
  { destruct Hw as [|Himg]; [done|].
    destruct (run_calls_ready (c :: cs) w) as (w' & Hrun & _ & Hlen);
      [split; [by eexists | done]|].
    exists w'. split; [done|]. split; [lia | done]. }
  cbn [run_calls]. destruct c as [imgSrc| |key]; cbn [run_call].
  - destruct (showZoom imgSrc w) as [w1|] eqn:Hshow.
    2:{ apply showZoom_fails_without_image in Hshow as [[? ?] _]. congruence. }
    destruct (run_calls_ready cs w1 (showZoom_ready _ _ _ Hshow))
      as (w' & Hrun & _ & Hlen).
    exists w'. split; [done|]. split; [|by intros [? ?]].
    rewrite Hlen.
    destruct (showZoom_Some _ _ _ Hshow) as (? & ? & ? & ? & _ & _ & _ & _ & _ & _ & _ & ->).
    unfold with_overlay. rewrite Ho. cbn. rewrite length_app. cbn. lia.
  - assert (Hsame : closeZoom w = configure_keyboard true w)
      by (unfold closeZoom; by rewrite Ho).
    destruct (IH (closeZoom w)) as (w' & Hrun & Hlen & _).
    { left. by rewrite Hsame. }
    exists w'. cbn. split; [done|]. split; [|by intros [? ?]].
    by rewrite Hsame in Hlen.
  - assert (Hsame : body (zoom_keydown key w) = body w).
    { unfold zoom_keydown. destruct (String.eqb key "Escape"); [|done].
      destruct (find_first is_zoomed (body w)); [|done].
      unfold closeZoom. by rewrite Ho. }
    destruct (IH (zoom_keydown key w)) as (w' & Hrun & Hlen & _).
    { left. by rewrite Hsame. }
    exists w'. cbn. split; [done|]. split; [|by intros [? ?]].
    by rewrite Hsame in Hlen.
Qed.

Lemma zoom_overlay_built_once_witness :
  ∃ w',
    run_calls [ShowZoom (Str "a.png"); CloseZoom; ShowZoom (Str "b.png"); Keydown "Escape";
               ShowZoom Undefined] sample_world = Some w' ∧
    (length (children (body w')) ≤ 4)%nat.
Proof.
  destruct (zoom_overlay_built_once
              [ShowZoom (Str "a.png"); CloseZoom; ShowZoom (Str "b.png"); Keydown "Escape";
               ShowZoom Undefined] sample_world) as (w' & Hrun & Hlen & _).
  - left. reflexivity.
  - exists w'. split; [exact Hrun | exact Hlen].
Defined.

End Zoom.

(** ** The preloading schedule: [initStorylaneDemoPreloader] *)

Module Preloader.
Import Storylane.

(** A pending [setTimeout]: the time at which it was armed, its delay, and
    the agent whose demo its callback preloads. *)
Record timer := {
  armed : nat;
  delay : nat;
  agent : string }.

(** An element of the document: below the head or below the body. *)
Inductive place :=
  | InHead (p : path)
  | InBody (p : path).

#[local] Instance place_eq_dec : EqDecision place.
Proof. solve_decision. Defined.

(** The page of the preloader script: the state that [Storylane] works on,
    the head of the document, the pending timers, the clock in
    milliseconds, and the elements that have a [mouseenter] listener of the
    script, one entry for every [addEventListener]. *)
Record page := {
  state : world;
  head : node;
  timers : list timer;
  now : nat;
  listeners : list place }.

Definition set_state (w : world) (pg : page) : page :=
  {| state := w; head := head pg; timers := timers pg; now := now pg;
     listeners := listeners pg |}.

Definition set_head (h : node) (pg : page) : page :=
  {| state := state pg; head := h; timers := timers pg; now := now pg;
     listeners := listeners pg |}.

Definition setTimeout (agentId : string) (ms : nat) (pg : page) : page :=
  {| state := state pg; head := head pg;
     timers := timers pg ++ [{| armed := now pg; delay := ms; agent := agentId |}];
     now := now pg; listeners := listeners pg |}.

Definition addEventListeners (cards : list place) (pg : page) : page :=
  {| state := state pg; head := head pg; timers := timers pg; now := now pg;
     listeners := listeners pg ++ cards |}.

(** Every match in document order. *)
Fixpoint find_all (P : element → bool) (n : node) : list path :=
  match n with
  | Node e ks =>
      (if P e then [[]] else []) ++
      (fix among (ks : list node) (i : nat) : list path :=
         match ks with
         | [] => []
         | k :: ks' => ((λ p, i :: p) <$> find_all P k) ++ among ks' (S i)
         end) ks 0%nat
  end.

(** [document.querySelectorAll]: the head comes before the body. *)
Definition querySelectorAll (P : element → bool) (pg : page) : list place :=
  (InHead <$> find_all P (head pg)) ++ (InBody <$> find_all P (body (state pg))).

(** [document.querySelector] and [document.getElementById], as far as the
    script uses them: whether there is a match. *)
Definition matches (P : element → bool) (pg : page) : bool :=
  bool_decide (is_Some (find_first P (head pg))) ||
  bool_decide (is_Some (find_first P (body (state pg)))).

Definition has_id (i : string) (e : element) : bool :=
  bool_decide (id e = Some i).

(** The [script] element that loads the Storylane library. *)
Definition script : element :=
  {| tag := "script"; id := Some "storylane-script"; classes := [];
     attrs := <["async" := ""]>
                {["src" := "https://js.storylane.io/js/v2/storylane.js"]};
     style := ∅ |}.

(** [initStorylaneDemoPreloader()] *)
Definition initStorylaneDemoPreloader (pg : page) : page :=
  let pg :=
    if matches (has_id "storylane-script") pg then pg
    else set_head (appendChild (Node script []) (head pg)) pg in
  if negb (matches (has_class "intelligent-agents-slide") pg) then pg
  else
    let pg := setTimeout "po-agent" 500 pg in
    let pg := setTimeout "onboarding-agent" 2000 pg in
    let pg := setTimeout "interview-agent" 3500 pg in
    let pg := setTimeout "claim-agent" 5000 pg in
    addEventListeners (querySelectorAll (has_class "agent-card") pg) pg.

Definition element_at (x : place) (pg : page) : option element :=
  match x with
  | InHead p => el <$> get p (head pg)
  | InBody p => el <$> get p (body (state pg))
  end.

(** The [mouseenter] listener of an agent card. *)
Definition card_mouseenter (x : place) (pg : page) : page :=
  match element_at x pg with
  | Some this =>
      match attrs this !! "data-agent-id" with
      | Some agentId =>
          if truthy (Str agentId)
          then set_state (preloadStorylaneDemos agentId (state pg)) pg
          else pg
      | None => pg
      end
  | None => pg
  end.

(** What happens to the page: the script is initialised (on
    [DOMContentLoaded], and by [setupStorylaneDemos] on every slide change),
    the pointer enters an element, time passes, the pending timer at
    position [k] fires. *)
Inductive event :=
  | Init
  | MouseEnter (x : place)
  | Elapse (ms : nat)
  | Fire (k : nat).

(** One event; [None] when a timer is asked to fire that is not pending or
    not yet due.  An element runs its listener once for every time it was
    registered. *)
Definition step (e : event) (pg : page) : option page :=
  match e with
  | Init => Some (initStorylaneDemoPreloader pg)
  | MouseEnter x =>
      Some (Nat.iter (length (filter (λ y, y = x) (listeners pg)))
              (card_mouseenter x) pg)
  | Elapse ms =>
      Some {| state := state pg; head := head pg; timers := timers pg;
              now := now pg + ms; listeners := listeners pg |}
  | Fire k =>
      match timers pg !! k with
      | Some t =>
          if (armed t + delay t <=? now pg)%nat then
            Some (set_state (preloadStorylaneDemos (agent t) (state pg))
                    {| state := state pg; head := head pg;
                       timers := delete k (timers pg); now := now pg;
                       listeners := listeners pg |})
          else None
      | None => None
      end
  end.

Fixpoint run (es : list event) (pg : page) : option page :=
  match es with
  | [] => Some pg
  | e :: es' => step e pg ≫= run es'
  end.

(** The delay that the schedule gives to an agent. *)
Definition scheduled (agentId : string) : option nat :=
  if String.eqb agentId "po-agent" then Some 500%nat
  else if String.eqb agentId "onboarding-agent" then Some 2000%nat
  else if String.eqb agentId "interview-agent" then Some 3500%nat
  else if String.eqb agentId "claim-agent" then Some 5000%nat
  else None.

Definition loaded (agentId : string) (pg : page) : Prop :=
  storylanePreloadStatus (state pg) !! agentId = Some true.

(** *** What a step changes *)

Lemma preload_loads agentId w :
  agentId ∈ agent_keys →
  storylanePreloadStatus (preloadStorylaneDemos agentId w) !! agentId = Some true.
Proof.
  intros Hk. destruct (truthy (status_of w agentId)) eqn:Hs.
  - rewrite preload_skips_loaded by done.
    unfold status_of, get_property in Hs. rewrite lookup_fmap in Hs.
    destruct (storylanePreloadStatus w !! agentId) as [[]|]; [done | done |].
    cbn in Hs. unfold inherited in Hs.
    revert Hk Hs. unfold agent_keys. rewrite !elem_of_cons, elem_of_nil.
    by intros [-> | [-> | [-> | [-> | []]]]].
  - rewrite preload_attaches by done. cbn. apply lookup_insert_eq.
Qed.

Lemma preload_keeps_loaded agentId w k :
  storylanePreloadStatus w !! k = Some true →
  storylanePreloadStatus (preloadStorylaneDemos agentId w) !! k = Some true.
Proof. apply (run_call_status (Preload agentId) w _ k eq_refl). Qed.

(** A call marks no key but its own. *)
Lemma preload_marks_own_key agentId w k :
  storylanePreloadStatus (preloadStorylaneDemos agentId w) !! k = Some true →
  storylanePreloadStatus w !! k = Some true ∨ k = agentId.
Proof.
  unfold preloadStorylaneDemos.
  destruct (negb (truthy (Str agentId)) || truthy (status_of w agentId));
    [by left|].
  destruct (negb (truthy (get_property storylaneUrls agentId))); [by left|].
  cbn. rewrite lookup_insert. case_decide as Hk; [by right | by left].
Qed.

Lemma mouseenter_state x pg :
  head (card_mouseenter x pg) = head pg ∧
  timers (card_mouseenter x pg) = timers pg ∧
  now (card_mouseenter x pg) = now pg ∧
  (∀ k, loaded k pg → loaded k (card_mouseenter x pg)).
Proof.
  unfold card_mouseenter. destruct (element_at x pg) as [this|]; [|by auto].
  destruct (attrs this !! "data-agent-id") as [agentId|]; [|by auto].
  destruct (truthy (Str agentId)); [|by auto].
  split; [done|]. split; [done|]. split; [done|].
  intros k Hk. unfold loaded. cbn. by apply preload_keeps_loaded.
Qed.

Lemma iter_mouseenter_state n x pg :
  head (Nat.iter n (card_mouseenter x) pg) = head pg ∧
  timers (Nat.iter n (card_mouseenter x) pg) = timers pg ∧
  now (Nat.iter n (card_mouseenter x) pg) = now pg ∧
  (∀ k, loaded k pg → loaded k (Nat.iter n (card_mouseenter x) pg)).
Proof.
  induction n as [|n (Hh & Ht & Hn & Hl)]; [by auto|].
  rewrite !Nat.iter_succ.
  destruct (mouseenter_state x (Nat.iter n (card_mouseenter x) pg))
    as (Hh' & Ht' & Hn' & Hl').
  split; [congruence|]. split; [congruence|]. split; [congruence|]. auto.
Qed.

Lemma init_unfold pg :
  let pg1 := if matches (has_id "storylane-script") pg then pg
             else set_head (appendChild (Node script []) (head pg)) pg in
  state (initStorylaneDemoPreloader pg) = state pg ∧
  now (initStorylaneDemoPreloader pg) = now pg ∧
  head (initStorylaneDemoPreloader pg) = head pg1 ∧
  timers (initStorylaneDemoPreloader pg) =
    timers pg ++
    (if matches (has_class "intelligent-agents-slide") pg1 then
       [{| armed := now pg; delay := 500; agent := "po-agent" |};
        {| armed := now pg; delay := 2000; agent := "onboarding-agent" |};
        {| armed := now pg; delay := 3500; agent := "interview-agent" |};
        {| armed := now pg; delay := 5000; agent := "claim-agent" |}]
     else []).
Proof.
  intros pg1. unfold initStorylaneDemoPreloader. fold pg1.
  assert (state pg1 = state pg ∧ now pg1 = now pg ∧ timers pg1 = timers pg)
    as (Hs & Hn & Ht).
  { unfold pg1. by destruct (matches (has_id "storylane-script") pg). }
  destruct (matches (has_class "intelligent-agents-slide") pg1); cbn.
  - rewrite Hs, Hn, Ht, <-!(assoc_L (++)). done.
  - by rewrite Hs, Hn, Ht, app_nil_r.
Qed.

(** The script element does not hide the slide. *)
Lemma matches_with_script P pg :
  matches P pg = true →
  matches P (if matches (has_id "storylane-script") pg then pg
             else set_head (appendChild (Node script []) (head pg)) pg) = true.
Proof.
  destruct (matches (has_id "storylane-script") pg); [done|].
  unfold matches. cbn [head state set_head].
  rewrite !orb_true_iff, !bool_decide_eq_true. intros [[p Hp] | Hbody]; [|by right].
  left. rewrite find_first_appendChild, Hp. by eexists.
Qed.

Lemma run_app es es' pg :
  run (es ++ es') pg = run es pg ≫= run es'.
Proof.
  revert pg. induction es as [|e es IH]; intros pg; [done|].
  cbn. destruct (step e pg); [apply IH | done].
Qed.

(** *** Every demo gets loaded *)

(** Every agent key is loaded or has a timer pending. *)
Definition on_its_way (pg : page) : Prop :=
  ∀ key, key ∈ agent_keys →
    loaded key pg ∨ ∃ j t, timers pg !! j = Some t ∧ agent t = key.

(** A timer is pending that is due [ms] after [t0] or later, or that time
    has come. *)
Definition not_before (t0 ms : nat) (pg : page) : Prop :=
  (∃ j t, timers pg !! j = Some t ∧ t0 + ms ≤ armed t + delay t) ∨
  t0 + ms ≤ now pg.

Lemma lookup_delete_other {A} (l : list A) k j x :
  l !! j = Some x → j ≠ k → ∃ j', delete k l !! j' = Some x.
Proof.
  intros Hj Hjk. destruct (decide (j < k)) as [Hlt|Hge].
  - exists j. by rewrite list_lookup_delete_lt.
  - exists (pred j). rewrite list_lookup_delete_ge by lia.
    by replace (S (pred j)) with j by lia.
Qed.

Lemma step_on_its_way e pg pg' :
  step e pg = Some pg' → on_its_way pg → on_its_way pg'.
Proof.
  intros Hstep Hpg key Hkey. destruct (Hpg key Hkey) as [Hl | (j & t & Hj & Ht)].
  - left. destruct e as [|x|ms|k]; cbn in Hstep.
    + injection Hstep as <-. unfold loaded.
      by rewrite (proj1 (init_unfold pg)).
    + injection Hstep as <-. by apply iter_mouseenter_state.
    + by injection Hstep as <-.
    + destruct (timers pg !! k) as [t|]; [|done].
      destruct (armed t + delay t <=? now pg); [|done].
      injection Hstep as <-. unfold loaded. cbn. by apply preload_keeps_loaded.
  - destruct e as [|x|ms|k]; cbn in Hstep.
    + injection Hstep as <-. right. exists j, t. split; [|done].
      destruct (init_unfold pg) as (_ & _ & _ & ->).
      by apply lookup_app_l_Some.
    + injection Hstep as <-. right. exists j, t. split; [|done].
      by rewrite (proj1 (proj2 (iter_mouseenter_state _ x pg))).
    + injection Hstep as <-. right. by exists j, t.
    + destruct (timers pg !! k) as [t'|] eqn:Hk; [|done].
      destruct (armed t' + delay t' <=? now pg); [|done].
      injection Hstep as <-. destruct (decide (j = k)) as [->|Hjk].
      * left. unfold loaded. cbn. assert (t' = t) as -> by congruence.
        rewrite Ht. by apply preload_loads.
      * right. destruct (lookup_delete_other _ k j t Hj Hjk) as [j' Hj'].
        by exists j', t.
Qed.

Lemma step_now e pg pg' : step e pg = Some pg' → now pg ≤ now pg'.
Proof.
  destruct e as [|x|ms|k]; cbn; intros Hstep.
  - injection Hstep as <-. by rewrite (proj1 (proj2 (init_unfold pg))).
  - injection Hstep as <-.
    by rewrite (proj1 (proj2 (proj2 (iter_mouseenter_state _ x pg)))).
  - injection Hstep as <-. cbn. lia.
  - destruct (timers pg !! k) as [t|]; [|done].
    destruct (armed t + delay t <=? now pg); [|done]. by injection Hstep as <-.
Qed.

Lemma step_not_before t0 ms e pg pg' :
  step e pg = Some pg' → not_before t0 ms pg → not_before t0 ms pg'.
Proof.
  intros Hstep [(j & t & Hj & Ht) | Hnow].
  2:{ right. pose proof (step_now _ _ _ Hstep). lia. }
  destruct e as [|x|ms'|k]; cbn in Hstep.
  - injection Hstep as <-. left. exists j, t. split; [|done].
    destruct (init_unfold pg) as (_ & _ & _ & ->). by apply lookup_app_l_Some.
  - injection Hstep as <-. left. exists j, t. split; [|done].
    by rewrite (proj1 (proj2 (iter_mouseenter_state _ x pg))).
  - injection Hstep as <-. left. by exists j, t.
  - destruct (timers pg !! k) as [t'|] eqn:Hk; [|done].
    destruct (armed t' + delay t' <=? now pg) eqn:Hdue; [|done].
    injection Hstep as <-. destruct (decide (j = k)) as [->|Hjk].
    + right. cbn. apply Nat.leb_le in Hdue.
      assert (t' = t) as -> by congruence. lia.
    + left. destruct (lookup_delete_other _ k j t Hj Hjk) as [j' Hj'].
      by exists j', t.
Qed.

Lemma run_invariant (I : page → Prop) es pg pg' :
  (∀ e pg pg', step e pg = Some pg' → I pg → I pg') →
  run es pg = Some pg' → I pg → I pg'.
Proof.
  intros Hstep. revert pg. induction es as [|e es IH]; intros pg; cbn.
  - by intros [= <-].
  - destruct (step e pg) as [pg1|] eqn:He; [|done]. cbn.
    intros Hrun Hpg. apply (IH pg1 Hrun). by eapply Hstep.
Qed.

(** X15.  The schedule loads every demo.  On a page with the agents slide,
    once [initStorylaneDemoPreloader] has run and no timer is pending any
    more, each of the four agent keys is marked as loaded, whatever cards
    were hovered and however often the script was initialised again in
    between; and this is no earlier than 5000 ms after the first
    initialisation. *)
Theorem schedule_loads_every_demo (es : list event) (pg pg' : page) :
  matches (has_class "intelligent-agents-slide") pg = true →
  run (Init :: es) pg = Some pg' →
  timers pg' = [] →
  (∀ key, key ∈ agent_keys → loaded key pg') ∧ now pg + 5000 ≤ now pg'.
Proof.
  intros Hslide Hrun Hdone. cbn in Hrun.
  set (pg1 := initStorylaneDemoPreloader pg) in *.
  destruct (init_unfold pg) as (_ & Hnow & _ & Htimers). fold pg1 in Hnow, Htimers.
  rewrite (matches_with_script _ _ Hslide) in Htimers.
  assert (Hat : ∀ i t,
            [{| armed := now pg; delay := 500; agent := "po-agent" |};
             {| armed := now pg; delay := 2000; agent := "onboarding-agent" |};
             {| armed := now pg; delay := 3500; agent := "interview-agent" |};
             {| armed := now pg; delay := 5000; agent := "claim-agent" |}] !! i
            = Some t →
            timers pg1 !! (length (timers pg) + i) = Some t).
  { intros i t Hi. rewrite Htimers. by rewrite lookup_app_r, Nat.add_comm, Nat.add_sub by lia. }
  assert (H1 : on_its_way pg1).
  { intros key. unfold agent_keys. rewrite !elem_of_cons, elem_of_nil.
    intros [-> | [-> | [-> | [-> | []]]]]; right.
    - eexists _, _. split; [by apply (Hat 0)|done].
    - eexists _, _. split; [by apply (Hat 1)|done].
    - eexists _, _. split; [by apply (Hat 2)|done].
    - eexists _, _. split; [by apply (Hat 3)|done]. }
  assert (H2 : not_before (now pg) 5000 pg1).
  { left. eexists _, _. split; [by apply (Hat 3)|]. cbn. lia. }
  split.
  - intros key Hkey.
    pose proof (run_invariant on_its_way es pg1 pg' step_on_its_way Hrun H1) as H.
    destruct (H key Hkey) as [|(j & t & Hj & _)]; [done|].
    by rewrite Hdone in Hj.
  - pose proof (run_invariant (not_before (now pg) 5000) es pg1 pg'
                  (step_not_before _ _) Hrun H2) as [(j & t & Hj & _)|]; [|done].
    by rewrite Hdone in Hj.
Qed.

(** A page with the agents slide and two agent cards, as the browser has
    loaded it. *)
Definition card (agentId : string) : node :=
  Node {| tag := "div"; id := None; classes := ["agent-card"];
          attrs := {["data-agent-id" := agentId]}; style := ∅ |} [].

Definition agents_page : page :=
  {| state :=
       {| storylanePreloadStatus := initial_status;
          body := div None []
                    [div None ["intelligent-agents-slide"]
                       [card "po-agent"; card "claim-agent"]];
          console := []; reveal_keyboard := Some true; storylaneUtils := true |};
     head := Node (createElement "head") [];
     timers := []; now := 0; listeners := [] |}.

Lemma schedule_loads_every_demo_witness :
  ∃ pg',
    run [Init; Elapse 600; MouseEnter (InBody [0; 1]); Elapse 4400;
         Fire 0; Fire 0; Fire 0; Fire 0] agents_page = Some pg' ∧
    (∀ key, key ∈ agent_keys → loaded key pg') ∧
    5000 ≤ now pg'.
Proof.
  assert (Hrun : is_Some
            (run [Init; Elapse 600; MouseEnter (InBody [0; 1]); Elapse 4400;
                  Fire 0; Fire 0; Fire 0; Fire 0] agents_page))
    by (vm_compute; eexists; reflexivity).
  destruct Hrun as [pg' Hrun]. exists pg'. split; [exact Hrun|].
  apply (schedule_loads_every_demo
           [Elapse 600; MouseEnter (InBody [0; 1]); Elapse 4400;
            Fire 0; Fire 0; Fire 0; Fire 0] agents_page pg').
  - reflexivity.
  - exact Hrun.
  - assert (Hts : timers <$>
              run [Init; Elapse 600; MouseEnter (InBody [0; 1]); Elapse 4400;
                   Fire 0; Fire 0; Fire 0; Fire 0] agents_page = Some [])
      by (vm_compute; reflexivity).
    rewrite Hrun in Hts. by injection Hts.
Defined.

(** *** Staggering *)

(** The timers are those of the schedule, armed at [t0] or later, and a
    loaded key is a scheduled key whose delay has passed since [t0]. *)
Definition staggered (t0 : nat) (pg : page) : Prop :=
  (∀ j t, timers pg !! j = Some t →
     scheduled (agent t) = Some (delay t) ∧ t0 ≤ armed t) ∧
  (∀ key, loaded key pg → ∃ d, scheduled key = Some d ∧ t0 + d ≤ now pg) ∧
  t0 ≤ now pg.

Definition no_hover (e : event) : Prop :=
  match e with
  | MouseEnter _ => False
  | _ => True
  end.

Lemma step_staggered t0 e pg pg' :
  no_hover e → step e pg = Some pg' → staggered t0 pg → staggered t0 pg'.
Proof.
  intros He Hstep (Htimers & Hloaded & Hnow).
  destruct e as [|x|ms|k]; cbn in Hstep; [| done | |].
  - injection Hstep as <-.
    destruct (init_unfold pg) as (Hs & Hn & _ & Ht).
    split; [|split].
    + intros j t. rewrite Ht. rewrite lookup_app.
      destruct (timers pg !! j) as [t'|] eqn:Hj.
      * intros [= <-]. by apply (Htimers j).
      * destruct (matches _ _); [|by rewrite lookup_nil].
        destruct (j - length (timers pg)) as [|[|[|[|?]]]]; cbn;
          try done; by intros [= <-].
    + intros key. unfold loaded. rewrite Hs, Hn. apply Hloaded.
    + by rewrite Hn.
  - injection Hstep as <-. split; [done|]. split; [|cbn; lia].
    intros key Hkey. destruct (Hloaded key Hkey) as (d & Hd & Hle).
    exists d. split; [done|]. cbn. lia.
  - destruct (timers pg !! k) as [t|] eqn:Hk; [|done].
    destruct (armed t + delay t <=? now pg) eqn:Hdue; [|done].
    apply Nat.leb_le in Hdue. injection Hstep as <-.
    split; [|split; [|done]].
    + intros j t'. cbn. intros Hj. destruct (decide (j < k)) as [Hlt|Hge].
      * rewrite list_lookup_delete_lt in Hj by done. by apply (Htimers j).
      * rewrite list_lookup_delete_ge in Hj by lia. by apply (Htimers (S j)).
    + intros key. unfold loaded. cbn.
      intros [Hold | ->]%preload_marks_own_key; [by apply Hloaded|].
      destruct (Htimers k t Hk) as [Hd Harmed].
      exists (delay t). split; [done | lia].
Qed.

Lemma run_staggered t0 es pg pg' :
  Forall no_hover es → run es pg = Some pg' → staggered t0 pg → staggered t0 pg'.
Proof.
  intros Hes. revert pg. induction Hes as [|e es He _ IH]; intros pg; cbn.
  - by intros [= <-].
  - destruct (step e pg) as [pg1|] eqn:Hstep; [|done]. cbn.
    intros Hrun Hpg. apply (IH pg1 Hrun). by eapply step_staggered.
Qed.

(** X16.  The schedule is staggered.  From a page without pending timers and
    without a loaded key, and as long as no card is hovered, a key that is
    marked as loaded is one of the four of the schedule and its delay (500,
    2000, 3500, 5000 ms) has passed since the first initialisation, however
    often the script is initialised again. *)
Theorem schedule_is_staggered
    (es : list event) (pg pg' : page) (key : string) :
  timers pg = [] →
  (∀ k, ¬ loaded k pg) →
  Forall no_hover es →
  run es pg = Some pg' →
  loaded key pg' →
  ∃ d, scheduled key = Some d ∧ now pg + d ≤ now pg'.
Proof.
  intros Hnone Hfresh Hes Hrun Hkey.
  assert (H0 : staggered (now pg) pg).
  { split; [|split; [|done]].
    - intros j t. by rewrite Hnone.
    - intros k Hk. by destruct (Hfresh k). }
  destruct (run_staggered (now pg) es pg pg' Hes Hrun H0) as (_ & Hloaded & _).
  by apply Hloaded.
Qed.

Lemma schedule_is_staggered_witness :
  ∃ pg',
    run [Init; Elapse 2100; Fire 0; Fire 0] agents_page = Some pg' ∧
    loaded "onboarding-agent" pg' ∧
    ∃ d, scheduled "onboarding-agent" = Some d ∧ 0 + d ≤ now pg'.
Proof.
  assert (Hrun : is_Some (run [Init; Elapse 2100; Fire 0; Fire 0] agents_page))
    by (vm_compute; eexists; reflexivity).
  destruct Hrun as [pg' Hrun]. exists pg'. split; [exact Hrun|].
  assert (Hloaded : loaded "onboarding-agent" pg').
  { assert (H : (λ pg, storylanePreloadStatus (state pg) !! "onboarding-agent") <$>
                run [Init; Elapse 2100; Fire 0; Fire 0] agents_page
                = Some (Some true)) by (vm_compute; reflexivity).
    rewrite Hrun in H. by injection H. }
  split; [exact Hloaded|].
  apply (schedule_is_staggered [Init; Elapse 2100; Fire 0; Fire 0]
           agents_page pg' "onboarding-agent").
  - reflexivity.
  - intros k. unfold loaded. cbn. unfold initial_status. cbn.
    rewrite !lookup_insert. repeat case_decide; done.
  - repeat constructor.
  - exact Hrun.
  - exact Hloaded.
Defined.

(** *** The script element *)

Lemma preload_keeps_match P agentId w :
  is_Some (find_first P (body w)) →
  is_Some (find_first P (body (preloadStorylaneDemos agentId w))).
Proof.
  intros [p Hp]. unfold preloadStorylaneDemos.
  destruct (negb (truthy (Str agentId)) || truthy (status_of w agentId));
    [by eexists|].
  destruct (negb (truthy (get_property storylaneUrls agentId))); [by eexists|].
  cbn [body set_status set_body log]. rewrite find_first_appendChild, Hp.
  by eexists.
Qed.

Lemma matches_state P pg pg' :
  head pg' = head pg →
  (is_Some (find_first P (body (state pg))) →
   is_Some (find_first P (body (state pg')))) →
  matches P pg = true → matches P pg' = true.
Proof.
  intros Hhead Hbody. unfold matches. rewrite Hhead.
  rewrite !orb_true_iff, !bool_decide_eq_true. tauto.
Qed.

Lemma iter_mouseenter_match P n x pg :
  is_Some (find_first P (body (state pg))) →
  is_Some (find_first P (body (state (Nat.iter n (card_mouseenter x) pg)))).
Proof.
  intros Hpg. induction n as [|n IH]; [done|]. rewrite Nat.iter_succ.
  unfold card_mouseenter at 1.
  destruct (element_at x _) as [this|]; [|done].
  destruct (attrs this !! "data-agent-id") as [agentId|]; [|done].
  destruct (truthy (Str agentId)); [|done].
  cbn [state set_state]. by apply preload_keeps_match.
Qed.

Lemma step_keeps_match P e pg pg' :
  step e pg = Some pg' → matches P pg = true → matches P pg' = true.
Proof.
  destruct e as [|x|ms|k]; cbn; intros Hstep Hpg.
  - injection Hstep as <-. destruct (init_unfold pg) as (Hs & _ & Hh & _).
    apply (matches_state P _ _ Hh); [|by apply matches_with_script].
    rewrite Hs. by destruct (matches (has_id "storylane-script") pg).
  - injection Hstep as <-.
    apply (matches_state P pg); [apply iter_mouseenter_state | | done].
    apply iter_mouseenter_match.
  - by injection Hstep as <-.
  - destruct (timers pg !! k) as [t|]; [|done].
    destruct (armed t + delay t <=? now pg); [|done]. injection Hstep as <-.
    apply (matches_state P pg); [done | | done].
    cbn [state set_state]. apply preload_keeps_match.
Qed.

Lemma step_head e pg pg' :
  step e pg = Some pg' →
  head pg' = head pg ∨
  (e = Init ∧ matches (has_id "storylane-script") pg = false ∧
   head pg' = appendChild (Node script []) (head pg) ∧
   matches (has_id "storylane-script") pg' = true).
Proof.
  destruct e as [|x|ms|k]; cbn; intros Hstep.
  - injection Hstep as <-. destruct (init_unfold pg) as (_ & _ & Hh & _).
    destruct (matches (has_id "storylane-script") pg) eqn:Hscript; [by left|].
    right. split; [done|]. split; [done|]. split; [done|].
    unfold matches. rewrite Hh. cbn [head set_head].
    rewrite find_first_appendChild. apply orb_true_iff. left.
    apply bool_decide_eq_true.
    destruct (find_first (has_id "storylane-script") (head pg)); by eexists.
  - injection Hstep as <-. left. apply iter_mouseenter_state.
  - injection Hstep as <-. by left.
  - destruct (timers pg !! k) as [t|]; [|done].
    destruct (armed t + delay t <=? now pg); [|done]. injection Hstep as <-.
    by left.
Qed.

Lemma run_head_with_script es pg pg' :
  run es pg = Some pg' → matches (has_id "storylane-script") pg = true →
  head pg' = head pg ∧ matches (has_id "storylane-script") pg' = true.
Proof.
  revert pg. induction es as [|e es IH]; intros pg; cbn.
  - by intros [= <-].
  - destruct (step e pg) as [pg1|] eqn:Hstep; [|done]. cbn. intros Hrun Hpg.
    destruct (IH pg1 Hrun (step_keeps_match _ _ _ _ Hstep Hpg)) as [-> ->].
    split; [|done].
    destruct (step_head _ _ _ Hstep) as [|(_ & Hno & _)]; [done | congruence].
Qed.

(** X17.  The Storylane script is loaded once.  Whatever happens to the
    page, its head is as at the start or has one more child, the [script]
    element with the id [storylane-script]; it is as at the start when the
    document had an element with that id.  After an initialisation the
    document has such an element. *)
Theorem script_loaded_once (es : list event) (pg pg' : page) :
  run es pg = Some pg' →
  (head pg' = head pg ∨
   (matches (has_id "storylane-script") pg = false ∧
    head pg' = appendChild (Node script []) (head pg))) ∧
  (matches (has_id "storylane-script") pg = true → head pg' = head pg) ∧
  (Init ∈ es → matches (has_id "storylane-script") pg' = true).
Proof.
  intros Hrun. split; [|split].
  - revert pg Hrun. induction es as [|e es IH]; intros pg; cbn.
    { intros [= <-]. by left. }
    destruct (step e pg) as [pg1|] eqn:Hstep; [|done]. cbn. intros Hrun.
    destruct (step_head _ _ _ Hstep) as [Hsame | (_ & Hno & Hh & Hyes)].
    + destruct (IH pg1 Hrun) as [-> | [Hno ->]]; [by left|].
      rewrite Hsame. right. split; [|done].
      destruct (matches (has_id "storylane-script") pg) eqn:Hpg; [|done].
      by rewrite (step_keeps_match _ _ _ _ Hstep Hpg) in Hno.
    + right. split; [done|].
      by destruct (run_head_with_script es pg1 pg' Hrun Hyes) as [-> _].
  - intros Hpg. by apply (run_head_with_script es pg pg').
  - revert pg Hrun. induction es as [|e es IH]; intros pg; cbn.
    { by intros _ ?%elem_of_nil. }
    destruct (step e pg) as [pg1|] eqn:Hstep; [|done]. cbn.
    intros Hrun [<- | Hin]%elem_of_cons; [|by apply (IH pg1)].
    apply (run_head_with_script es pg1 pg' Hrun).
    destruct (step_head _ _ _ Hstep) as [Hsame | (_ & _ & _ & Hyes)]; [|done].
    cbn in Hstep. injection Hstep as <-.
    destruct (init_unfold pg) as (Hs & _ & Hh & _).
    destruct (matches (has_id "storylane-script") pg) eqn:Hpg.
    + apply (matches_state _ pg); [done | by rewrite Hs | done].
    + exfalso. rewrite Hh in Hsame. cbn in Hsame.
      apply (f_equal (λ n, length (children n))) in Hsame.
      revert Hsame. unfold appendChild. cbn. rewrite length_app. cbn. lia.
Qed.

Lemma script_loaded_once_witness :
  ∃ pg',
    run [Init; Elapse 600; Fire 0; Init; MouseEnter (InBody [0; 1]); Init]
      agents_page = Some pg' ∧
    head pg' = appendChild (Node script []) (head agents_page).
Proof.
  assert (Hrun : is_Some
            (run [Init; Elapse 600; Fire 0; Init; MouseEnter (InBody [0; 1]); Init]
               agents_page))
    by (vm_compute; eexists; reflexivity).
  destruct Hrun as [pg' Hrun]. exists pg'. split; [exact Hrun|].
  destruct (script_loaded_once _ _ _ Hrun) as ([Hsame | [_ Hone]] & _ & Hinit);
    [|exact Hone].
  exfalso. assert (Hyes : matches (has_id "storylane-script") pg' = true).
  { apply Hinit. apply list_elem_of_here. }
  revert Hyes. unfold matches. rewrite Hsame.
  assert (Hbody : bool_decide
            (is_Some (find_first (has_id "storylane-script") (body (state pg'))))
          = false).
  { assert (H : (λ pg, bool_decide
                    (is_Some (find_first (has_id "storylane-script")
                                (body (state pg))))) <$>
                run [Init; Elapse 600; Fire 0; Init; MouseEnter (InBody [0; 1]); Init]
                  agents_page = Some false) by (vm_compute; reflexivity).
    rewrite Hrun in H. by injection H. }
  rewrite Hbody. by vm_compute.
Defined.

End Preloader.

(** ** Explanation popups: [setupExplanationPopups] of
    js/slides-interactive.js *)

Module Popups.
Import Storylane.

(** [.explanation-popup.active] *)
Definition is_active_popup (e : element) : bool :=
  has_class "explanation-popup" e && has_class "active" e.

(** [forEach] over the matches among a node and its descendants; [f] is
    given the place of the element, [here] is the place of the node. *)
Fixpoint for_each (P : element → bool) (f : path → element → element)
    (here : path) (n : node) : node :=
  match n with
  | Node e ks =>
      Node (if P e then f here e else e)
        ((fix among (ks : list node) (i : nat) : list node :=
            match ks with
            | [] => []
            | k :: ks' => for_each P f (here ++ [i]) k :: among ks' (S i)
            end) ks 0%nat)
  end.

(** The same through a list of siblings, the first of which has position
    [i] below [here]. *)
Fixpoint for_each_among (P : element → bool) (f : path → element → element)
    (here : path) (ks : list node) (i : nat) : list node :=
  match ks with
  | [] => []
  | k :: ks' => for_each P f (here ++ [i]) k :: for_each_among P f here ks' (S i)
  end.

(** [root.querySelectorAll(selector).forEach(f)]: the matches are below the
    root. *)
Definition for_each_below (P : element → bool) (f : path → element → element)
    (root : path) (doc : node) : node :=
  alter_at (λ n, Node (el n) (for_each_among P f root (children n) 0)) root doc.

(** The listeners that [setupExplanationPopups] gives to a card title whose
    popup is at [popup], on the slide at [slide]. *)
Definition title_mouseenter (slide popup : path) (doc : node) : node :=
  let doc :=
    for_each_below is_active_popup
      (λ p e, if decide (p = popup) then e else remove_class "active" e)
      slide doc in
  alter_at (on_el (add_class "active")) popup doc.

(** [hovered] is the answer of [popup.matches(':hover')]. *)
Definition title_mouseleave (popup : path) (hovered : bool) (doc : node) : node :=
  if negb hovered then alter_at (on_el (remove_class "active")) popup doc
  else doc.

Definition title_click (slide popup : path) (doc : node) : node :=
  match get popup doc with
  | Some s =>
      let isCurrentlyActive := has_class "active" (el s) in
      let doc :=
        for_each_below is_active_popup (λ _ e, remove_class "active" e)
          slide doc in
      if negb isCurrentlyActive
      then alter_at (on_el (add_class "active")) popup doc
      else doc
  | None => doc
  end.

(** *** What [forEach] does to an element *)

Lemma for_each_unfold P f here n :
  for_each P f here n =
  Node (if P (el n) then f here (el n) else el n)
    (for_each_among P f here (children n) 0).
Proof.
  destruct n as [e ks]. cbn [for_each el children]. f_equal.
  generalize 0%nat. induction ks as [|k ks IH]; intros i; [done|].
  cbn. f_equal. apply IH.
Qed.

Lemma lookup_for_each_among P f here ks i j :
  for_each_among P f here ks i !! j
  = for_each P f (here ++ [(i + j)%nat]) <$> ks !! j.
Proof.
  revert i j. induction ks as [|k ks IH]; intros i [|j]; cbn; [done..| |].
  - by rewrite Nat.add_0_r.
  - rewrite IH. by replace (S i + j)%nat with (i + S j)%nat by lia.
Qed.

Lemma el_get_for_each P f here q n :
  el <$> get q (for_each P f here n)
  = (λ e, if P e then f (here ++ q) e else e) <$> (el <$> get q n).
Proof.
  revert here n. induction q as [|i q IH]; intros here n.
  - rewrite for_each_unfold. cbn. by rewrite app_nil_r.
  - rewrite for_each_unfold. cbn [get children].
    rewrite lookup_for_each_among. destruct (children n !! i) as [k|]; [|done].
    cbn [fmap option_fmap option_map]. rewrite IH.
    by rewrite <-(assoc_L (++)).
Qed.

(** An element strictly below the root after the [forEach]. *)
Lemma el_get_for_each_below P f root i q doc :
  el <$> get (root ++ i :: q) (for_each_below P f root doc)
  = (λ e, if P e then f (root ++ i :: q) e else e) <$>
    (el <$> get (root ++ i :: q) doc).
Proof.
  unfold for_each_below. rewrite !get_app.
  rewrite get_alter_at. destruct (get root doc) as [n|]; [|done].
  cbn [fmap option_fmap option_map mbind option_bind get children].
  rewrite lookup_for_each_among. destruct (children n !! i) as [k|]; [|done].
  cbn [fmap option_fmap option_map]. rewrite el_get_for_each.
  by rewrite <-(assoc_L (++)).
Qed.

Lemma not_active_without c e :
  is_active_popup (if is_active_popup e then remove_class c e else e) = false
  ∨ c ≠ "active".
Proof.
  destruct (decide (c = "active")) as [->|]; [left | by right].
  destruct (is_active_popup e) eqn:He; [|done].
  unfold is_active_popup. unfold has_class at 2. cbn.
  rewrite ClassList.contains_remove. apply andb_false_r.
Qed.

Lemma deactivated e :
  is_active_popup (if is_active_popup e then remove_class "active" e else e)
  = false.
Proof. by destruct (not_active_without "active" e). Qed.

(** A slide with two cards; the popup of the first card is open. *)
Definition future_card (popup_classes : list string) : node :=
  div None ["future-card"]
    [div None ["future-card-title"] []; div None popup_classes []].

Definition cards_slide : node :=
  div None []
    [div None ["ai-adoption-slide"]
       [future_card ["explanation-popup"; "active"];
        future_card ["explanation-popup"]]].

(** X18.  One explanation popup at a time.  After the [mouseenter] listener
    of a card title has run, and after its [click] listener has run, an
    element below the slide that matches [.explanation-popup.active] is the
    popup of that title.  After a click on the title of a popup that was
    open no element below the slide matches: the click has closed it.  The
    same holds once the pointer has entered a title and left it again
    without being on the popup. *)
Theorem one_explanation_popup
    (slide popup : path) (doc : node) (s0 : node) (i : nat) (q : path)
    (s : node) :
  get popup doc = Some s0 →
  (get (slide ++ i :: q) (title_mouseenter slide popup doc) = Some s →
   is_active_popup (el s) = true → slide ++ i :: q = popup) ∧
  (get (slide ++ i :: q) (title_click slide popup doc) = Some s →
   is_active_popup (el s) = true →
   slide ++ i :: q = popup ∧ has_class "active" (el s0) = false) ∧
  (get (slide ++ i :: q)
     (title_mouseleave popup false (title_mouseenter slide popup doc)) = Some s →
   is_active_popup (el s) = false).
Proof.
  intros Hs0. split; [|split].
  - unfold title_mouseenter. intros Hs Hopen.
    destruct (decide (slide ++ i :: q = popup)) as [|Hne]; [done|]. exfalso.
    assert (Hel : el <$> get (slide ++ i :: q)
              (alter_at (on_el (add_class "active")) popup
                 (for_each_below is_active_popup
                    (λ p e, if decide (p = popup) then e
                            else remove_class "active" e) slide doc))
            = Some (el s)) by by rewrite Hs.
    rewrite el_get_alter_on_el, el_get_for_each_below in Hel.
    destruct (get (slide ++ i :: q) doc) as [s1|]; [|done]. cbn in Hel.
    rewrite !decide_False in Hel by done. injection Hel as Hel.
    rewrite <-Hel, deactivated in Hopen. done.
  - unfold title_click. rewrite Hs0.
    set (doc1 := for_each_below is_active_popup
                   (λ _ e, remove_class "active" e) slide doc).
    assert (Hel1 : ∀ s1, get (slide ++ i :: q) doc1 = Some s1 →
              is_active_popup (el s1) = false).
    { intros s1 Hs1.
      assert (Hel : el <$> get (slide ++ i :: q) doc1 = Some (el s1))
        by by rewrite Hs1.
      unfold doc1 in Hel. rewrite el_get_for_each_below in Hel.
      destruct (get (slide ++ i :: q) doc) as [s2|]; [|done]. cbn in Hel.
      injection Hel as <-. apply deactivated. }
    destruct (has_class "active" (el s0)) eqn:Hactive; cbn [negb].
    + intros Hs Hopen. by rewrite (Hel1 s Hs) in Hopen.
    + intros Hs Hopen. split; [|done].
      destruct (decide (slide ++ i :: q = popup)) as [|Hne]; [done|]. exfalso.
      assert (Hel : el <$> get (slide ++ i :: q)
                (alter_at (on_el (add_class "active")) popup doc1)
              = Some (el s)) by by rewrite Hs.
      rewrite el_get_alter_on_el in Hel.
      destruct (get (slide ++ i :: q) doc1) as [s1|] eqn:Hs1; [|done].
      cbn in Hel. rewrite decide_False in Hel by done. injection Hel as Hel.
      rewrite <-Hel, (Hel1 s1 eq_refl) in Hopen. done.
  - unfold title_mouseleave, title_mouseenter. cbn [negb]. intros Hs.
    assert (Hel : el <$> get (slide ++ i :: q)
              (alter_at (on_el (remove_class "active")) popup
                 (alter_at (on_el (add_class "active")) popup
                    (for_each_below is_active_popup
                       (λ p e, if decide (p = popup) then e
                               else remove_class "active" e) slide doc)))
            = Some (el s)) by by rewrite Hs.
    rewrite !el_get_alter_on_el, el_get_for_each_below in Hel.
    destruct (get (slide ++ i :: q) doc) as [s1|]; [|done].
    cbn [fmap option_fmap option_map] in Hel.
    injection Hel as Hel. rewrite <-Hel.
    case_decide as Heq.
    + unfold is_active_popup. rewrite el_has_class_remove. apply andb_false_r.
    + apply deactivated.
Qed.

Lemma one_explanation_popup_witness :
  ∃ s1 s2,
    get [0; 0; 1]%nat (title_click [0%nat] [0; 1; 1]%nat cards_slide) = Some s1 ∧
    get [0; 1; 1]%nat (title_click [0%nat] [0; 1; 1]%nat cards_slide) = Some s2 ∧
    is_active_popup (el s1) = false ∧ is_active_popup (el s2) = true.
Proof.
  eexists _, _. split; [reflexivity|]. split; [reflexivity|].
  split; [|reflexivity].
  match goal with |- is_active_popup (el ?x) = false => set (s1 := x) end.
  destruct (is_active_popup (el s1)) eqn:Hopen; [|done]. exfalso.
  destruct (one_explanation_popup [0%nat] [0; 1; 1]%nat cards_slide
              (div None ["explanation-popup"] []) 0%nat [1%nat] s1 eq_refl)
    as (_ & Hclick & _).
  destruct (Hclick eq_refl Hopen) as [Hpath _]. discriminate Hpath.
Defined.

End Popups.

(** ** Content scaling: [adjustContentScaling] of js/slide-consistency.js *)

Module Scaling.
Import Storylane.

(** [scaleFactor], chosen by the width of the window.  The doubles are those
    of the literals 0.95, 0.92, 0.9, 0.85, 0.8 and 0.75. *)
Definition scaleFactor (windowWidth : Z) : float :=
  if (1920 <=? windowWidth)%Z then 0x1.e666666666666p-1%float
  else if (1600 <=? windowWidth)%Z then 0x1.d70a3d70a3d71p-1%float
  else if (1440 <=? windowWidth)%Z then 0x1.ccccccccccccdp-1%float
  else if (1280 <=? windowWidth)%Z then 0x1.b333333333333p-1%float
  else if (1024 <=? windowWidth)%Z then 0x1.999999999999ap-1%float
  else 0x1.8p-1%float.

(** The value of a double that is a whole number. *)
Definition whole (x : float) : option Z :=
  match Prim2SF x with
  | S754_zero _ => Some 0%Z
  | S754_finite s m e =>
      let magnitude :=
        if (0 <=? e)%Z then Some (Z.pos m * 2 ^ e)%Z
        else if (Z.pos m mod 2 ^ (- e) =? 0)%Z then Some (Z.pos m / 2 ^ (- e))%Z
        else None in
      (λ z, if s then (- z)%Z else z) <$> magnitude
  | _ => None
  end.

(** A number inside a template literal, for a whole number below 10^21,
    which JavaScript prints with all its digits; other numbers are outside
    this model. *)
Definition number_text (x : float) : option string :=
  match whole x with
  | Some z => if (Z.abs z <? 10 ^ 21)%Z then Some (pretty z) else None
  | None => None
  end.

(** [`${scaleFactor * 100}%`] *)
Definition fontSize (windowWidth : Z) : option string :=
  (λ t, t +:+ "%") <$> number_text (scaleFactor windowWidth * 100)%float.

(** [`${Math.min(380, windowHeight * 0.5)}px`] for a window height that is a
    whole number of pixels and not negative, as [innerHeight] is: half of it
    is exact, and is printed with [.5] when the height is odd.  Other
    heights are outside this model. *)
Definition funnelHeight (windowHeight : Z) : option string :=
  if (windowHeight <? 0)%Z then None
  else
    Some ((if (760 <=? windowHeight)%Z then "380"
           else pretty (windowHeight / 2)%Z +:+
                (if Z.even windowHeight then "" else ".5")) +:+ "px").

(** The size that a heading gets, if any. *)
Definition headingSize (windowWidth : Z) : option string :=
  if (windowWidth <=? 1280)%Z then Some "22px"
  else if (windowWidth <=? 1440)%Z then Some "24px"
  else None.

(** [forEach] over the matches of a selector that looks at the ancestors of
    an element, nearest first. *)
Fixpoint with_ancestors (f : list element → element → element)
    (ancestors : list element) (n : node) : node :=
  match n with
  | Node e ks => Node (f ancestors e) (map (with_ancestors f (e :: ancestors)) ks)
  end.

Definition below_reveal (ancestors : list element) : bool :=
  existsb (has_class "reveal") ancestors.

(** Below an element of class [slides] that is below one of class
    [reveal]. *)
Fixpoint below_reveal_slides (ancestors : list element) : bool :=
  match ancestors with
  | [] => false
  | a :: rest =>
      (has_class "slides" a && below_reveal rest) || below_reveal_slides rest
  end.

(** [.reveal .slides section] *)
Definition is_slide_section (ancestors : list element) (e : element) : bool :=
  String.eqb (tag e) "section" && below_reveal_slides ancestors.

(** [.reveal h2] *)
Definition is_heading (ancestors : list element) (e : element) : bool :=
  String.eqb (tag e) "h2" && below_reveal ancestors.

(** [adjustContentScaling()] in a window of the given size, as a change of
    the document; what it prints to the console is left out.  [None] stands
    for a size outside [number_text] and [funnelHeight]. *)
Definition adjustContentScaling (windowWidth windowHeight : Z) (doc : node)
    : option node :=
  size ← fontSize windowWidth;
  height ← funnelHeight windowHeight;
  let doc :=
    with_ancestors
      (λ ancestors slideSection,
         if is_slide_section ancestors slideSection
         then style_set "fontSize" size slideSection else slideSection)
      [] doc in
  let doc :=
    map_elements
      (λ funnel,
         if has_class "funnel-3d-container" funnel
         then style_set "height" height funnel else funnel)
      doc in
  let doc :=
    with_ancestors
      (λ ancestors heading,
         if is_heading ancestors heading then
           match headingSize windowWidth with
           | Some px => style_set "fontSize" px heading
           | None => heading
           end
         else heading)
      [] doc in
  Some doc.

(** X19.  The font size of the slides.  For every width of the window the
    product [scaleFactor * 100] is a whole number in binary64, so the font
    size that the sections get is one of 95%, 92%, 90%, 85%, 80% and 75%
    with no digits after the point; the thresholds are 1920, 1600, 1440,
    1280 and 1024 pixels, and a wider window never gets a smaller size. *)
Theorem font_size_is_whole_percent (windowWidth : Z) :
  ∃ percent : Z,
    whole (scaleFactor windowWidth * 100)%float = Some percent ∧
    fontSize windowWidth = Some (pretty percent +:+ "%") ∧
    percent =
      (if (1920 <=? windowWidth) then 95
       else if (1600 <=? windowWidth) then 92
       else if (1440 <=? windowWidth) then 90
       else if (1280 <=? windowWidth) then 85
       else if (1024 <=? windowWidth) then 80
       else 75)%Z ∧
    ∀ wider percent',
      (windowWidth ≤ wider)%Z →
      whole (scaleFactor wider * 100)%float = Some percent' →
      (percent ≤ percent')%Z.
Proof.
  assert (Hwhole : ∀ w,
            whole (scaleFactor w * 100)%float =
            Some (if (1920 <=? w) then 95
                  else if (1600 <=? w) then 92
                  else if (1440 <=? w) then 90
                  else if (1280 <=? w) then 85
                  else if (1024 <=? w) then 80
                  else 75)%Z).
  { intros w. unfold scaleFactor. by repeat case_match. }
  eexists. split; [apply Hwhole|]. split; [|split; [reflexivity|]].
  - unfold fontSize, number_text. rewrite Hwhole. by repeat case_match.
  - intros wider percent' Hle. rewrite Hwhole. intros [= <-].
    repeat case_match; lia.
Qed.

(** *** Headings *)

Lemma with_ancestors_same f ancestors n :
  (∀ a e, f a e = e) → with_ancestors f ancestors n = n.
Proof.
  intros Hf. revert ancestors.
  induction n as [e ks IH] using node_induction. intros ancestors.
  cbn. rewrite Hf. f_equal.
  induction IH as [|k ks Hk _ IHks]; [done|]. cbn. by rewrite Hk, IHks.
Qed.

Lemma get_with_ancestors f q ancestors n s :
  get q n = Some s →
  ∃ ancestors' s', get q (with_ancestors f ancestors n) = Some s' ∧
                   el s' = f ancestors' (el s).
Proof.
  revert ancestors n. induction q as [|i q IH]; intros ancestors [e ks] Hs.
  - injection Hs as <-. by eexists _, _.
  - cbn in Hs. destruct (ks !! i) as [k|] eqn:Hk; [|done].
    destruct (IH (e :: ancestors) k Hs) as (a' & s' & Hs' & Hel).
    exists a', s'. split; [|done]. cbn [with_ancestors get children].
    change (map ?g ks) with (g <$> ks). by rewrite list_lookup_fmap, Hk.
Qed.

Lemma get_map_elements f q n :
  get q (map_elements f n) = map_elements f <$> get q n.
Proof.
  revert n. induction q as [|i q IH]; intros [e ks]; [done|].
  cbn [map_elements get children].
  change (map ?g ks) with (g <$> ks). rewrite list_lookup_fmap.
  destruct (ks !! i) as [k|]; [apply IH | done].
Qed.

(** A page with a funnel, a heading and a slide inside [.reveal .slides]. *)
Definition tagged (t : string) (cls : list string) (ks : list node) : node :=
  Node {| tag := t; id := None; classes := cls; attrs := ∅; style := ∅ |} ks.

Definition deck : node :=
  tagged "body" []
    [tagged "div" ["reveal"]
       [tagged "div" ["slides"]
          [tagged "section" []
             [tagged "h2" [] []; tagged "div" ["funnel-3d-container"] []]]]].

(** X20.  Headings are never reset.  In a window wider than 1440 pixels
    [adjustContentScaling] leaves the inline font size
    of every [h2] element as it is: a heading that got 22px or 24px in a
    narrower window keeps that size when the window is widened, while the
    sections get the font size of the wide window. *)
Theorem wide_window_keeps_heading_size
    (windowWidth windowHeight : Z) (doc : node) (q : path) (s : node) :
  (1440 < windowWidth)%Z →
  (0 ≤ windowHeight)%Z →
  get q doc = Some s →
  tag (el s) = "h2" →
  ∃ doc' s',
    adjustContentScaling windowWidth windowHeight doc = Some doc' ∧
    get q doc' = Some s' ∧
    tag (el s') = "h2" ∧
    style (el s') !! "fontSize" = style (el s) !! "fontSize".
Proof.
  intros Hwide Hheight Hs Htag. unfold adjustContentScaling.
  destruct (font_size_is_whole_percent windowWidth) as (percent & _ & -> & _).
  assert (is_Some (funnelHeight windowHeight)) as [height ->].
  { unfold funnelHeight. destruct (Z.ltb_spec windowHeight 0); [lia | by eexists]. }
  cbn [mbind option_bind].
  assert (headingSize windowWidth = None) as ->.
  { unfold headingSize.
    destruct (Z.leb_spec windowWidth 1280); [lia|].
    destruct (Z.leb_spec windowWidth 1440); [lia | done]. }
  rewrite (with_ancestors_same _ [] (map_elements _ _))
    by (intros a e; by destruct (is_heading a e)).
  eexists. rewrite get_map_elements.
  destruct (get_with_ancestors
              (λ ancestors slideSection,
                 if is_slide_section ancestors slideSection
                 then style_set "fontSize" (pretty percent +:+ "%") slideSection
                 else slideSection) q [] doc s Hs) as (a' & s1 & -> & Hel).
  eexists. split; [reflexivity|]. split; [reflexivity|].
  assert (Hsame : el s1 = el s).
  { rewrite Hel. unfold is_slide_section. by rewrite Htag. }
  clear Hel. destruct s1 as [e1 ks1]. cbn [map_elements el fmap option_fmap option_map] in *.
  subst e1. destruct (has_class "funnel-3d-container" (el s)); [|done].
  split; [done|]. cbn. by rewrite lookup_insert_ne.
Qed.

(** The page after the function has run in a window of 1200 by 700 pixels:
    the heading has 22px. *)
Definition narrow_deck : node :=
  default deck (adjustContentScaling 1200 700 deck).

Lemma wide_window_keeps_heading_size_witness :
  ∃ wide heading section,
    adjustContentScaling 1920 1080 narrow_deck = Some wide ∧
    get [0; 0; 0; 0]%nat wide = Some heading ∧
    get [0; 0; 0]%nat wide = Some section ∧
    style (el heading) !! "fontSize" = Some "22px" ∧
    style (el section) !! "fontSize" = Some "95%".
Proof.
  destruct (wide_window_keeps_heading_size 1920 1080 narrow_deck
              [0; 0; 0; 0]%nat
              (on_el (style_set "fontSize" "22px") (tagged "h2" [] [])))
    as (wide & heading & Hwide & Hget & _ & Hsize);
    [lia | lia | by vm_compute | reflexivity |].
  assert (Hsection : (λ d, style ∘ el <$> get [0; 0; 0]%nat d) <$>
                     adjustContentScaling 1920 1080 narrow_deck
                     = Some (Some (<["fontSize" := "95%"]> ∅)))
    by (vm_compute; reflexivity).
  rewrite Hwide in Hsection. cbn [fmap option_fmap option_map] in Hsection.
  destruct (get [0; 0; 0]%nat wide) as [section|] eqn:Hsec;
    [|discriminate Hsection].
  exists wide, heading, section.
  split; [done|]. split; [done|]. split; [done|].
  split; [by rewrite Hsize|].
  cbn in Hsection. injection Hsection as ->. reflexivity.
Defined.

End Scaling.
